(** * The debug console's REPL model (replModel.ts)

    A shallow embedding of [vs/workbench/contrib/debug/common/replModel.ts]:
    the element classes, [ReplGroup.addChild]/[ReplGroup.end], and the
    [ReplModel] operations.  Objects that the TypeScript code mutates in
    place live in exactly one container (the top-level array or one group's
    [children] array), so the store is embedded as a tree value and a
    mutation of "the last element" is an update of the last slot.

    The two module-level counters ([topReplElementCounter] and
    [ReplGroup.COUNTER]) and the number of times the model's
    [_onDidChangeElements] emitter fired are threaded through a [World]. *)

From stdpp Require Import base decidable option list strings pretty relations gmap.
From Stdlib Require Import Ascii Lia.

Set Warnings "-register-all,-abstract-large-number".

Open Scope string_scope.
Open Scope list_scope.
Open Scope nat_scope.

(** ** Collaborators kept abstract *)

(** An [IDebugSession] and an [IStackFrame] are only passed around. *)
Definition IDebugSession := nat.
Definition IStackFrame := nat.

(** [vs/base/common/severity]. *)
Inductive severity := Ignore | Info | Warning | Error.

Global Instance severity_eq_dec : EqDecision severity.
Proof. solve_decision. Defined.

(** [IReplElementSource]: the fields of the source locator that the model
    reads ([source.name], [source.uri.toString()], [lineNumber], [column]). *)
Record IReplElementSource := {
  source_name : string;
  source_uri : string;
  lineNumber : Z;
  column : Z
}.

(** The values a [RawObjectReplElement] wraps ([valueObj: any]): [null], an
    array, a keyed object (own property names in enumeration order, each
    with its value), a string, or anything else, kept with its [String(..)]
    rendering. *)
Inductive JsValue :=
| JsNull
| JsArray (items : list JsValue)
| JsObject (props : list (string * JsValue))
| JsString (s : string)
| JsOther (rendering : string).

(** ** Elements *)

(** The classes implementing [IReplElement].  [SimpleReplElement] carries
    its [_count] and the number of times its own [_onDidChangeCount]
    emitter fired.  The expression-like classes carry the [severity] and
    [sourceData] properties that [appendToRepl] assigns to them. *)
Inductive IReplElement :=
| SimpleReplElement (session : IDebugSession) (id : string) (value : string)
    (sev : severity) (sourceData : option IReplElementSource)
    (count : nat) (countFired : nat)
| RawObjectReplElement (id : string) (name : string) (valueObj : JsValue)
    (sourceData : option IReplElementSource) (annotation : option string)
    (sev : option severity)
| ReplEvaluationInput (id : string) (value : string)
| ReplEvaluationResult (id : string) (value : string) (available : bool)
    (sev : option severity) (sourceData : option IReplElementSource)
| ReplGroup (name : string) (autoExpand : bool)
    (sourceData : option IReplElementSource)
    (children : list IReplElement) (id : string) (ended : bool).

Definition getId (e : IReplElement) : string :=
  match e with
  | SimpleReplElement _ id _ _ _ _ _ => id
  | RawObjectReplElement id _ _ _ _ _ => id
  | ReplEvaluationInput id _ => id
  | ReplEvaluationResult id _ _ _ _ => id
  | ReplGroup _ _ _ _ id _ => id
  end.

Definition isGroup (e : IReplElement) : bool :=
  match e with ReplGroup _ _ _ _ _ _ => true | _ => false end.

Definition isSimple (e : IReplElement) : bool :=
  match e with SimpleReplElement _ _ _ _ _ _ _ => true | _ => false end.

(** [ReplGroup.hasEnded]. *)
Definition hasEnded (e : IReplElement) : bool :=
  match e with ReplGroup _ _ _ _ _ ended => ended | _ => false end.

(** [ReplGroup.getChildren]. *)
Definition getChildren (e : IReplElement) : list IReplElement :=
  match e with ReplGroup _ _ _ children _ _ => children | _ => [] end.

(** The test [lastElement instanceof ReplGroup && !lastElement.hasEnded]. *)
Definition isOpenGroup (e : IReplElement) : bool :=
  match e with ReplGroup _ _ _ _ _ ended => negb ended | _ => false end.

(** ** RawObjectReplElement *)

Module RawObject.

Definition MAX_CHILDREN : nat := 1000.

(** Modelled from the spec: [isObject] of [vs/base/common/types] is not
    among the sources; the specification calls the values it accepts
    keyed maps, as opposed to [null], arrays and scalars. *)
Definition isObject (v : JsValue) : bool :=
  match v with JsObject _ => true | _ => false end.

Definition isArray (v : JsValue) : bool :=
  match v with JsArray _ => true | _ => false end.

(** The elements of an array value ([valueObj.length] is their number). *)
Definition arrayItems (v : JsValue) : list JsValue :=
  match v with JsArray items => items | _ => [] end.

(** [Object.getOwnPropertyNames(valueObj)], as called on the values
    [isObject] accepts. *)
Definition getOwnPropertyNames (v : JsValue) : list string :=
  match v with JsObject props => props.*1 | _ => [] end.

(** [valueObj[key]]. *)
Fixpoint getProperty (props : list (string * JsValue)) (key : string)
  : JsValue :=
  match props with
  | [] => JsOther "undefined"
  | (k, v) :: rest => if String.eqb k key then v else getProperty rest key
  end.

Definition propertyOf (v : JsValue) (key : string) : JsValue :=
  match v with
  | JsObject props => getProperty props key
  | _ => JsOther "undefined"
  end.

Definition hasChildren (e : IReplElement) : bool :=
  match e with
  | RawObjectReplElement _ _ valueObj _ _ _ =>
      (isArray valueObj && bool_decide (0 < length (arrayItems valueObj)))
      || (isObject valueObj
          && bool_decide (0 < length (getOwnPropertyNames valueObj)))
  | _ => false
  end.

(** [getChildren()]; the promise it returns is already resolved. *)
Definition getChildren (e : IReplElement) : list IReplElement :=
  match e with
  | RawObjectReplElement id _ valueObj _ _ _ =>
      if isArray valueObj then
        imap (λ index v,
                RawObjectReplElement (id +:+ ":" +:+ pretty index)
                  (pretty index) v None None None)
             (take MAX_CHILDREN (arrayItems valueObj))
      else if isObject valueObj then
        imap (λ index key,
                RawObjectReplElement (id +:+ ":" +:+ pretty index)
                  key (propertyOf valueObj key) None None None)
             (take MAX_CHILDREN (getOwnPropertyNames valueObj))
      else []
  | _ => []
  end.

End RawObject.

(** ** ReplGroup *)

(** [addChild]: delegate to the last child when that is an open group,
    otherwise push.  The inner loop walks to the last slot of [children]. *)
Fixpoint ReplGroup_addChild (child : IReplElement) (g : IReplElement)
  {struct g} : IReplElement :=
  match g with
  | ReplGroup name autoExpand sourceData children id ended =>
      let fix walk (l : list IReplElement) : list IReplElement :=
        match l with
        | [] => [child]
        | x :: tl =>
            match tl with
            | [] => if isOpenGroup x then [ReplGroup_addChild child x]
                    else [x; child]
            | _ :: _ => x :: walk tl
            end
        end in
      ReplGroup name autoExpand sourceData (walk children) id ended
  | other => other
  end.

(** [end]: delegate to the last child when that is an open group,
    otherwise set [ended]. *)
Fixpoint ReplGroup_end (g : IReplElement) {struct g} : IReplElement :=
  match g with
  | ReplGroup name autoExpand sourceData children id ended =>
      let fix walk (l : list IReplElement) : option (list IReplElement) :=
        match l with
        | [] => None
        | x :: tl =>
            match tl with
            | [] => if isOpenGroup x then Some [ReplGroup_end x] else None
            | _ :: _ => cons x <$> walk tl
            end
        end in
      match walk children with
      | Some children' =>
          ReplGroup name autoExpand sourceData children' id ended
      | None => ReplGroup name autoExpand sourceData children id true
      end
  | other => other
  end.

(** [areSourcesEqual]. *)
Definition areSourcesEqual (first second : option IReplElementSource) : bool :=
  match first, second with
  | None, None => true
  | Some a, Some b =>
      bool_decide (column a = column b)
      && bool_decide (lineNumber a = lineNumber b)
      && bool_decide (source_uri a = source_uri b)
  | _, _ => false
  end.

(** ** ReplModel *)

Definition MAX_REPL_LENGTH : nat := 10000.

Record World := {
  topReplElementCounter : nat;
  COUNTER : nat;
  replElements : list IReplElement;
  changeFired : nat
}.

(** A fresh model, whatever the counters have reached. *)
Definition newModel (top groups : nat) : World :=
  {| topReplElementCounter := top; COUNTER := groups;
     replElements := []; changeFired := 0 |}.

Definition setElements (l : list IReplElement) (w : World) : World :=
  {| topReplElementCounter := topReplElementCounter w; COUNTER := COUNTER w;
     replElements := l; changeFired := changeFired w |}.

(** [this._onDidChangeElements.fire()]. *)
Definition fire (w : World) : World :=
  {| topReplElementCounter := topReplElementCounter w; COUNTER := COUNTER w;
     replElements := replElements w; changeFired := S (changeFired w) |}.

(** [getUniqueId]: the id drawn, and the world with the counter bumped. *)
Definition uniqueIdOf (n : nat) : string := "topReplElement:" +:+ pretty n.

Definition getUniqueId (w : World) : string * World :=
  (uniqueIdOf (topReplElementCounter w),
   {| topReplElementCounter := S (topReplElementCounter w);
      COUNTER := COUNTER w;
      replElements := replElements w; changeFired := changeFired w |}).

Definition groupIdOf (n : nat) : string := "replGroup:" +:+ pretty n.

(** [getReplElements]. *)
Definition getReplElements (w : World) : list IReplElement := replElements w.

(** [replElements.splice(0, length - MAX_REPL_LENGTH)] under its guard. *)
Definition trim (l : list IReplElement) : list IReplElement :=
  if bool_decide (MAX_REPL_LENGTH < length l)
  then drop (length l - MAX_REPL_LENGTH) l
  else l.

(** The slot [l[l.length - 1]] overwritten. *)
Definition setLast (x : IReplElement) (l : list IReplElement)
  : list IReplElement := <[length l - 1 := x]> l.

Definition addReplElement (newElement : IReplElement) (w : World) : World :=
  let els := replElements w in
  let els' :=
    match last els with
    | Some lastElement =>
        if isOpenGroup lastElement
        then setLast (ReplGroup_addChild newElement lastElement) els
        else trim (els ++ [newElement])
    | None => trim (els ++ [newElement])
    end in
  fire (setElements els' w).

Definition removeReplExpressions (w : World) : World :=
  if bool_decide (0 < length (replElements w))
  then fire (setElements [] w)
  else w.

Definition startGroup (name : string) (autoExpand : bool)
    (sourceData : option IReplElementSource) (w : World) : World :=
  let group :=
    ReplGroup name autoExpand sourceData [] (groupIdOf (COUNTER w)) false in
  addReplElement group
    {| topReplElementCounter := topReplElementCounter w;
       COUNTER := S (COUNTER w);
       replElements := replElements w; changeFired := changeFired w |}.

Definition endGroup (w : World) : World :=
  match last (replElements w) with
  | Some lastElement =>
      if isGroup lastElement
      then setElements (setLast (ReplGroup_end lastElement) (replElements w)) w
      else w
  | None => w
  end.

(** ** Strings as the model uses them *)

Definition LF : string := String "010"%char "".
Definition CRLF : string := String "013"%char (String "010"%char "").

(** [s.startsWith(pat)]. *)
Fixpoint startsWith (pat s : string) : bool :=
  match pat, s with
  | "", _ => true
  | String a pat', String b s' => bool_decide (a = b) && startsWith pat' s'
  | String _ _, "" => false
  end.

(** [s.indexOf(pat)], with [None] for [-1]. *)
Fixpoint indexOf (pat s : string) : option nat :=
  if startsWith pat s then Some 0
  else match s with
       | "" => None
       | String _ s' => S <$> indexOf pat s'
       end.

(** [s.lastIndexOf(pat)], with [None] for [-1]. *)
Fixpoint lastIndexOf (pat s : string) : option nat :=
  match s with
  | "" => if startsWith pat "" then Some 0 else None
  | String _ s' =>
      match lastIndexOf pat s' with
      | Some i => Some (S i)
      | None => if startsWith pat s then Some 0 else None
      end
  end.

(** [s.substring(n)]. *)
Fixpoint substringFrom (n : nat) (s : string) : string :=
  match n, s with
  | 0, _ => s
  | S n', String _ s' => substringFrom n' s'
  | S _, "" => ""
  end.

(** [s.endsWith(suffix)]. *)
Definition endsWith (s suffix : string) : bool :=
  bool_decide (String.length suffix ≤ String.length s)
  && String.eqb (substringFrom (String.length s - String.length suffix) s)
       suffix.

(** ** appendToRepl *)

(** ['\u001b[2J']. *)
Definition clearAnsiSequence : string := String "027"%char "[2J".

(** [nls.localize('consoleCleared', "Console was cleared")]: the message
    as shipped; localisation is a collaborator. *)
Definition consoleCleared : string := "Console was cleared".

(** The objects of this file that are an [IExpression]:
    [RawObjectReplElement] is the one class declared to implement it.  The
    fields are those of its constructor, and [sev] the [severity] property
    once it has been assigned. *)
Inductive IExpression :=
| RawObjectExpression (id : string) (name : string) (valueObj : JsValue)
    (sourceData : option IReplElementSource) (annotation : option string)
    (sev : option severity).

(** [data: string | IExpression]; an expression handed in is an object the
    store does not hold yet. *)
Inductive ReplData :=
| Text (s : string)
| Expression (e : IExpression).

(** [(<any>data).severity = sev; (<any>data).sourceData = source]: both
    properties are overwritten, whatever they held; the result is the
    object as the store then holds it. *)
Definition assignOutputFields (sev : severity)
    (source : option IReplElementSource) (e : IExpression) : IReplElement :=
  match e with
  | RawObjectExpression i n v _ a _ =>
      RawObjectReplElement i n v source a (Some sev)
  end.

(** [new SimpleReplElement(session, getUniqueId(), data, sev, source)]
    handed to [addReplElement]. *)
Definition pushText (session : IDebugSession) (data : string) (sev : severity)
    (source : option IReplElementSource) (w : World) : World :=
  let '(id, w1) := getUniqueId w in
  addReplElement (SimpleReplElement session id data sev source 1 0) w1.

(** The body of [appendToRepl] below the clear-screen test.  [collapse] is
    what [configurationService] answers for
    [debug.console.collapseIdenticalLines]. *)
Definition appendData (session : IDebugSession) (data : ReplData)
    (sev : severity) (source : option IReplElementSource) (collapse : bool)
    (w : World) : World :=
  match data with
  | Text data =>
      match last (replElements w) with
      | Some (SimpleReplElement psession pid pvalue psev psource pcount pfired) =>
          if bool_decide (psev = sev) then
            if String.eqb pvalue data && areSourcesEqual psource source
               && collapse
            then
              setElements
                (setLast (SimpleReplElement psession pid pvalue psev psource
                            (S pcount) (S pfired)) (replElements w)) w
            else if negb (endsWith pvalue LF) && negb (endsWith pvalue CRLF)
                    && bool_decide (pcount = 1)
            then
              let '(id, w1) := getUniqueId w in
              fire (setElements
                      (setLast (SimpleReplElement session id (pvalue +:+ data)
                                  sev source 1 0) (replElements w1)) w1)
            else pushText session data sev source w
          else pushText session data sev source w
      | _ => pushText session data sev source w
      end
  | Expression e => addReplElement (assignOutputFields sev source e) w
  end.

(** [appendToRepl] calls itself for the "Console was cleared" message;
    [fuel] bounds the depth of that recursion. *)
Fixpoint appendToRepl_fuel (fuel : nat) (session : IDebugSession)
    (data : ReplData) (sev : severity) (source : option IReplElementSource)
    (collapse : bool) (w : World) : option World :=
  match fuel with
  | 0 => None
  | S fuel' =>
      match data with
      | Text str =>
          match indexOf clearAnsiSequence str with
          | Some _ =>
              let w1 := removeReplExpressions w in
              match appendToRepl_fuel fuel' session (Text consoleCleared)
                      Ignore None collapse w1 with
              | Some w2 =>
                  let start :=
                    match lastIndexOf clearAnsiSequence str with
                    | Some i => i + String.length clearAnsiSequence
                    | None => String.length clearAnsiSequence - 1
                    end in
                  Some (appendData session (Text (substringFrom start str))
                          sev source collapse w2)
              | None => None
              end
          | None => Some (appendData session data sev source collapse w)
          end
      | Expression _ => Some (appendData session data sev source collapse w)
      end
  end.

(** Two levels are all the recursion ever takes (see
    [appendToRepl_fuel_enough]). *)
Definition appendToRepl (session : IDebugSession) (data : ReplData)
    (sev : severity) (source : option IReplElementSource) (collapse : bool)
    (w : World) : World :=
  default w (appendToRepl_fuel 2 session data sev source collapse w).

(** ** addReplExpression *)

(** What the debug session answers to an evaluation request. *)
Record EvaluationOutcome := {
  succeeded : bool;
  shownValue : string
}.

(** Modelled from the spec: [ExpressionContainer.evaluateExpression] of
    [debugModel.ts] is not among the sources.  The specification has the
    evaluation subsystem resolve, never reject: a failed evaluation (also an
    absent session or frame) is reported as [false], and the container
    holds the value to display. *)
Definition ExpressionContainer_evaluateExpression
    (outcome : EvaluationOutcome) : bool * string :=
  (succeeded outcome, shownValue outcome).

(** [ReplEvaluationResult.evaluateExpression]: [_available] takes the
    answer of the base class.  The object is created with
    [_available = true] and an id from [generateUuid()]. *)
Definition ReplEvaluationResult_evaluateExpression (uuid : string)
    (outcome : EvaluationOutcome) : IReplElement :=
  let '(result, value) := ExpressionContainer_evaluateExpression outcome in
  ReplEvaluationResult uuid value result None None.

(** The part of [addReplExpression] before the [await]; [uuid] is what
    [generateUuid()] returns for the input element. *)
Definition addReplExpression_begin (uuid : string) (name : string)
    (w : World) : World :=
  addReplElement (ReplEvaluationInput uuid name) w.

(** The part after the [await]. *)
Definition addReplExpression_resume (uuid : string)
    (outcome : EvaluationOutcome) (w : World) : World :=
  addReplElement (ReplEvaluationResult_evaluateExpression uuid outcome) w.

(** [addReplExpression].  The call suspends at the [await]: [during] is
    what the other callers of the model do to it before the evaluation has
    answered, the identity when nothing else is scheduled. *)
Definition addReplExpression (session : IDebugSession)
    (stackFrame : option IStackFrame) (name : string)
    (uuidInput uuidResult : string) (outcome : EvaluationOutcome)
    (during : World → World) (w : World) : World :=
  addReplExpression_resume uuidResult outcome
    (during (addReplExpression_begin uuidInput name w)).

(** ** The store API as a transition system *)

(** What [addReplElement], which is private, receives outside [startGroup]
    and the text path: the raw objects of [appendToRepl] and the two
    elements of [addReplExpression].  Groups are only ever created by
    [startGroup], text elements only by [appendToRepl]. *)
Definition isExpressionElement (e : IReplElement) : bool :=
  negb (isGroup e) && negb (isSimple e).

Inductive Op :=
| OpAppendToRepl (session : IDebugSession) (data : ReplData) (sev : severity)
    (source : option IReplElementSource) (collapse : bool)
| OpStartGroup (name : string) (autoExpand : bool)
    (sourceData : option IReplElementSource)
| OpEndGroup
| OpAddReplExpression (session : IDebugSession)
    (stackFrame : option IStackFrame) (name : string)
    (uuidInput uuidResult : string) (outcome : EvaluationOutcome)
| OpRemoveReplExpressions
| OpAddReplElement (e : IReplElement).

Definition validOp (op : Op) : bool :=
  match op with
  | OpAddReplElement e => isExpressionElement e
  | _ => true
  end.

(** [OpAddReplExpression] is an evaluation that is answered before anything
    else runs; one that other operations overtake is its two inserts,
    [OpAddReplElement], with those operations in between. *)
Definition step (op : Op) (w : World) : World :=
  match op with
  | OpAppendToRepl session data sev source collapse =>
      appendToRepl session data sev source collapse w
  | OpStartGroup name autoExpand sourceData =>
      startGroup name autoExpand sourceData w
  | OpEndGroup => endGroup w
  | OpAddReplExpression session stackFrame name uuidInput uuidResult outcome =>
      addReplExpression session stackFrame name uuidInput uuidResult outcome
        (λ w, w) w
  | OpRemoveReplExpressions => removeReplExpressions w
  | OpAddReplElement e => addReplElement e w
  end.

(** The states a model goes through, from its creation on. *)
Inductive reachable : World → Prop :=
| reachable_new top groups : reachable (newModel top groups)
| reachable_step op w :
    reachable w → validOp op = true → reachable (step op w).

(** ** Vocabulary of the statements *)

(** An element followed by everything below it, in display order. *)
Fixpoint flatten (e : IReplElement) : list IReplElement :=
  e :: match e with
       | ReplGroup _ _ _ children _ _ => children ≫= flatten
       | _ => []
       end.

Definition flattenAll (l : list IReplElement) : list IReplElement :=
  l ≫= flatten.

(** Every group held by the store, at any depth. *)
Definition allGroups (l : list IReplElement) : list IReplElement :=
  filter (λ e, isGroup e = true) (flattenAll l).

Definition lastIsOpenGroup (l : list IReplElement) : bool :=
  match last l with Some x => isOpenGroup x | None => false end.

(** [n] elements inserted one after the other. *)
Definition insertAll (xs : list IReplElement) (w : World) : World :=
  foldl (λ acc e, addReplElement e acc) w xs.

(** [n] times the same [appendToRepl] call, "collapse identical lines" on. *)
Definition appendRepeatedly (n : nat) (session : IDebugSession)
    (data : string) (sev : severity) (source : option IReplElementSource)
    (w : World) : World :=
  Nat.iter n (appendToRepl session (Text data) sev source true) w.

(** The "Console was cleared" element a clearing call creates. *)
Definition clearedNotice (session : IDebugSession) (w : World)
  : IReplElement :=
  SimpleReplElement session (uniqueIdOf (topReplElementCounter w))
    consoleCleared Ignore None 1 0.

(** [ended := true], nothing else. *)
Definition setEnded (g : IReplElement) : IReplElement :=
  match g with
  | ReplGroup n a s ch i _ => ReplGroup n a s ch i true
  | other => other
  end.

Definition setChildren (ch : list IReplElement) (g : IReplElement)
  : IReplElement :=
  match g with
  | ReplGroup n a s _ i e => ReplGroup n a s ch i e
  | other => other
  end.

(** The group reached from [g] by child indices [path], closed in place. *)
Fixpoint closeAt (path : list nat) (g : IReplElement) : IReplElement :=
  match path with
  | [] => setEnded g
  | i :: path' => setChildren (alter (closeAt path') i (getChildren g)) g
  end.

Fixpoint nodeAt (path : list nat) (g : IReplElement) : option IReplElement :=
  match path with
  | [] => Some g
  | i :: path' => getChildren g !! i ≫= nodeAt path'
  end.

(** [path] leads from [g] down through last children that are open groups,
    as far as that goes: it addresses the innermost open group below [g]
    (or [g] itself when its last child is not an open group). *)
Inductive openChain : IReplElement → list nat → Prop :=
| openChain_here g :
    lastIsOpenGroup (getChildren g) = false → openChain g []
| openChain_down g x path :
    last (getChildren g) = Some x → isOpenGroup x = true →
    openChain x path →
    openChain g ((length (getChildren g) - 1) :: path).

(** The same path, computed. *)
Fixpoint innermostPath (g : IReplElement) : list nat :=
  match g with
  | ReplGroup _ _ _ children _ _ =>
      (fix walk (l : list IReplElement) (index : nat) : list nat :=
         match l with
         | [] => []
         | x :: tl =>
             match tl with
             | [] => if isOpenGroup x then index :: innermostPath x else []
             | _ :: _ => walk tl (S index)
             end
         end) children 0
  | _ => []
  end.

(** A closed group has no open group as its last child. *)
Definition closedForGood (g : IReplElement) : Prop :=
  hasEnded g = true → lastIsOpenGroup (getChildren g) = false.

(** Structural induction that reaches into [children]. *)
Definition IReplElement_tree_ind (P : IReplElement → Prop)
    (Hleaf : ∀ e, isGroup e = false → P e)
    (Hgroup : ∀ n a s ch i en, Forall P ch → P (ReplGroup n a s ch i en))
  : ∀ e, P e :=
  fix F (e : IReplElement) : P e :=
    match e with
    | ReplGroup n a s ch i en =>
        Hgroup n a s ch i en
          ((fix G (l : list IReplElement) : Forall P l :=
              match l with
              | [] => @List.Forall_nil _ P
              | x :: tl => @List.Forall_cons _ P x tl (F x) (G tl)
              end) ch)
    | SimpleReplElement s i v sv sd c f =>
        Hleaf (SimpleReplElement s i v sv sd c f) eq_refl
    | RawObjectReplElement i n v sd a sv =>
        Hleaf (RawObjectReplElement i n v sd a sv) eq_refl
    | ReplEvaluationInput i v => Hleaf (ReplEvaluationInput i v) eq_refl
    | ReplEvaluationResult i v a sv sd =>
        Hleaf (ReplEvaluationResult i v a sv sd) eq_refl
    end.

(** The ids [getUniqueId] has handed out so far are the ones below the
    counter. *)
Definition textIdBelow (c : nat) (e : IReplElement) : Prop :=
  isSimple e = true → ∃ k, k < c ∧ getId e = uniqueIdOf k.

(** [ReplEvaluationResult.available]. *)
Definition available (e : IReplElement) : bool :=
  match e with ReplEvaluationResult _ _ a _ _ => a | _ => false end.

(** The groups at and below one element. *)
Definition groupsIn (e : IReplElement) : list IReplElement :=
  filter (λ x, isGroup x = true) (flatten e).

(** How one operation may change a group: not at all, or, for a group that
    was open, in a way that keeps its id and leaves it either open or
    closed for good. *)
Definition evolves (a b : IReplElement) : Prop :=
  a = b ∨ (hasEnded a = false ∧ getId a = getId b ∧ closedForGood b).

(** What every reachable state satisfies: group ids are distinct and were
    drawn from [ReplGroup.COUNTER], and closed groups are closed for good. *)
Definition groupsWellFormed (w : World) : Prop :=
  NoDup (getId <$> allGroups (replElements w))
  ∧ Forall (λ g, ∃ k, k < COUNTER w ∧ getId g = groupIdOf k)
      (allGroups (replElements w))
  ∧ Forall closedForGood (allGroups (replElements w)).

(** Every group of [w'] is new (its id drawn at or after [w]'s counter) or
    comes from a group of [w]. *)
Definition groupsFrom (w w' : World) : Prop :=
  COUNTER w ≤ COUNTER w'
  ∧ ∀ g', g' ∈ allGroups (replElements w') →
      (∃ k, COUNTER w ≤ k ∧ getId g' = groupIdOf k)
      ∨ ∃ g, g ∈ allGroups (replElements w) ∧ evolves g g'.

Definition preserves (w w' : World) : Prop :=
  groupsWellFormed w → groupsWellFormed w' ∧ groupsFrom w w'.

(** The list of groups after a step, position by position: the old groups,
    each evolved, then at most one new group, minus an evicted prefix. *)
Definition groupsStep (c : nat) (old new : list IReplElement) (c' : nat)
  : Prop :=
  ∃ kept extra m,
    new = drop m (kept ++ extra)
    ∧ Forall2 evolves old kept
    ∧ c ≤ c'
    ∧ (extra = []
       ∨ ∃ g, extra = [g] ∧ getId g = groupIdOf c ∧ closedForGood g
              ∧ c < c').

(** ** Sample data for the worked instances *)

Definition sampleInputs : list IReplElement :=
  (λ i, ReplEvaluationInput (pretty i) "line") <$> seq 0 10001.

Definition sampleClosedGroup : IReplElement :=
  ReplGroup "B" false None [] (groupIdOf 1) true.

Definition sampleNesting : World :=
  step OpEndGroup
    (step (OpStartGroup "B" false None)
       (step (OpStartGroup "A" true None) (newModel 0 0))).

(** ** Rendering as text *)

(** The loop of [SimpleReplElement.toString]: [n] more copies of [value]
    appended to [acc], each on a line of its own. *)
Fixpoint repeatValue (n : nat) (value acc : string) : string :=
  match n with
  | 0 => acc
  | S n' =>
      repeatValue n' value
        (acc +:+ ((if endsWith acc LF then "" else LF) +:+ value))
  end.

(** [(this.sourceData && includeSource) ? ` ${this.sourceData.source.name}`
    : ''], shared by text elements and groups. *)
Definition sourceSuffix (includeSource : bool)
    (sourceData : option IReplElementSource) : string :=
  match sourceData with
  | Some s => if includeSource then " " +:+ source_name s else ""
  | None => ""
  end.

(** [RawObjectReplElement.value]. *)
Definition RawObject_value (v : JsValue) : string :=
  match v with
  | JsNull => "null"
  | JsArray items => "Array[" +:+ pretty (length items) +:+ "]"
  | JsObject _ => "Object"
  | JsString s => String "034"%char (s +:+ String "034"%char "")
  | JsOther rendering => rendering
  end.

(** [toString(includeSource = false)] of each class. *)
Definition toString (includeSource : bool) (e : IReplElement) : string :=
  match e with
  | SimpleReplElement _ _ value _ sourceData count _ =>
      repeatValue (count - 1) value value
      +:+ sourceSuffix includeSource sourceData
  | RawObjectReplElement _ name valueObj _ _ _ =>
      name +:+ (LF +:+ RawObject_value valueObj)
  | ReplEvaluationInput _ value => value
  | ReplEvaluationResult _ value _ _ _ => value
  | ReplGroup name _ sourceData _ _ _ =>
      name +:+ sourceSuffix includeSource sourceData
  end.

(** [n] copies of [s], with [sep] before each copy but the first. *)
Fixpoint copies (n : nat) (sep s : string) : string :=
  match n with
  | 0 => ""
  | 1 => s
  | S n' => copies n' sep s +:+ (sep +:+ s)
  end.

(** ** Text elements and nesting depth *)

(** The text elements at and below one element, and in a whole store. *)
Definition textsIn (e : IReplElement) : list IReplElement :=
  filter (λ x, isSimple x = true) (flatten e).

Definition allTexts (l : list IReplElement) : list IReplElement :=
  filter (λ x, isSimple x = true) (flattenAll l).

Definition getCount (e : IReplElement) : nat :=
  match e with SimpleReplElement _ _ _ _ _ count _ => count | _ => 1 end.

Definition getCountFired (e : IReplElement) : nat :=
  match e with SimpleReplElement _ _ _ _ _ _ fired => fired | _ => 0 end.

Definition getValue (e : IReplElement) : string :=
  match e with
  | SimpleReplElement _ _ value _ _ _ _ => value
  | ReplEvaluationInput _ value => value
  | ReplEvaluationResult _ value _ _ _ => value
  | _ => ""
  end.

(** How many groups are open one inside the other at the end of the store:
    the number of [endGroup] calls that still have something to close. *)
Definition openDepth (l : list IReplElement) : nat :=
  match last l with
  | Some g => if isOpenGroup g then S (length (innermostPath g)) else 0
  | None => 0
  end.

(** What one element adds to the depth when it is inserted. *)
Definition depthOf (e : IReplElement) : nat :=
  if isOpenGroup e then S (length (innermostPath e)) else 0.

(** Text chunks appended one call after the other. *)
Definition appendChunks (session : IDebugSession) (chunks : list string)
    (sev : severity) (source : option IReplElementSource) (collapse : bool)
    (w : World) : World :=
  foldl (λ acc chunk,
           appendToRepl session (Text chunk) sev source collapse acc)
    w chunks.

Fixpoint concatStrings (l : list string) : string :=
  match l with
  | [] => ""
  | s :: rest => s +:+ concatStrings rest
  end.

(** ** The operations as sequences of primitive updates *)

(** Every operation of the API is one or several of these updates: the
    insert of an expression element, of a new text element, or of a new
    group; the closing of a group; the clearing of the store; the count
    bump of the last text element; its replacement by a longer text. *)
Inductive prim : World → World → Prop :=
| prim_insert e w :
    isExpressionElement e = true → prim w (addReplElement e w)
| prim_text session data sev source w :
    prim w (pushText session data sev source w)
| prim_group name autoExpand sourceData w :
    prim w (startGroup name autoExpand sourceData w)
| prim_end w : prim w (endGroup w)
| prim_clear w : prim w (removeReplExpressions w)
| prim_bump w l0 ps pid pv psev psrc pc pf :
    replElements w = l0 ++ [SimpleReplElement ps pid pv psev psrc pc pf] →
    prim w
      (setElements
         (l0 ++ [SimpleReplElement ps pid pv psev psrc (S pc) (S pf)]) w)
| prim_glue w l0 p session text sev source :
    replElements w = l0 ++ [p] → isSimple p = true → getCount p = 1 →
    prim w
      (fire (setElements
               (l0 ++ [SimpleReplElement session
                         (uniqueIdOf (topReplElementCounter w)) text sev
                         source 1 0])
               (getUniqueId w).2)).

(** Text ids are distinct and were drawn from [topReplElementCounter]. *)
Definition textIdsWellFormed (w : World) : Prop :=
  NoDup (getId <$> allTexts (replElements w))
  ∧ Forall (λ t, ∃ k, k < topReplElementCounter w ∧ getId t = uniqueIdOf k)
      (allTexts (replElements w)).

(** A text element has fired its count event once per repetition, and
    text elements inside groups are never repeated. *)
Definition countsWellFormed (w : World) : Prop :=
  Forall (λ t, 1 ≤ getCount t ∧ getCountFired t + 1 = getCount t)
    (allTexts (replElements w))
  ∧ Forall (λ e, isGroup e = true →
                 Forall (λ t, getCount t = 1) (textsIn e))
      (replElements w).

Definition sampleConsole : World :=
  step (OpAppendToRepl 0 (Text "b") Info None true)
    (step (OpAppendToRepl 0 (Text "b") Info None true)
       (step (OpStartGroup "A" true None)
          (step (OpAppendToRepl 0 (Text "a") Info None true)
             (step (OpAppendToRepl 0 (Text "a") Info None true)
                (newModel 0 0))))).

(** What a text carrying the clear-screen sequence leaves in the store:
    [rest] is what follows the last occurrence of the sequence, [c] the
    value of [topReplElementCounter] before the call. *)
Definition clearedElements (session : IDebugSession) (rest : string)
    (sev : severity) (source : option IReplElementSource) (collapse : bool)
    (c : nat) : list IReplElement :=
  if bool_decide (sev = Ignore) then
    if String.eqb consoleCleared rest && areSourcesEqual None source
       && collapse
    then [SimpleReplElement session (uniqueIdOf c) consoleCleared Ignore
            None 2 1]
    else [SimpleReplElement session (uniqueIdOf (S c))
            (consoleCleared +:+ rest) Ignore source 1 0]
  else [SimpleReplElement session (uniqueIdOf c) consoleCleared Ignore
          None 1 0;
        SimpleReplElement session (uniqueIdOf (S c)) rest sev source 1 0].

(** [severity] of a text element. *)
Definition textSeverity (e : IReplElement) : option severity :=
  match e with
  | SimpleReplElement _ _ _ sev _ _ _ => Some sev
  | _ => None
  end.

Definition sampleArray : IReplElement :=
  RawObjectReplElement "root" "value"
    (JsArray [JsNull; JsString "x"; JsArray []]) None None None.

(** * The other source files *)

(** ** naiveCwdDetectionCapability.ts *)

Module NaiveCwd.

(** [_cwd] and the payloads [_onDidChangeCwd] has fired, oldest first. *)
Record Capability := {
  cwd : string;
  changeEvents : list string
}.

Definition create : Capability := {| cwd := ""; changeEvents := [] |}.

(** [getCwd()].  [process] is [None] when the capability was built without
    a process, and otherwise holds what [this._process.getCwd()] resolves
    to; the part after the [await] runs without interruption. *)
Definition getCwd (process : option string) (c : Capability)
  : string * Capability :=
  match process with
  | None => ("", c)
  | Some newCwd =>
      let events :=
        if bool_decide (newCwd ≠ cwd c)
        then changeEvents c ++ [newCwd]
        else changeEvents c in
      (newCwd, {| cwd := newCwd; changeEvents := events |})
  end.

(** One call per answer of the process, in the order they resolve. *)
Definition poll (answers : list string) (c : Capability) : Capability :=
  foldl (λ acc answer, (getCwd (Some answer) acc).2) c answers.

(** No two neighbours of the list are equal. *)
Fixpoint changesOnly (l : list string) : Prop :=
  match l with
  | a :: (b :: _) as rest => a ≠ b ∧ changesOnly rest
  | _ => True
  end.

End NaiveCwd.

(** ** contextProvider.ts *)

Module ContextProvider.

(** The argument of [setCommandContext]. *)
Inductive ContextValue :=
| ContextBool (b : bool)
| ContextNumber (n : Z).

(** [e.serverInfo], with the two fields read; [None] stands for
    [undefined] or [null]. *)
Record ServerInfo := {
  engineEditionId : option Z;
  serverMajorVersion : option Z
}.

Definition ISCLOUD : string := "mssql:iscloud".
Definition EDITIONID : string := "mssql:engineedition".
Definition SERVERMAJORVERSION : string := "mssql:servermajorversion".

(** [toLowerCase()] on the letters A to Z; no other character lowers to a
    letter of "mssql". *)
Definition lowerChar (c : ascii) : ascii :=
  let n := nat_of_ascii c in
  if bool_decide (65 ≤ n ≤ 90) then ascii_of_nat (n + 32) else c.

Fixpoint toLowerCase (s : string) : string :=
  match s with
  | "" => ""
  | String c s' => String (lowerChar c) (toLowerCase s')
  end.

(** [onDashboardOpen]: the [setContext] commands issued, in order.
    [cloudEditions] holds the three values of
    [azdata.DatabaseEngineEdition] listed in [isCloudEditions]. *)
Definition onDashboardOpen (cloudEditions : list Z) (providerName : string)
    (serverInfo : option ServerInfo) : list (string * ContextValue) :=
  let known :=
    if String.eqb (toLowerCase providerName) "mssql" then
      match serverInfo with
      | Some info =>
          match engineEditionId info with
          | Some edition =>
              Some (bool_decide (edition ∈ cloudEditions), edition,
                    serverMajorVersion info)
          | None => None
          end
      | None => None
      end
    else None in
  let iscloud := (λ k, k.1.1) <$> known in
  let edition := (λ k, k.1.2) <$> known in
  let serverMajor := known ≫= (λ k, k.2) in
  (match iscloud with
   | Some b => [(ISCLOUD, ContextBool b)]
   | None => []
   end)
  ++ (match edition with
      | Some n => [(EDITIONID, ContextNumber n)]
      | None => []
      end)
  ++ (match serverMajor with
      | Some n => [(SERVERMAJORVERSION, ContextNumber n)]
      | None => []
      end).

End ContextProvider.

(** ** webviewFindWidget.ts *)

Module FindWidget.

(** What reaches the webview. *)
Inductive WebviewCall :=
| Find (value : string) (previous : bool)
| StartFind (value : string)
| StopFind (keepSelection : bool)
| Focus.

(** Whether [_webview] is still set, and the calls made on it so far. *)
Record Widget := {
  attached : bool;
  calls : list WebviewCall
}.

Definition call (c : WebviewCall) (w : Widget) : Widget :=
  {| attached := attached w; calls := calls w ++ [c] |}.

(** The truthiness test [if (val)] on a string. *)
Definition nonEmpty (s : string) : bool := negb (String.eqb s "").

Definition dispose (w : Widget) : Widget :=
  {| attached := false; calls := calls w |}.

(** [find(previous)], with [inputValue] passed in. *)
Definition find (inputValue : string) (previous : bool) (w : Widget)
  : Widget :=
  if negb (attached w) then w
  else if nonEmpty inputValue then call (Find inputValue previous) w
  else w.

Definition hide (w : Widget) : Widget :=
  if attached w then call Focus (call (StopFind true) w) else w.

Definition onInputChanged (inputValue : string) (w : Widget) : Widget :=
  if negb (attached w) then w
  else if nonEmpty inputValue then call (StartFind inputValue) w
  else call (StopFind false) w.

Inductive Action :=
| DoFind (inputValue : string) (previous : bool)
| DoHide
| DoInputChanged (inputValue : string)
| DoDispose.

Definition act (a : Action) (w : Widget) : Widget :=
  match a with
  | DoFind v p => find v p w
  | DoHide => hide w
  | DoInputChanged v => onInputChanged v w
  | DoDispose => dispose w
  end.

End FindWidget.

(** ** extHostMemento.ts *)

Module Memento.

(** A value of type [any]; [None] is [undefined]. *)
Definition Any := option JsValue.

(** What an object inherits.  [inherited key] is what a lookup of [key]
    yields when the object has no own property of that name: [undefined]
    for a name the prototype chain lacks, and for [__proto__], when the
    chain ends in [Object.prototype], what the accessor there returns.
    [protoAccessor] is whether an assignment to [__proto__] that finds no
    own property reaches that accessor.  Every other inherited property is
    a writable data property, as those of the builtin prototypes and of
    plain objects are. *)
Record Prototype := {
  inherited : string → Any;
  protoAccessor : bool
}.

(** The chain of [Object.create(null)], the default handed to the storage. *)
Definition nullPrototype : Prototype :=
  {| inherited := λ _, None; protoAccessor := false |}.

(** The chain of an object literal or of a parsed JSON object: the
    properties of [Object.prototype] in ECMA-262, functions and the
    prototype itself by their renderings. *)
Definition objectPrototype : Prototype :=
  {| inherited := λ key,
       if bool_decide
            (key ∈ ["hasOwnProperty"; "isPrototypeOf";
                    "propertyIsEnumerable"; "toLocaleString"; "toString";
                    "valueOf"; "__defineGetter__"; "__defineSetter__";
                    "__lookupGetter__"; "__lookupSetter__"])
       then Some (JsOther ("function " +:+ key +:+ "() { [native code] }"))
       else if String.eqb key "constructor"
            then Some (JsOther "function Object() { [native code] }")
            else if String.eqb key "__proto__"
                 then Some (JsOther "[object Object]")
                 else None;
     protoAccessor := true |}.

(** The stored object [{ [n: string]: any }]: an ordinary, extensible
    object, by its own properties and what it inherits. *)
Record Values := {
  own : gmap string Any;
  prototype : Prototype
}.

(** [values[key]]. *)
Definition property (values : Values) (key : string) : Any :=
  match own values !! key with
  | Some v => v
  | None => inherited (prototype values) key
  end.

(** Whether [values[key] = ..] creates or overwrites an own property: it
    does unless [key] is [__proto__], not an own property, and the chain
    has the accessor. *)
Definition storesOwnProperty (values : Values) (key : string) : bool :=
  bool_decide (is_Some (own values !! key))
  || negb (String.eqb key "__proto__" && protoAccessor (prototype values)).

Inductive StorageCall :=
| GetValue (shared : bool) (key : string)
| SetValue (shared : bool) (key : string) (value : Values)
| RegisterKeysToSync (id version : string) (keys : list string).

(** [_value] is [None] until [_init] resolves or a storage event arrives;
    [listening] is whether [_storageListener] is still registered. *)
Record ExtensionMemento := {
  _id : string;
  _version : string;
  _shared : bool;
  _value : option Values;
  _syncKeys : list string;
  listening : bool;
  storageCalls : list StorageCall
}.

(** Reading or writing a property of [undefined] throws. *)
Inductive Result (A : Type) :=
| Ok (a : A)
| TypeError.
Arguments Ok {A} a.
Arguments TypeError {A}.

Definition create (id version : string) (global : bool) : ExtensionMemento :=
  {| _id := id; _version := version; _shared := global; _value := None;
     _syncKeys := []; listening := true;
     storageCalls := [GetValue global id] |}.

Definition setValues (v : option Values) (m : ExtensionMemento)
  : ExtensionMemento :=
  {| _id := _id m; _version := _version m; _shared := _shared m;
     _value := v; _syncKeys := _syncKeys m; listening := listening m;
     storageCalls := storageCalls m |}.

Definition callStorage (c : StorageCall) (m : ExtensionMemento)
  : ExtensionMemento :=
  {| _id := _id m; _version := _version m; _shared := _shared m;
     _value := _value m; _syncKeys := _syncKeys m; listening := listening m;
     storageCalls := storageCalls m ++ [c] |}.

(** The continuation of [getValue] in the constructor. *)
Definition initResolved (value : Values) (m : ExtensionMemento)
  : ExtensionMemento :=
  setValues (Some value) m.

(** The listener on [onDidChangeStorage]. *)
Definition onDidChangeStorage (shared : bool) (key : string) (value : Values)
    (m : ExtensionMemento) : ExtensionMemento :=
  if listening m then
    if Bool.eqb shared (_shared m) && String.eqb key (_id m)
    then setValues (Some value) m
    else m
  else m.

Definition setSyncKeys (keys : list string) (m : ExtensionMemento)
  : ExtensionMemento :=
  callStorage (RegisterKeysToSync (_id m) (_version m) keys)
    {| _id := _id m; _version := _version m; _shared := _shared m;
       _value := _value m; _syncKeys := keys; listening := listening m;
       storageCalls := storageCalls m |}.

Definition get (key : string) (defaultValue : Any) (m : ExtensionMemento)
  : Result Any :=
  match _value m with
  | None => TypeError
  | Some values =>
      match property values key with
      | None => Ok defaultValue
      | Some v => Ok (Some v)
      end
  end.

Definition dispose (m : ExtensionMemento) : ExtensionMemento :=
  {| _id := _id m; _version := _version m; _shared := _shared m;
     _value := _value m; _syncKeys := _syncKeys m; listening := false;
     storageCalls := storageCalls m |}.

(** What can happen to a memento. *)
Inductive Action :=
| DoUpdate (key : string) (value : Any)
| DoStorageChanged (shared : bool) (key : string) (value : Values)
| DoSetSyncKeys (keys : list string)
| DoDispose.

Section Runtime.

(** What the runtime makes of a value written to [__proto__] through the
    accessor: the chain the object inherits from then on, or [None] for a
    value that is neither an object nor [null], which the accessor
    ignores. *)
Variable asPrototype : JsValue → option Prototype.

(** [values[key] = value]. *)
Definition assign (values : Values) (key : string) (value : Any) : Values :=
  match own values !! key with
  | Some _ =>
      {| own := <[key := value]> (own values);
         prototype := prototype values |}
  | None =>
      if String.eqb key "__proto__" && protoAccessor (prototype values) then
        match value ≫= asPrototype with
        | Some chain => {| own := own values; prototype := chain |}
        | None => values
        end
      else
        {| own := <[key := value]> (own values);
           prototype := prototype values |}
  end.

Definition update (key : string) (value : Any) (m : ExtensionMemento)
  : Result ExtensionMemento :=
  match _value m with
  | None => TypeError
  | Some values =>
      let values' := assign values key value in
      Ok (callStorage (SetValue (_shared m) (_id m) values')
            (setValues (Some values') m))
  end.

(** An [update] that throws leaves the memento as it was. *)
Definition act (a : Action) (m : ExtensionMemento) : ExtensionMemento :=
  match a with
  | DoUpdate k v =>
      match update k v m with
      | Ok m' => m'
      | TypeError => m
      end
  | DoStorageChanged s k v => onDidChangeStorage s k v m
  | DoSetSyncKeys keys => setSyncKeys keys m
  | DoDispose => dispose m
  end.

End Runtime.

End Memento.

(** A call that starts or continues a search carries a text to search
    for. *)
Definition searchesText (c : FindWidget.WebviewCall) : Prop :=
  match c with
  | FindWidget.Find v _ | FindWidget.StartFind v => v ≠ ""
  | _ => True
  end.

(** What [get] yields on stored values: the default stands in for a
    missing or [undefined] property. *)
Definition read (values : Memento.Values) (key : string)
    (defaultValue : Memento.Any) : Memento.Any :=
  match Memento.property values key with
  | Some v => Some v
  | None => defaultValue
  end.

(** * Properties *)

Ltac not_open_group x H :=
  destruct x as [? ? ? ? ? ? ?|? ? ? ? ? ?|? ?|? ? ? ? ?|? ? ? ? ? []];
  try discriminate H.

(** ** Lists and the last slot *)

Lemma World_eq w1 w2 :
  topReplElementCounter w1 = topReplElementCounter w2 →
  COUNTER w1 = COUNTER w2 →
  replElements w1 = replElements w2 →
  changeFired w1 = changeFired w2 →
  w1 = w2.
Proof. destruct w1, w2. simpl. by intros -> -> -> ->. Qed.

Lemma setLast_snoc l x y : setLast y (l ++ [x]) = l ++ [y].
Proof.
  unfold setLast. rewrite length_app. simpl.
  replace (length l + 1 - 1) with (length l + 0) by lia.
  by rewrite insert_app_r.
Qed.

Lemma snoc_cases {A} (l : list A) : l = [] ∨ ∃ l0 x, l = l0 ++ [x].
Proof. destruct l using rev_ind; eauto. Qed.

(** ** ReplGroup.addChild and ReplGroup.end, one level at a time *)

Lemma addChild_nil c n a s i e :
  ReplGroup_addChild c (ReplGroup n a s [] i e) = ReplGroup n a s [c] i e.
Proof. reflexivity. Qed.

Lemma addChild_snoc c n a s l0 x i e :
  ReplGroup_addChild c (ReplGroup n a s (l0 ++ [x]) i e)
  = ReplGroup n a s
      (l0 ++ if isOpenGroup x then [ReplGroup_addChild c x] else [x; c]) i e.
Proof.
  simpl. f_equal.
  induction l0 as [|y l0 IH]; simpl.
  - by destruct (isOpenGroup x).
  - destruct (l0 ++ [x]) eqn:E; [by destruct l0|].
    by rewrite <- IH.
Qed.

Lemma end_nil n a s i e :
  ReplGroup_end (ReplGroup n a s [] i e) = ReplGroup n a s [] i true.
Proof. reflexivity. Qed.

Lemma end_snoc n a s l0 x i e :
  ReplGroup_end (ReplGroup n a s (l0 ++ [x]) i e)
  = if isOpenGroup x
    then ReplGroup n a s (l0 ++ [ReplGroup_end x]) i e
    else ReplGroup n a s (l0 ++ [x]) i true.
Proof.
  simpl.
  assert (H : (fix walk (l : list IReplElement) : option (list IReplElement) :=
            match l with
            | [] => None
            | x0 :: tl =>
                match tl with
                | [] => if isOpenGroup x0 then Some [ReplGroup_end x0] else None
                | _ :: _ => cons x0 <$> walk tl
                end
            end) (l0 ++ [x])
          = if isOpenGroup x then Some (l0 ++ [ReplGroup_end x]) else None).
  { induction l0 as [|y l0 IH]; simpl.
    - done.
    - destruct (l0 ++ [x]) eqn:E; [by destruct l0|].
      rewrite IH. by destruct (isOpenGroup x). }
  rewrite H. by destruct (isOpenGroup x).
Qed.

(** ** Retention bound *)

Lemma MAX_REPL_LENGTH_ge_2 : 2 ≤ MAX_REPL_LENGTH.
Proof. apply Nat.leb_le. vm_compute. reflexivity. Qed.

Lemma MAX_REPL_LENGTH_succ : S MAX_REPL_LENGTH = 10001.
Proof. vm_compute. reflexivity. Qed.

Global Opaque MAX_REPL_LENGTH.

Lemma trim_drop l : trim l = drop (length l - MAX_REPL_LENGTH) l.
Proof.
  unfold trim. case_bool_decide; [done|].
  by replace (length l - MAX_REPL_LENGTH) with 0 by lia.
Qed.

Lemma trim_short l : length l ≤ MAX_REPL_LENGTH → trim l = l.
Proof. intros H. unfold trim. rewrite bool_decide_false; [done|lia]. Qed.

Lemma trim_length l : length (trim l) = min (length l) MAX_REPL_LENGTH.
Proof. rewrite trim_drop, length_drop. lia. Qed.

Lemma trim_snoc l e :
  trim (l ++ [e]) = drop (S (length l) - MAX_REPL_LENGTH) l ++ [e].
Proof.
  pose proof MAX_REPL_LENGTH_ge_2.
  rewrite trim_drop, length_app. simpl.
  replace (length l + 1) with (S (length l)) by lia.
  rewrite drop_app_le by lia. done.
Qed.

(** ** addReplElement, endGroup: which branch runs *)

Lemma lastIsOpenGroup_snoc l x : lastIsOpenGroup (l ++ [x]) = isOpenGroup x.
Proof. unfold lastIsOpenGroup. by rewrite last_snoc. Qed.

Lemma addReplElement_top e w :
  lastIsOpenGroup (replElements w) = false →
  addReplElement e w = fire (setElements (trim (replElements w ++ [e])) w).
Proof.
  unfold addReplElement, lastIsOpenGroup.
  destruct (last (replElements w)); [|done]. by intros ->.
Qed.

Lemma addReplElement_nested e w l0 g :
  replElements w = l0 ++ [g] → isOpenGroup g = true →
  addReplElement e w
  = fire (setElements (l0 ++ [ReplGroup_addChild e g]) w).
Proof.
  intros E Hg. unfold addReplElement.
  rewrite E, last_snoc, Hg, setLast_snoc. done.
Qed.

Lemma endGroup_group w l0 g :
  replElements w = l0 ++ [g] → isGroup g = true →
  endGroup w = setElements (l0 ++ [ReplGroup_end g]) w.
Proof.
  intros E Hg. unfold endGroup.
  rewrite E, last_snoc, Hg, setLast_snoc. done.
Qed.

Lemma endGroup_other w :
  (∀ g, last (replElements w) = Some g → isGroup g = false) →
  endGroup w = w.
Proof.
  intros H. unfold endGroup. destruct (last (replElements w)) as [g|]; [|done].
  by rewrite (H g).
Qed.

Lemma addReplElement_fires e w :
  changeFired (addReplElement e w) = S (changeFired w).
Proof. reflexivity. Qed.

Lemma insertAll_top xs : ∀ w,
  Forall (λ e, isOpenGroup e = false) xs →
  lastIsOpenGroup (replElements w) = false →
  length (replElements w) ≤ MAX_REPL_LENGTH →
  replElements (insertAll xs w)
  = drop (length (replElements w ++ xs) - MAX_REPL_LENGTH)
      (replElements w ++ xs)
  ∧ changeFired (insertAll xs w) = changeFired w + length xs.
Proof.
  pose proof MAX_REPL_LENGTH_ge_2 as HM.
  induction xs as [|x xs IH]; intros w Hxs Hlast Hlen.
  - simpl. rewrite app_nil_r. split; [|lia].
    by replace (length (replElements w) - MAX_REPL_LENGTH) with 0 by lia.
  - apply Forall_cons in Hxs as [Hx Hxs].
    change (insertAll (x :: xs) w) with (insertAll xs (addReplElement x w)).
    rewrite (addReplElement_top _ _ Hlast).
    set (l := replElements w) in *.
    destruct (IH (fire (setElements (trim (l ++ [x])) w))) as [IH1 IH2].
    + done.
    + simpl. rewrite trim_snoc. by rewrite lastIsOpenGroup_snoc.
    + simpl. rewrite trim_length. lia.
    + rewrite IH1, IH2. simpl. split; [|lia].
      rewrite trim_snoc, <- !app_assoc. simpl.
      rewrite <- drop_app_le by lia.
      rewrite drop_drop. f_equal.
      rewrite length_drop, !length_app. simpl. lia.
Qed.

(** ** Nested groups: the worked example *)

(** C1.  On a fresh model, [startGroup("A")], [addReplElement(x)],
    [startGroup("B")], [addReplElement(y)], [endGroup()],
    [addReplElement(z)], [endGroup()] (with [x], [y], [z] elements that are
    not themselves open groups) leave exactly one top-level group "A" whose
    children are [x], group "B" holding [y], and [z].  The first
    [endGroup] closes "B" only: "A" is still open when [z] arrives, and the
    last [endGroup] closes "A". *)
Theorem nested_groups_route_to_innermost (x y z : IReplElement)
    (top groups : nat) (autoA autoB : bool)
    (srcA srcB : option IReplElementSource) :
  isOpenGroup x = false → isOpenGroup y = false → isOpenGroup z = false →
  let groupB ended := ReplGroup "B" autoB srcB [y] (groupIdOf (S groups)) ended in
  let w5 :=
    endGroup (addReplElement y (startGroup "B" autoB srcB
      (addReplElement x (startGroup "A" autoA srcA (newModel top groups))))) in
  let w6 := addReplElement z w5 in
  let w7 := endGroup w6 in
  replElements w5
    = [ReplGroup "A" autoA srcA [x; groupB true] (groupIdOf groups) false]
  ∧ replElements w6
    = [ReplGroup "A" autoA srcA [x; groupB true; z] (groupIdOf groups) false]
  ∧ replElements w7
    = [ReplGroup "A" autoA srcA [x; groupB true; z] (groupIdOf groups) true].
Proof.
  intros Hx Hy Hz.
  not_open_group x Hx; not_open_group y Hy; not_open_group z Hz;
    repeat split; reflexivity.
Qed.

Lemma nested_groups_route_to_innermost_witness :
  let x := ReplEvaluationInput "u1" "x" in
  let y := RawObjectReplElement "r" "y" JsNull None None None in
  let z := ReplGroup "done" false None [] "replGroup:7" true in
  replElements
    (endGroup (addReplElement z (endGroup (addReplElement y
      (startGroup "B" false None (addReplElement x
        (startGroup "A" true None (newModel 0 0))))))))
  = [ReplGroup "A" true None
       [x; ReplGroup "B" false None [y] (groupIdOf 1) true; z]
       (groupIdOf 0) true].
Proof.
  intros x y z.
  apply (nested_groups_route_to_innermost x y z 0 0 true false None None);
    reflexivity.
Defined.

(** ** Eviction *)

(** C2.  An insert that lands at top level (the last top-level element is
    not an open group) appends the element and then drops from the front
    whatever exceeds 10,000, so at most 10,000 remain.  Every insert fires
    the model's change event once, whatever it evicts.  In particular
    10,001 top-level elements inserted into a fresh model leave the last
    10,000 of them, in order, after 10,001 change events. *)
Theorem insert_keeps_most_recent :
  (∀ e w, lastIsOpenGroup (replElements w) = false →
     replElements (addReplElement e w)
     = drop (S (length (replElements w)) - MAX_REPL_LENGTH) (replElements w)
       ++ [e]
     ∧ length (replElements (addReplElement e w)) ≤ MAX_REPL_LENGTH)
  ∧ (∀ e w, changeFired (addReplElement e w) = S (changeFired w))
  ∧ (∀ xs top groups,
       length xs = 10001 →
       forallb (λ e, negb (isOpenGroup e)) xs = true →
       replElements (insertAll xs (newModel top groups)) = drop 1 xs
       ∧ length (replElements (insertAll xs (newModel top groups)))
         = MAX_REPL_LENGTH
       ∧ changeFired (insertAll xs (newModel top groups)) = 10001).
Proof.
  pose proof MAX_REPL_LENGTH_ge_2 as HM.
  split; [|split; [apply addReplElement_fires|]].
  - intros e w Hlast. rewrite (addReplElement_top _ _ Hlast). simpl.
    split; [apply trim_snoc|]. rewrite trim_length. lia.
  - intros xs top groups Hlen Hall.
    rewrite <- MAX_REPL_LENGTH_succ in Hlen.
    assert (Hxs : Forall (λ e, isOpenGroup e = false) xs).
    { apply Forall_forall. intros e He.
      apply list_elem_of_In in He.
      rewrite forallb_forall in Hall. specialize (Hall e He).
      by destruct (isOpenGroup e). }
    destruct (insertAll_top xs (newModel top groups) Hxs) as [H1 H2];
      [done|simpl; lia|].
    simpl in H1, H2. rewrite H1, H2, Hlen.
    replace (S MAX_REPL_LENGTH - MAX_REPL_LENGTH) with 1 by lia.
    split; [done|]. split; [|by rewrite MAX_REPL_LENGTH_succ].
    rewrite length_drop. lia.
Qed.

Lemma insert_keeps_most_recent_witness :
  (replElements (addReplElement (ReplEvaluationInput "u" "1+1") (newModel 0 0))
   = [ReplEvaluationInput "u" "1+1"])
  ∧ replElements (insertAll sampleInputs (newModel 0 0)) = drop 1 sampleInputs.
Proof.
  split.
  - apply (proj1 insert_keeps_most_recent
             (ReplEvaluationInput "u" "1+1") (newModel 0 0)).
    reflexivity.
  - apply (proj2 (proj2 insert_keeps_most_recent) sampleInputs 0 0);
      vm_compute; reflexivity.
Defined.

(** ** Clearing *)

(** C6.  [removeReplExpressions] on an empty model changes nothing and
    fires nothing; on a non-empty model it empties the top-level sequence,
    groups and their children included, and fires the change event once. *)
Theorem clear_fires_only_when_nonempty (w : World) :
  (replElements w = [] → removeReplExpressions w = w)
  ∧ (replElements w ≠ [] →
       replElements (removeReplExpressions w) = []
       ∧ flattenAll (replElements (removeReplExpressions w)) = []
       ∧ changeFired (removeReplExpressions w) = S (changeFired w)).
Proof.
  unfold removeReplExpressions. split.
  - by intros ->.
  - intros Hne. destruct (replElements w) eqn:E; [done|]. done.
Qed.

Lemma clear_fires_only_when_nonempty_witness :
  removeReplExpressions (newModel 3 4) = newModel 3 4
  ∧ changeFired
      (removeReplExpressions (startGroup "A" true None (newModel 3 4))) = 2.
Proof.
  split.
  - apply (proj1 (clear_fires_only_when_nonempty (newModel 3 4))).
    reflexivity.
  - apply (proj2 (clear_fires_only_when_nonempty
                    (startGroup "A" true None (newModel 3 4)))).
    discriminate.
Defined.

(** ** Children of a raw object *)

(** C9.  For a [RawObjectReplElement]: [hasChildren] holds exactly when the
    wrapped value is a non-empty array or an object with at least one own
    property; [getChildren] returns at most 1000 elements, exactly 1000 for
    an array of 1500; the child at position [index] has the parent's id
    followed by ":" and [index], wraps the array element (or the value of
    the own property) enumerated at that position and is named after the
    index (or the property); for a value that is neither an array nor an
    object [getChildren] returns the empty sequence. *)
Theorem raw_object_children (id name : string) (valueObj : JsValue)
    (sourceData : option IReplElementSource) (annotation : option string)
    (sev : option severity) :
  let e := RawObjectReplElement id name valueObj sourceData annotation sev in
  (RawObject.hasChildren e = true ↔
     (∃ items, valueObj = JsArray items ∧ items ≠ [])
     ∨ (∃ props, valueObj = JsObject props ∧ props ≠ []))
  ∧ length (RawObject.getChildren e) ≤ 1000
  ∧ (∀ items, valueObj = JsArray items → length items = 1500 →
       length (RawObject.getChildren e) = 1000)
  ∧ (∀ index child, RawObject.getChildren e !! index = Some child →
       getId child = id +:+ ":" +:+ pretty index)
  ∧ (∀ items index v, valueObj = JsArray items → index < 1000 →
       items !! index = Some v →
       RawObject.getChildren e !! index
       = Some (RawObjectReplElement (id +:+ ":" +:+ pretty index)
                 (pretty index) v None None None))
  ∧ (∀ props index key, valueObj = JsObject props → index < 1000 →
       props.*1 !! index = Some key →
       RawObject.getChildren e !! index
       = Some (RawObjectReplElement (id +:+ ":" +:+ pretty index)
                 key (RawObject.getProperty props key) None None None))
  ∧ (RawObject.isArray valueObj = false →
     RawObject.isObject valueObj = false →
     RawObject.getChildren e = []).
Proof.
  intros e. subst e.
  change 1000 with RawObject.MAX_CHILDREN.
  repeat split.
  - destruct valueObj as [|items|props| |]; simpl; try done.
    + rewrite orb_false_r. intros H%bool_decide_eq_true.
      left. exists items. split; [done|]. intros ->. simpl in H. lia.
    + intros H%bool_decide_eq_true. right. exists props. split; [done|].
      intros ->. simpl in H. lia.
  - intros [(items & -> & Hne)|(props & -> & Hne)]; simpl;
      rewrite ?orb_false_r; apply bool_decide_eq_true.
    + destruct items; [done|simpl; lia].
    + destruct props; [done|simpl; lia].
  - destruct valueObj; simpl; rewrite ?length_imap, ?length_take; lia.
  - intros items -> Hlen. simpl.
    rewrite length_imap, length_take, Hlen. reflexivity.
  - intros index child.
    destruct valueObj; simpl; try done;
      rewrite list_lookup_imap;
      (destruct (_ !! index); simpl; [|done]);
      by intros [= <-].
  - intros items index v -> Hlt Hv. simpl.
    by rewrite list_lookup_imap, lookup_take_lt, Hv.
  - intros props index key -> Hlt Hk. simpl.
    by rewrite list_lookup_imap, lookup_take_lt, Hk.
  - destruct valueObj; simpl; done.
Qed.

Lemma raw_object_children_witness :
  length (RawObject.getChildren
            (RawObjectReplElement "root" "value"
               (JsArray (replicate 1500 (JsString "item"))) None None None))
  = 1000
  ∧ RawObject.getChildren
      (RawObjectReplElement "root" "value" (JsOther "42") None None None)
    = [].
Proof.
  split.
  - destruct (raw_object_children "root" "value"
                (JsArray (replicate 1500 (JsString "item"))) None None None)
      as (_ & _ & H & _).
    apply (H (replicate 1500 (JsString "item")));
      [reflexivity | vm_compute; reflexivity].
  - destruct (raw_object_children "root" "value" (JsOther "42")
                None None None) as (_ & _ & _ & _ & _ & _ & H).
    apply H; reflexivity.
Defined.

(** ** String searches *)

Local Arguments String.append !s1 s2 : simpl nomatch.

Lemma startsWith_app pat r : startsWith pat (pat +:+ r) = true.
Proof.
  induction pat as [|a pat IH]; simpl; [done|].
  by rewrite bool_decide_true, IH.
Qed.

Lemma startsWith_inv pat : ∀ s,
  startsWith pat s = true → ∃ r, s = pat +:+ r.
Proof.
  induction pat as [|a pat IH]; intros s; simpl.
  - by exists s.
  - destruct s as [|b s]; [done|].
    intros [Hab H]%andb_prop. apply bool_decide_eq_true in Hab as ->.
    destruct (IH s H) as [r ->]. by exists r.
Qed.

Lemma startsWith_empty_inv pat : startsWith pat "" = true → pat = "".
Proof. by destruct pat. Qed.

Lemma substringFrom_app a r : substringFrom (String.length a) (a +:+ r) = r.
Proof. induction a as [|c a IH]; simpl; [by destruct r|done]. Qed.

Lemma indexOf_Some pat : ∀ s i,
  indexOf pat s = Some i →
  ∃ a b, s = a +:+ pat +:+ b ∧ String.length a = i.
Proof.
  induction s as [|c s IH]; intros i; simpl.
  - destruct (startsWith pat "") eqn:E; [|done].
    intros [= <-]. apply startsWith_empty_inv in E as ->. by exists "", "".
  - destruct (startsWith pat (String c s)) eqn:E.
    + intros [= <-]. apply startsWith_inv in E as [r ->]. by exists "", r.
    + destruct (indexOf pat s) as [j|] eqn:Ej; [|done].
      simpl. intros [= <-].
      destruct (IH j eq_refl) as (a & b & -> & <-).
      by exists (String c a), b.
Qed.

Lemma indexOf_None pat s :
  indexOf pat s = None ↔ ¬ ∃ a b, s = a +:+ pat +:+ b.
Proof.
  split.
  - induction s as [|c s IH]; simpl.
    + destruct (startsWith pat "") eqn:E; [done|].
      intros _ (a & b & H). destruct a; [|done]. simpl in H. subst.
      destruct pat; [done|]. discriminate.
    + destruct (startsWith pat (String c s)) eqn:E; [done|].
      destruct (indexOf pat s) eqn:Es; [done|]. intros _ (a & b & H).
      destruct a as [|c' a]; simpl in H.
      * rewrite H, startsWith_app in E. done.
      * injection H as -> ->. apply IH; [done|]. by exists a, b.
  - intros Hno. destruct (indexOf pat s) as [i|] eqn:E; [|done].
    destruct Hno. apply indexOf_Some in E as (a & b & -> & _). by exists a, b.
Qed.

Lemma lastIndexOf_None pat s :
  lastIndexOf pat s = None ↔ indexOf pat s = None.
Proof.
  induction s as [|c s IH]; simpl.
  - by destruct (startsWith pat "").
  - destruct (lastIndexOf pat s), (indexOf pat s),
      (startsWith pat (String c s)); simpl; try done;
      destruct IH as [IH1 IH2]; try (by discriminate IH1);
      by discriminate IH2.
Qed.

Lemma lastIndexOf_Some pat : ∀ s i,
  lastIndexOf pat s = Some i →
  ∃ a, s = a +:+ pat +:+ substringFrom (i + String.length pat) s
       ∧ String.length a = i.
Proof.
  induction s as [|c s IH]; intros i; simpl.
  - destruct (startsWith pat "") eqn:E; [|done]. intros [= <-].
    apply startsWith_empty_inv in E as ->. by exists "".
  - destruct (lastIndexOf pat s) as [j|] eqn:Ej.
    + intros [= <-]. destruct (IH j eq_refl) as (a & Ha & <-).
      exists (String c a). simpl. by rewrite <- Ha.
    + destruct (startsWith pat (String c s)) eqn:E; [|done].
      intros [= <-]. apply startsWith_inv in E as [r Hr].
      exists "". simpl. split; [|done].
      change (String.length pat) with (0 + String.length pat).
      simpl. rewrite Hr at 2. by rewrite substringFrom_app.
Qed.

Lemma lastIndexOf_None_suffix pat : ∀ n s,
  lastIndexOf pat s = None → lastIndexOf pat (substringFrom n s) = None.
Proof.
  induction n as [|n IH]; intros s.
  - intros H. by destruct s.
  - destruct s as [|c s]; [done|]. simpl.
    destruct (lastIndexOf pat s) eqn:E; [done|]. intros _. by apply IH.
Qed.

Lemma lastIndexOf_rest pat : ∀ s i,
  0 < String.length pat →
  lastIndexOf pat s = Some i →
  indexOf pat (substringFrom (i + String.length pat) s) = None.
Proof.
  intros s i Hpat H. apply lastIndexOf_None. revert i H.
  induction s as [|c s IH]; intros i; simpl.
  - destruct (startsWith pat "") eqn:E; [|done].
    apply startsWith_empty_inv in E as ->. simpl in Hpat. lia.
  - destruct (lastIndexOf pat s) as [j|] eqn:Ej.
    + intros [= <-]. simpl. by apply IH.
    + destruct (startsWith pat (String c s)); [|done]. intros [= <-].
      destruct (String.length pat) as [|n]; [lia|]. simpl.
      by apply lastIndexOf_None_suffix.
Qed.

(** ** appendToRepl: the clear-screen path *)

Lemma clearAnsiSequence_length : String.length clearAnsiSequence = 4.
Proof. reflexivity. Qed.

Lemma consoleCleared_plain : indexOf clearAnsiSequence consoleCleared = None.
Proof. vm_compute. reflexivity. Qed.

Lemma appendToRepl_fuel_S n session data sev source collapse w :
  appendToRepl_fuel (S n) session data sev source collapse w
  = match data with
    | Text str =>
        match indexOf clearAnsiSequence str with
        | Some _ =>
            match appendToRepl_fuel n session (Text consoleCleared)
                    Ignore None collapse (removeReplExpressions w) with
            | Some w2 =>
                Some (appendData session
                        (Text (substringFrom
                                 match lastIndexOf clearAnsiSequence str with
                                 | Some i => i + String.length clearAnsiSequence
                                 | None => String.length clearAnsiSequence - 1
                                 end str))
                        sev source collapse w2)
            | None => None
            end
        | None => Some (appendData session data sev source collapse w)
        end
    | Expression _ => Some (appendData session data sev source collapse w)
    end.
Proof. reflexivity. Qed.

(** The recursion of [appendToRepl] is two calls deep at most: whatever
    the fuel beyond that, the call returns, and returns the same. *)
Lemma appendToRepl_fuel_enough n session data sev source collapse w :
  appendToRepl_fuel (S (S n)) session data sev source collapse w
  = Some (appendToRepl session data sev source collapse w).
Proof.
  unfold appendToRepl.
  rewrite (appendToRepl_fuel_S (S n)), (appendToRepl_fuel_S 1).
  destruct data as [str|e]; [|done].
  destruct (indexOf clearAnsiSequence str); [|done].
  rewrite (appendToRepl_fuel_S n), (appendToRepl_fuel_S 0).
  rewrite consoleCleared_plain. done.
Qed.

Lemma appendToRepl_expression session e sev source collapse w :
  appendToRepl session (Expression e) sev source collapse w
  = addReplElement (assignOutputFields sev source e) w.
Proof. reflexivity. Qed.

Lemma appendToRepl_plain session str sev source collapse w :
  indexOf clearAnsiSequence str = None →
  appendToRepl session (Text str) sev source collapse w
  = appendData session (Text str) sev source collapse w.
Proof.
  intros H. unfold appendToRepl. rewrite appendToRepl_fuel_S, H. done.
Qed.

Lemma removeReplExpressions_elements w :
  replElements (removeReplExpressions w) = [].
Proof.
  unfold removeReplExpressions. case_bool_decide as H; [done|].
  destruct (replElements w); [done|]. simpl in H. lia.
Qed.

Lemma removeReplExpressions_counters w :
  topReplElementCounter (removeReplExpressions w) = topReplElementCounter w
  ∧ COUNTER (removeReplExpressions w) = COUNTER w.
Proof. unfold removeReplExpressions. by case_bool_decide. Qed.

Lemma appendData_empty session str sev source collapse w :
  replElements w = [] →
  appendData session (Text str) sev source collapse w
  = pushText session str sev source w.
Proof. intros H. unfold appendData. by rewrite H. Qed.

Lemma appendToRepl_clear session str sev source collapse w i :
  lastIndexOf clearAnsiSequence str = Some i →
  appendToRepl session (Text str) sev source collapse w
  = appendData session (Text (substringFrom (i + 4) str)) sev source collapse
      (pushText session consoleCleared Ignore None (removeReplExpressions w)).
Proof.
  intros H. unfold appendToRepl.
  rewrite appendToRepl_fuel_S.
  destruct (indexOf clearAnsiSequence str) eqn:E.
  - rewrite appendToRepl_fuel_S, consoleCleared_plain, H.
    rewrite (appendData_empty _ consoleCleared)
      by apply removeReplExpressions_elements.
    done.
  - apply lastIndexOf_None in E. congruence.
Qed.

Lemma pushText_top session str sev source w :
  lastIsOpenGroup (replElements w) = false →
  length (replElements w) < MAX_REPL_LENGTH →
  replElements (pushText session str sev source w)
  = replElements w
    ++ [SimpleReplElement session (uniqueIdOf (topReplElementCounter w))
          str sev source 1 0]
  ∧ changeFired (pushText session str sev source w) = S (changeFired w)
  ∧ topReplElementCounter (pushText session str sev source w)
    = S (topReplElementCounter w)
  ∧ COUNTER (pushText session str sev source w) = COUNTER w.
Proof.
  intros Hlast Hlen. unfold pushText, getUniqueId.
  rewrite addReplElement_top by done. simpl.
  rewrite trim_short; [done|]. rewrite length_app. simpl. lia.
Qed.

Local Arguments pushText : simpl never.

Lemma cleared_console session w :
  let w2 := pushText session consoleCleared Ignore None
              (removeReplExpressions w) in
  replElements w2 = [clearedNotice session w]
  ∧ topReplElementCounter w2 = S (topReplElementCounter w)
  ∧ COUNTER w2 = COUNTER w.
Proof.
  pose proof MAX_REPL_LENGTH_ge_2 as HM.
  destruct (removeReplExpressions_counters w) as [Ht Hg].
  destruct (pushText_top session consoleCleared Ignore None
              (removeReplExpressions w)) as (H1 & _ & H3 & H4).
  - by rewrite removeReplExpressions_elements.
  - rewrite removeReplExpressions_elements. simpl. lia.
  - cbv zeta.
    rewrite H1, H3, H4, removeReplExpressions_elements, Ht, Hg. done.
Qed.

(** C3, as the code has it.  When the text of an [appendToRepl] call
    contains the clear-screen sequence, the model is emptied, a
    "Console was cleared" element of severity [Ignore] is appended, and the
    rest of [appendToRepl] runs on what follows the last occurrence of the
    sequence.  For a severity other than [Ignore] the model then holds
    exactly the notice followed by one text element with that remainder.
    For severity [Ignore] the remainder is merged into the notice element:
    its count goes to 2 when the remainder repeats the notice and
    "collapse identical lines" is on, otherwise it is replaced by one
    element whose text is the notice followed by the remainder. *)
Theorem clear_sequence_restarts_console (session : IDebugSession)
    (data : string) (sev : severity) (source : option IReplElementSource)
    (collapse : bool) (w : World) :
  indexOf clearAnsiSequence data ≠ None →
  ∃ before rest,
    data = before +:+ clearAnsiSequence +:+ rest
    ∧ indexOf clearAnsiSequence rest = None
    ∧ let notice := clearedNotice session w in
      let cleared :=
        pushText session consoleCleared Ignore None
          (removeReplExpressions w) in
      let w' := appendToRepl session (Text data) sev source collapse w in
      let next := uniqueIdOf (S (topReplElementCounter w)) in
      replElements cleared = [notice]
      ∧ w' = appendData session (Text rest) sev source collapse cleared
      ∧ (sev ≠ Ignore →
           replElements w'
           = [notice; SimpleReplElement session next rest sev source 1 0])
      ∧ (sev = Ignore →
           replElements w'
           = if String.eqb consoleCleared rest && areSourcesEqual None source
                && collapse
             then [SimpleReplElement session
                     (uniqueIdOf (topReplElementCounter w))
                     consoleCleared Ignore None 2 1]
             else [SimpleReplElement session next (consoleCleared +:+ rest)
                     Ignore source 1 0]).
Proof.
  intros Hc. pose proof MAX_REPL_LENGTH_ge_2 as HM.
  destruct (lastIndexOf clearAnsiSequence data) as [i|] eqn:Hi;
    [|by apply lastIndexOf_None in Hi].
  destruct (lastIndexOf_Some _ _ _ Hi) as (a & Ha & _).
  rewrite clearAnsiSequence_length in Ha.
  exists a, (substringFrom (i + 4) data). split; [exact Ha|].
  split.
  { rewrite <- clearAnsiSequence_length.
    apply lastIndexOf_rest; [|done]. rewrite clearAnsiSequence_length. lia. }
  set (rest := substringFrom (i + 4) data).
  destruct (cleared_console session w) as (He & Ht & Hg).
  intros notice cleared w' next. subst w'.
  rewrite (appendToRepl_clear _ _ _ _ _ _ _ Hi). fold rest cleared.
  fold cleared in He, Ht, Hg. fold notice in He.
  split; [done|]. split; [done|]. clearbody cleared.
  unfold appendData. rewrite He. simpl. split.
  - intros Hsev. rewrite bool_decide_false by done.
    destruct (pushText_top session rest sev source cleared) as (H1 & _).
    + by rewrite He.
    + rewrite He. simpl. lia.
    + rewrite H1, He, Ht. done.
  - intros ->. rewrite bool_decide_true by done.
    destruct (_ && _ && collapse).
    + done.
    + simpl. rewrite He, Ht. done.
Qed.

Lemma clear_sequence_restarts_console_witness :
  ∃ before rest,
    "abc" +:+ clearAnsiSequence +:+ "def" +:+ clearAnsiSequence +:+ "tail"
    = before +:+ clearAnsiSequence +:+ rest
    ∧ indexOf clearAnsiSequence rest = None
    ∧ replElements
        (appendToRepl 0
           (Text ("abc" +:+ clearAnsiSequence +:+ "def" +:+ clearAnsiSequence
                  +:+ "tail"))
           Warning None true (startGroup "A" true None (newModel 0 0)))
      = [clearedNotice 0 (newModel 0 0);
         SimpleReplElement 0 (uniqueIdOf 1) rest Warning None 1 0].
Proof.
  destruct (clear_sequence_restarts_console 0
              ("abc" +:+ clearAnsiSequence +:+ "def" +:+ clearAnsiSequence
               +:+ "tail")
              Warning None true (startGroup "A" true None (newModel 0 0)))
    as (before & rest & H1 & H2 & _ & _ & H3 & _).
  - vm_compute. discriminate.
  - exists before, rest. split; [exact H1|]. split; [exact H2|].
    apply H3. discriminate.
Defined.

(** C3 as stated fails for severity [Ignore]: the remainder is glued onto
    the notice, so no "Console was cleared" element is left in the model. *)
Lemma clear_sequence_notice_merged :
  let w' :=
    appendToRepl 0 (Text (clearAnsiSequence +:+ "x")) Ignore None false
      (newModel 0 0) in
  replElements w'
  = [SimpleReplElement 0 (uniqueIdOf 1) "Console was clearedx"
       Ignore None 1 0]
  ∧ (clearedNotice 0 (newModel 0 0) ∉ replElements w')
  ∧ ¬ (∃ remainder,
         replElements w' = clearedNotice 0 (newModel 0 0) :: remainder).
Proof.
  assert (E : replElements
            (appendToRepl 0 (Text (clearAnsiSequence +:+ "x")) Ignore None
               false (newModel 0 0))
          = [SimpleReplElement 0 (uniqueIdOf 1) "Console was clearedx"
               Ignore None 1 0]) by (vm_compute; reflexivity).
  cbv zeta. rewrite E. split; [done|]. split.
  - intros H%list_elem_of_singleton. discriminate H.
  - intros (r & H). discriminate H.
Qed.

(** ** appendToRepl: coalescing *)

Lemma areSourcesEqual_spec first second :
  areSourcesEqual first second = true ↔
  (first = None ∧ second = None)
  ∨ (∃ a b, first = Some a ∧ second = Some b
            ∧ column a = column b ∧ lineNumber a = lineNumber b
            ∧ source_uri a = source_uri b).
Proof.
  destruct first as [a|], second as [b|]; simpl.
  - rewrite !andb_true_iff, !bool_decide_eq_true. split.
    + intros [[? ?] ?]. right. by exists a, b.
    + intros [[? _]|(a' & b' & [= <-] & [= <-] & ? & ? & ?)]; done.
  - split; [done|]. by intros [[? _]|(? & ? & _ & ? & _)].
  - split; [done|]. by intros [[_ ?]|(? & ? & ? & _)].
  - split; [by left|done].
Qed.

Lemma areSourcesEqual_refl source : areSourcesEqual source source = true.
Proof.
  apply areSourcesEqual_spec. destruct source as [a|]; [right|by left].
  by exists a, a.
Qed.

Lemma appendData_identical session data sev source w l0 ps pid psrc pc pf :
  replElements w = l0 ++ [SimpleReplElement ps pid data sev psrc pc pf] →
  areSourcesEqual psrc source = true →
  appendData session (Text data) sev source true w
  = setElements
      (l0 ++ [SimpleReplElement ps pid data sev psrc (S pc) (S pf)]) w.
Proof.
  intros E Hsrc. unfold appendData.
  rewrite E, last_snoc, bool_decide_true by done.
  by rewrite String.eqb_refl, Hsrc, setLast_snoc.
Qed.

(** When the previous element does not take the text, a new one is pushed. *)
Lemma appendData_fresh session data sev source collapse w :
  (∀ ps pid pv psev psrc pc pf,
     last (replElements w)
     = Some (SimpleReplElement ps pid pv psev psrc pc pf) →
     psev = sev →
     (pv ≠ data ∨ areSourcesEqual psrc source = false ∨ collapse = false)
     ∧ (endsWith pv LF = true ∨ pc ≠ 1)) →
  appendData session (Text data) sev source collapse w
  = pushText session data sev source w.
Proof.
  intros H. unfold appendData.
  destruct (last (replElements w)) as [[ps pid pv psev psrc pc pf| | | |]|];
    try done.
  case_bool_decide as Hsev; [|done].
  destruct (H _ _ _ _ _ _ _ eq_refl Hsev) as [H1 H2].
  assert (String.eqb pv data && areSourcesEqual psrc source && collapse
          = false) as ->.
  { destruct H1 as [Hne|[->| ->]].
    - apply String.eqb_neq in Hne. by rewrite Hne.
    - by rewrite andb_false_r.
    - by rewrite andb_false_r. }
  assert (negb (endsWith pv LF) && negb (endsWith pv CRLF)
          && bool_decide (pc = 1) = false) as ->; [|done].
  destruct H2 as [->|Hc]; [done|].
  by rewrite (bool_decide_false _ Hc), andb_false_r.
Qed.

Lemma appendRepeatedly_S n session data sev source w :
  appendRepeatedly (S n) session data sev source w
  = appendToRepl session (Text data) sev source true
      (appendRepeatedly n session data sev source w).
Proof. reflexivity. Qed.

Lemma appendRepeatedly_closed_form n session data sev source w :
  indexOf clearAnsiSequence data = None →
  lastIsOpenGroup (replElements w) = false →
  (∀ ps pid pv psev psrc pc pf,
     last (replElements w)
     = Some (SimpleReplElement ps pid pv psev psrc pc pf) →
     psev = sev →
     (pv ≠ data ∨ areSourcesEqual psrc source = false)
     ∧ (endsWith pv LF = true ∨ pc ≠ 1)) →
  length (replElements w) < MAX_REPL_LENGTH →
  appendRepeatedly (S n) session data sev source w
  = {| topReplElementCounter := S (topReplElementCounter w);
       COUNTER := COUNTER w;
       replElements :=
         replElements w
         ++ [SimpleReplElement session (uniqueIdOf (topReplElementCounter w))
               data sev source (S n) n];
       changeFired := S (changeFired w) |}.
Proof.
  intros Hplain Hlast Hprev Hlen.
  induction n as [|n IH].
  - rewrite appendRepeatedly_S. simpl.
    rewrite appendToRepl_plain by done.
    rewrite appendData_fresh.
    + destruct (pushText_top session data sev source w Hlast Hlen)
        as (H1 & H2 & H3 & H4).
      destruct (pushText session data sev source w). simpl in *. congruence.
    + intros ps pid pv psev psrc pc pf E Hs.
      destruct (Hprev _ _ _ _ _ _ _ E Hs) as [[?|?] ?]; auto.
  - rewrite appendRepeatedly_S, IH.
    rewrite appendToRepl_plain by done.
    erewrite appendData_identical;
      [|reflexivity|apply areSourcesEqual_refl].
    reflexivity.
Qed.

(** C4, as the code has it.  Take [n ≥ 1] [appendToRepl] calls with the
    same text, severity and source, "collapse identical lines" on, the text
    free of the clear-screen sequence, made on a model holding fewer than
    10,000 top-level elements whose last one is neither an open group nor a
    text element of that severity which would take the text (same text and
    equal source, or no trailing newline and count 1).  They add exactly
    one top-level element, a text element that ends with count [n]; the
    change event fires once, for the first call.  Each call that finds its
    text, severity and source in the last element increments that
    element's count and fires its count event, adds nothing and leaves the
    model's change event alone.  Sources are equal exactly when both are
    absent, or both present with the same column, line and URI string. *)
Theorem identical_lines_collapse :
  (∀ n session data sev source w,
     1 ≤ n →
     indexOf clearAnsiSequence data = None →
     lastIsOpenGroup (replElements w) = false →
     (∀ ps pid pv psev psrc pc pf,
        last (replElements w)
        = Some (SimpleReplElement ps pid pv psev psrc pc pf) →
        psev = sev →
        (pv ≠ data ∨ areSourcesEqual psrc source = false)
        ∧ (endsWith pv LF = true ∨ pc ≠ 1)) →
     length (replElements w) < MAX_REPL_LENGTH →
     let w' := appendRepeatedly n session data sev source w in
     replElements w'
     = replElements w
       ++ [SimpleReplElement session (uniqueIdOf (topReplElementCounter w))
             data sev source n (n - 1)]
     ∧ length (replElements w') = S (length (replElements w))
     ∧ changeFired w' = S (changeFired w))
  ∧ (∀ session data sev source w l0 ps pid psrc pc pf,
       indexOf clearAnsiSequence data = None →
       replElements w = l0 ++ [SimpleReplElement ps pid data sev psrc pc pf] →
       areSourcesEqual psrc source = true →
       let w' := appendToRepl session (Text data) sev source true w in
       replElements w'
       = l0 ++ [SimpleReplElement ps pid data sev psrc (S pc) (S pf)]
       ∧ length (replElements w') = length (replElements w)
       ∧ changeFired w' = changeFired w
       ∧ topReplElementCounter w' = topReplElementCounter w)
  ∧ (∀ first second,
       areSourcesEqual first second = true ↔
       (first = None ∧ second = None)
       ∨ (∃ a b, first = Some a ∧ second = Some b
                 ∧ column a = column b ∧ lineNumber a = lineNumber b
                 ∧ source_uri a = source_uri b)).
Proof.
  split; [|split].
  - intros n session data sev source w Hn Hplain Hlast Hprev Hlen.
    destruct n as [|n]; [lia|]. cbv zeta.
    rewrite appendRepeatedly_closed_form by done. simpl.
    rewrite Nat.sub_0_r, length_app. simpl. split; [done|]. split; [lia|done].
  - intros session data sev source w l0 ps pid psrc pc pf Hplain E Hsrc.
    cbv zeta. rewrite appendToRepl_plain by done.
    rewrite (appendData_identical _ _ _ _ _ _ _ _ _ _ _ E Hsrc). simpl.
    rewrite E, !length_app. done.
  - apply areSourcesEqual_spec.
Qed.

Lemma identical_lines_collapse_witness :
  let w :=
    appendToRepl 0 (Text ("b" +:+ LF)) Info None true (newModel 0 0) in
  replElements (appendRepeatedly 3 0 "a" Info None w)
  = replElements w ++ [SimpleReplElement 0 (uniqueIdOf 1) "a" Info None 3 2].
Proof.
  intros w.
  apply (proj1 identical_lines_collapse 3 0 "a" Info None w).
  - lia.
  - vm_compute. reflexivity.
  - reflexivity.
  - intros ps pid pv psev psrc pc pf E _. vm_compute in E.
    injection E as <- <- <- <- <- <- <-.
    split; [left; discriminate|left; reflexivity].
  - vm_compute. lia.
Defined.

(** C4 as stated fails when the repeated text carries the clear-screen
    sequence: each call empties the model again, so two calls on a fresh
    model leave two elements, both with count 1. *)
Lemma identical_clearing_lines_do_not_collapse :
  let w' := appendRepeatedly 2 0 clearAnsiSequence Info None (newModel 0 0) in
  replElements w'
  = [SimpleReplElement 0 (uniqueIdOf 2) consoleCleared Ignore None 1 0;
     SimpleReplElement 0 (uniqueIdOf 3) "" Info None 1 0]
  ∧ length (replElements w') ≠ S (length (replElements (newModel 0 0)))
  ∧ ¬ (∃ session id text sev source fired,
         SimpleReplElement session id text sev source 2 fired
         ∈ replElements w').
Proof.
  assert (E : replElements
                (appendRepeatedly 2 0 clearAnsiSequence Info None
                   (newModel 0 0))
              = [SimpleReplElement 0 (uniqueIdOf 2) consoleCleared
                   Ignore None 1 0;
                 SimpleReplElement 0 (uniqueIdOf 3) "" Info None 1 0])
    by (vm_compute; reflexivity).
  cbv zeta. rewrite E. split; [done|]. split; [simpl; lia|].
  intros (s & i & t & sv & src & f & H).
  apply list_elem_of_In in H. simpl in H.
  destruct H as [H|[H|[]]]; discriminate H.
Qed.

(** The same holds by design inside an open group: the previous element
    [appendToRepl] looks at is the last top-level one, the group, so every
    call adds a child. *)
Example identical_lines_in_open_group :
  replElements
    (appendRepeatedly 2 0 "a" Info None
       (startGroup "A" true None (newModel 0 0)))
  = [ReplGroup "A" true None
       [SimpleReplElement 0 (uniqueIdOf 0) "a" Info None 1 0;
        SimpleReplElement 0 (uniqueIdOf 1) "a" Info None 1 0]
       (groupIdOf 0) false].
Proof. vm_compute. reflexivity. Qed.

(** ** Ids of text elements *)

Lemma uniqueIdOf_inj a b : uniqueIdOf a = uniqueIdOf b → a = b.
Proof.
  unfold uniqueIdOf. intros H. apply String.app_inj in H.
  by apply pretty_nat_inj in H.
Qed.

Lemma groupIdOf_inj a b : groupIdOf a = groupIdOf b → a = b.
Proof.
  unfold groupIdOf. intros H. apply String.app_inj in H.
  by apply pretty_nat_inj in H.
Qed.

Lemma isGroup_addChild c g : isGroup (ReplGroup_addChild c g) = isGroup g.
Proof. by destruct g. Qed.

Lemma isGroup_end g : isGroup (ReplGroup_end g) = isGroup g.
Proof.
  destruct g as [| | | |n a s ch i e]; try done.
  destruct (snoc_cases ch) as [->|(l0 & x & ->)]; [done|].
  rewrite end_snoc. by destruct (isOpenGroup x).
Qed.

Lemma isOpenGroup_isGroup g : isOpenGroup g = true → isGroup g = true.
Proof. by destruct g. Qed.

Lemma isGroup_not_simple g : isGroup g = true → isSimple g = false.
Proof. by destruct g. Qed.

Lemma textIdBelow_mono c c' e : c ≤ c' → textIdBelow c e → textIdBelow c' e.
Proof. intros Hc H Hs. destruct (H Hs) as (k & ? & ?). exists k. split; [lia|done]. Qed.

Lemma textIdBelow_other c e : isSimple e = false → textIdBelow c e.
Proof. intros H Hs. congruence. Qed.

Lemma textIds_setLast c x l :
  Forall (textIdBelow c) l → textIdBelow c x →
  Forall (textIdBelow c) (setLast x l).
Proof. intros. by apply Forall_insert. Qed.

Lemma textIds_addReplElement c e w :
  Forall (textIdBelow c) (replElements w) → textIdBelow c e →
  Forall (textIdBelow c) (replElements (addReplElement e w)).
Proof.
  intros Hl He. unfold addReplElement. simpl.
  assert (Ht : Forall (textIdBelow c) (trim (replElements w ++ [e]))).
  { rewrite trim_drop. apply Forall_drop, Forall_app. split; [done|].
    by apply Forall_singleton. }
  destruct (last (replElements w)) as [g|]; [|done].
  destruct (isOpenGroup g) eqn:Hg; [|done].
  apply textIds_setLast; [done|].
  apply textIdBelow_other, isGroup_not_simple.
  rewrite isGroup_addChild. by apply isOpenGroup_isGroup.
Qed.

Lemma textIds_pushText session data sev source w :
  Forall (textIdBelow (topReplElementCounter w)) (replElements w) →
  Forall (textIdBelow (topReplElementCounter
                         (pushText session data sev source w)))
    (replElements (pushText session data sev source w)).
Proof.
  intros H. unfold pushText, getUniqueId.
  apply textIds_addReplElement; simpl.
  - eapply Forall_impl; [exact H|]. intros e. apply textIdBelow_mono. lia.
  - intros _. exists (topReplElementCounter w). split; [lia|done].
Qed.

Lemma textIds_appendData session data sev source collapse w :
  Forall (textIdBelow (topReplElementCounter w)) (replElements w) →
  Forall (textIdBelow (topReplElementCounter
                         (appendData session data sev source collapse w)))
    (replElements (appendData session data sev source collapse w)).
Proof.
  intros H. destruct data as [str|e]; simpl.
  - destruct (last (replElements w))
      as [[ps pid pv psev psrc pc pf| | | |]|] eqn:E;
      try by apply textIds_pushText.
    case_bool_decide; [|by apply textIds_pushText].
    destruct (_ && _ && collapse).
    { simpl. apply textIds_setLast; [done|].
      apply last_Some_elem_of in E.
      rewrite Forall_forall in H. apply (H _ E). }
    destruct (_ && _ && _); [|by apply textIds_pushText].
    simpl. apply textIds_setLast.
    + eapply Forall_impl; [exact H|]. intros e. apply textIdBelow_mono. lia.
    + intros _. exists (topReplElementCounter w). split; [lia|done].
  - apply textIds_addReplElement; [done|].
    apply textIdBelow_other. by destruct e.
Qed.

Lemma reachable_text_ids w :
  reachable w →
  Forall (textIdBelow (topReplElementCounter w)) (replElements w).
Proof.
  induction 1 as [top groups|op w Hw IH Hop]; [by constructor|].
  destruct op as [session data sev source collapse|name auto src|
                  |session frame name u1 u2 outcome| |e]; unfold step.
  - destruct data as [str|e].
    + destruct (lastIndexOf clearAnsiSequence str) as [i|] eqn:Hi.
      * rewrite (appendToRepl_clear _ _ _ _ _ _ _ Hi).
        apply textIds_appendData. apply textIds_pushText.
        rewrite removeReplExpressions_elements. constructor.
      * apply lastIndexOf_None in Hi. rewrite appendToRepl_plain by done.
        by apply textIds_appendData.
    + rewrite appendToRepl_expression.
      by apply (textIds_appendData session (Expression e) sev source
                  collapse).
  - unfold startGroup. by apply textIds_addReplElement.
  - unfold endGroup. destruct (last (replElements w)) as [g|]; [|done].
    destruct (isGroup g) eqn:Hg; [|done]. simpl.
    apply textIds_setLast; [done|].
    apply textIdBelow_other, isGroup_not_simple. by rewrite isGroup_end.
  - unfold addReplExpression, addReplExpression_resume,
      addReplExpression_begin.
    apply textIds_addReplElement; [|by destruct outcome].
    by apply textIds_addReplElement.
  - rewrite removeReplExpressions_elements. constructor.
  - apply textIds_addReplElement; [done|].
    apply textIdBelow_other. simpl in Hop.
    unfold isExpressionElement in Hop. apply andb_prop in Hop as [_ Hop].
    by destruct e.
Qed.

(** ** appendToRepl: streamed text *)

Lemma substringFrom_add n : ∀ m s,
  substringFrom (n + m) s = substringFrom m (substringFrom n s).
Proof.
  induction n as [|n IH]; intros m s; [done|].
  destruct s as [|c s]; simpl; [by destruct m|apply IH].
Qed.

Lemma endsWith_CRLF_LF s : endsWith s CRLF = true → endsWith s LF = true.
Proof.
  unfold endsWith. rewrite !andb_true_iff, !bool_decide_eq_true, !String.eqb_eq.
  change (String.length CRLF) with 2. change (String.length LF) with 1.
  intros [Hlen H]. split; [lia|].
  replace (String.length s - 1) with (String.length s - 2 + 1) by lia.
  by rewrite substringFrom_add, H.
Qed.

Lemma appendData_glue session data sev source collapse w l0 ps pid pv psrc pf :
  replElements w = l0 ++ [SimpleReplElement ps pid pv sev psrc 1 pf] →
  ¬ (pv = data ∧ areSourcesEqual psrc source = true ∧ collapse = true) →
  endsWith pv LF = false →
  appendData session (Text data) sev source collapse w
  = {| topReplElementCounter := S (topReplElementCounter w);
       COUNTER := COUNTER w;
       replElements :=
         l0 ++ [SimpleReplElement session
                  (uniqueIdOf (topReplElementCounter w)) (pv +:+ data)
                  sev source 1 0];
       changeFired := S (changeFired w) |}.
Proof.
  intros E Hnot Hlf. unfold appendData.
  rewrite E, last_snoc, bool_decide_true by done.
  assert (String.eqb pv data && areSourcesEqual psrc source && collapse
          = false) as ->.
  { destruct (String.eqb_spec pv data) as [->|]; [|done].
    destruct (areSourcesEqual psrc source); [|done].
    destruct collapse; [|done]. by destruct Hnot. }
  assert (endsWith pv CRLF = false) as ->.
  { destruct (endsWith pv CRLF) eqn:Hc; [|done].
    apply endsWith_CRLF_LF in Hc. congruence. }
  rewrite Hlf. simpl. unfold fire, setElements. simpl.
  by rewrite E, setLast_snoc.
Qed.

(** C5, as the code has it.  In a state the API can reach, take an
    [appendToRepl] call whose text is free of the clear-screen sequence and
    whose model ends with a text element of the same severity and count 1
    whose text does not end in a newline and is not identical-and-
    collapsible.  The call overwrites that last slot, leaving the length of
    the top level as it was, with a new text element holding the previous
    text followed by the new one under an id just drawn from
    [getUniqueId], different from the previous element's; the change event
    fires once. *)
Theorem streamed_text_is_glued (session : IDebugSession) (data : string)
    (sev : severity) (source : option IReplElementSource) (collapse : bool)
    (w : World) (l0 : list IReplElement) (ps : IDebugSession)
    (pid pv : string) (psrc : option IReplElementSource) (pf : nat) :
  reachable w →
  indexOf clearAnsiSequence data = None →
  replElements w = l0 ++ [SimpleReplElement ps pid pv sev psrc 1 pf] →
  ¬ (pv = data ∧ areSourcesEqual psrc source = true ∧ collapse = true) →
  endsWith pv LF = false →
  let w' := appendToRepl session (Text data) sev source collapse w in
  let glued :=
    SimpleReplElement session (uniqueIdOf (topReplElementCounter w))
      (pv +:+ data) sev source 1 0 in
  replElements w' = l0 ++ [glued]
  ∧ length (replElements w') = length (replElements w)
  ∧ replElements w' !! (length (replElements w) - 1) = Some glued
  ∧ getId glued ≠ pid
  ∧ changeFired w' = S (changeFired w).
Proof.
  intros Hw Hplain E Hnot Hlf. cbv zeta.
  rewrite appendToRepl_plain by done.
  rewrite (appendData_glue _ _ _ _ _ _ _ _ _ _ _ _ E Hnot Hlf). simpl.
  rewrite E, !length_app. simpl. repeat split.
  - replace (length l0 + 1 - 1) with (length l0 + 0) by lia.
    by rewrite lookup_app_r, Nat.add_0_r, Nat.sub_diag by lia.
  - intros Hid. apply reachable_text_ids in Hw.
    rewrite E, Forall_app, Forall_singleton in Hw.
    destruct Hw as [_ Hprev]. destruct (Hprev eq_refl) as (k & Hk & Hpid).
    simpl in Hpid. rewrite <- Hid in Hpid.
    apply uniqueIdOf_inj in Hpid. lia.
Qed.

Lemma streamed_text_is_glued_witness :
  let w := appendToRepl 0 (Text "Hello, ") Info None true (newModel 0 0) in
  replElements (appendToRepl 0 (Text ("world" +:+ LF)) Info None true w)
  = [SimpleReplElement 0 (uniqueIdOf 1) ("Hello, " +:+ ("world" +:+ LF))
       Info None 1 0].
Proof.
  intros w.
  apply (streamed_text_is_glued 0 ("world" +:+ LF) Info None true w
           [] 0 (uniqueIdOf 0) "Hello, " None 0).
  - apply (reachable_step (OpAppendToRepl 0 (Text "Hello, ") Info None true)
             (newModel 0 0)); [constructor|reflexivity].
  - vm_compute. reflexivity.
  - vm_compute. reflexivity.
  - intros (H & _). discriminate H.
  - vm_compute. reflexivity.
Defined.

(** C5 as stated fails when the new text carries the clear-screen
    sequence: the model is emptied and refilled instead of having its last
    slot overwritten, and the change event fires three times. *)
Lemma streamed_clearing_text_is_not_glued :
  let w := appendToRepl 0 (Text "a") Info None false (newModel 0 0) in
  let w' := appendToRepl 0 (Text clearAnsiSequence) Info None false w in
  reachable w
  ∧ replElements w = [SimpleReplElement 0 (uniqueIdOf 0) "a" Info None 1 0]
  ∧ endsWith "a" LF = false
  ∧ "a" ≠ clearAnsiSequence
  ∧ replElements w'
    = [SimpleReplElement 0 (uniqueIdOf 1) consoleCleared Ignore None 1 0;
       SimpleReplElement 0 (uniqueIdOf 2) "" Info None 1 0]
  ∧ length (replElements w') ≠ length (replElements w)
  ∧ changeFired w' = 3 + changeFired w.
Proof.
  cbv zeta. split.
  { apply (reachable_step (OpAppendToRepl 0 (Text "a") Info None false)
             (newModel 0 0)); [constructor|reflexivity]. }
  split; [vm_compute; reflexivity|].
  split; [vm_compute; reflexivity|].
  split; [discriminate|].
  split; [vm_compute; reflexivity|].
  split; [|vm_compute; reflexivity].
  vm_compute. discriminate.
Qed.

(** ** Display order *)

Lemma flatten_group n a s ch i e :
  flatten (ReplGroup n a s ch i e) = ReplGroup n a s ch i e :: flattenAll ch.
Proof. reflexivity. Qed.

Lemma flattenAll_app l k : flattenAll (l ++ k) = flattenAll l ++ flattenAll k.
Proof. apply bind_app. Qed.

Lemma flattenAll_singleton x : flattenAll [x] = flatten x.
Proof. unfold flattenAll. rewrite bind_cons. simpl. apply app_nil_r. Qed.

Lemma flattenAll_nil : flattenAll [] = [].
Proof. reflexivity. Qed.

Lemma flattenAll_cons x l : flattenAll (x :: l) = flatten x ++ flattenAll l.
Proof. apply bind_cons. Qed.

Lemma flattenAll_pair x y : flattenAll [x; y] = flatten x ++ flatten y.
Proof. by rewrite !flattenAll_cons, flattenAll_nil, app_nil_r. Qed.

Lemma flatten_leaf e : isGroup e = false → flatten e = [e].
Proof. by destruct e. Qed.

Lemma isOpenGroup_addChild c g :
  isOpenGroup (ReplGroup_addChild c g) = isOpenGroup g.
Proof. by destruct g. Qed.

Global Arguments flatten : simpl never.
Global Arguments flattenAll : simpl never.
Global Arguments ReplGroup_addChild : simpl never.
Global Arguments ReplGroup_end : simpl never.

(** Two elements added in a row to an open group end up side by side at
    the very end of what the group displays. *)
Lemma flatten_addChild_twice g : ∀ i r,
  isOpenGroup g = true → isOpenGroup i = false →
  ∃ before,
    flatten (ReplGroup_addChild r (ReplGroup_addChild i g))
    = before ++ flatten i ++ flatten r.
Proof.
  induction g as [e He|n a s ch id en IH] using IReplElement_tree_ind;
    intros i r Hg Hi.
  { by destruct e. }
  destruct (snoc_cases ch) as [->|(l0 & x & ->)].
  - rewrite addChild_nil. rewrite (addChild_snoc r _ _ _ [] i), Hi.
    rewrite flatten_group. simpl. rewrite flattenAll_pair.
    by eexists [_].
  - rewrite addChild_snoc.
    rewrite Forall_app, Forall_singleton in IH. destruct IH as [_ IHx].
    destruct (isOpenGroup x) eqn:Hx.
    + rewrite addChild_snoc, isOpenGroup_addChild, Hx.
      destruct (IHx i r eq_refl Hi) as [before Hb].
      rewrite flatten_group, flattenAll_app, flattenAll_singleton, Hb.
      eexists (_ :: flattenAll l0 ++ before). simpl.
      by rewrite <- !app_assoc.
    + replace (l0 ++ [x; i]) with ((l0 ++ [x]) ++ [i])
        by (by rewrite <- app_assoc).
      rewrite addChild_snoc, Hi.
      rewrite flatten_group, flattenAll_app, flattenAll_pair.
      by eexists (_ :: flattenAll (l0 ++ [x])).
Qed.

Lemma flatten_addChild g : ∀ c,
  isOpenGroup g = true →
  ∃ before, flatten (ReplGroup_addChild c g) = before ++ flatten c.
Proof.
  induction g as [e He|n a s ch id en IH] using IReplElement_tree_ind;
    intros c Hg.
  { by destruct e. }
  destruct (snoc_cases ch) as [->|(l0 & x & ->)].
  - rewrite addChild_nil, flatten_group, flattenAll_singleton.
    by eexists [_].
  - rewrite addChild_snoc.
    rewrite Forall_app, Forall_singleton in IH. destruct IH as [_ IHx].
    destruct (isOpenGroup x) eqn:Hx.
    + destruct (IHx c eq_refl) as [before Hb].
      rewrite flatten_group, flattenAll_app, flattenAll_singleton, Hb.
      eexists (_ :: flattenAll l0 ++ before). simpl.
      by rewrite <- !app_assoc.
    + rewrite flatten_group, flattenAll_app, flattenAll_pair.
      eexists (_ :: flattenAll l0 ++ flatten x). simpl.
      by rewrite <- !app_assoc.
Qed.

Lemma flattenAll_addReplElement e w :
  ∃ before,
    flattenAll (replElements (addReplElement e w)) = before ++ flatten e.
Proof.
  pose proof MAX_REPL_LENGTH_ge_2 as HM.
  destruct (snoc_cases (replElements w)) as [E|(l0 & g & E)].
  - rewrite addReplElement_top by by rewrite E.
    simpl. rewrite trim_snoc, flattenAll_app, flattenAll_singleton. eauto.
  - destruct (isOpenGroup g) eqn:Hg.
    + rewrite (addReplElement_nested _ _ _ _ E Hg). simpl.
      destruct (flatten_addChild g e Hg) as [before Hb].
      rewrite flattenAll_app, flattenAll_singleton, Hb.
      exists (flattenAll l0 ++ before). by rewrite <- app_assoc.
    + rewrite addReplElement_top by by rewrite E, lastIsOpenGroup_snoc.
      simpl. rewrite trim_snoc, flattenAll_app, flattenAll_singleton. eauto.
Qed.

Lemma addReplElement_twice_top i r w :
  lastIsOpenGroup (replElements w) = false → isOpenGroup i = false →
  ∃ kept,
    replElements (addReplElement r (addReplElement i w)) = kept ++ [i; r].
Proof.
  pose proof MAX_REPL_LENGTH_ge_2 as HM.
  intros Hlast Hi.
  rewrite (addReplElement_top i w Hlast).
  set (w1 := fire (setElements (trim (replElements w ++ [i])) w)).
  set (kept := drop (S (length (replElements w)) - MAX_REPL_LENGTH)
                 (replElements w)).
  assert (E1 : replElements w1 = kept ++ [i]) by apply trim_snoc.
  rewrite addReplElement_top by by rewrite E1, lastIsOpenGroup_snoc.
  simpl. rewrite (trim_snoc (replElements w)). fold kept.
  rewrite trim_snoc, drop_app_le.
  - eexists. by rewrite <- app_assoc.
  - rewrite length_app. simpl.
    assert (length kept + 1 ≤ MAX_REPL_LENGTH ∨ 1 ≤ length kept); [|lia].
    unfold kept. rewrite length_drop. lia.
Qed.

Lemma flattenAll_addReplElement_twice i r w :
  isOpenGroup i = false →
  ∃ before,
    flattenAll (replElements (addReplElement r (addReplElement i w)))
    = before ++ flatten i ++ flatten r.
Proof.
  intros Hi.
  destruct (lastIsOpenGroup (replElements w)) eqn:Hlast.
  - unfold lastIsOpenGroup in Hlast.
    destruct (last (replElements w)) as [g|] eqn:E; [|done].
    apply last_Some in E as [l0 E].
    rewrite (addReplElement_nested i w l0 g E Hlast).
    erewrite (addReplElement_nested r _ l0 (ReplGroup_addChild i g));
      [|reflexivity|by rewrite isOpenGroup_addChild].
    simpl. destruct (flatten_addChild_twice g i r Hlast Hi) as [before Hb].
    rewrite flattenAll_app, flattenAll_singleton, Hb.
    exists (flattenAll l0 ++ before). by rewrite <- app_assoc.
  - destruct (addReplElement_twice_top i r w Hlast Hi) as [kept ->].
    rewrite flattenAll_app, flattenAll_pair. eauto.
Qed.

(** ** addReplExpression *)

(** An element that is not a group stays on display when its group takes
    one more child, and when the model takes one more element without
    evicting any. *)
Lemma leaf_kept_addChild g : ∀ c x,
  isOpenGroup g = true → isGroup x = false →
  x ∈ flatten g → x ∈ flatten (ReplGroup_addChild c g).
Proof.
  induction g as [e He|n a s ch id en IH] using IReplElement_tree_ind;
    intros c x Hg Hx Hin.
  { by destruct e. }
  rewrite flatten_group in Hin. apply elem_of_cons in Hin as [->|Hin]; [done|].
  destruct (snoc_cases ch) as [->|(l0 & y & ->)].
  { rewrite flattenAll_nil in Hin. by apply elem_of_nil in Hin. }
  rewrite addChild_snoc, flatten_group. apply elem_of_cons. right.
  rewrite flattenAll_app, flattenAll_singleton in Hin.
  rewrite flattenAll_app. apply elem_of_app.
  apply elem_of_app in Hin as [Hin|Hin]; [by left|right].
  rewrite Forall_app, Forall_singleton in IH. destruct IH as [_ IHy].
  destruct (isOpenGroup y) eqn:Hy.
  - rewrite flattenAll_singleton. by apply IHy.
  - rewrite flattenAll_pair. apply elem_of_app. by left.
Qed.

Lemma leaf_kept_addReplElement e x w :
  length (replElements w) < MAX_REPL_LENGTH
  ∨ lastIsOpenGroup (replElements w) = true →
  isGroup x = false →
  x ∈ flattenAll (replElements w) →
  x ∈ flattenAll (replElements (addReplElement e w)).
Proof.
  intros Hroom Hx Hin.
  destruct (lastIsOpenGroup (replElements w)) eqn:Hlast.
  - unfold lastIsOpenGroup in Hlast.
    destruct (last (replElements w)) as [g|] eqn:E; [|done].
    apply last_Some in E as [l0 E].
    rewrite (addReplElement_nested e w l0 g E Hlast). simpl.
    rewrite E, flattenAll_app, flattenAll_singleton in Hin.
    rewrite flattenAll_app, flattenAll_singleton. apply elem_of_app.
    apply elem_of_app in Hin as [Hin|Hin]; [by left|right].
    by apply leaf_kept_addChild.
  - destruct Hroom as [Hroom|?]; [|done].
    rewrite addReplElement_top by done. simpl.
    rewrite trim_short by (rewrite length_app; simpl; lia).
    rewrite flattenAll_app. apply elem_of_app. by left.
Qed.

(** C7.  [addReplExpression] first inserts a [ReplEvaluationInput] holding
    the expression text: it is the last element in display order, one
    change event later, before the evaluation has answered.  Whatever the
    other callers do to the model during the [await], once the evaluation
    has answered a [ReplEvaluationResult] is inserted whose [available] is
    what the evaluation reported, success or failure alike: a failed
    evaluation changes nothing else, the call always produces a model, and
    the result is the last element on display.  The input, whenever it is
    still on display, comes before the result; it is still on display if
    it was when the evaluation answered and the insert of the result
    evicts nothing (the top level is not full, or its last element is an
    open group).  When nothing else ran during the [await], the model
    displays the input immediately followed by the result as its last two
    elements; they are its last two top-level elements when no group is
    open. *)
Theorem evaluation_input_then_result (session : IDebugSession)
    (stackFrame : option IStackFrame) (name uuidInput uuidResult : string)
    (outcome : EvaluationOutcome) (during : World → World) (w : World) :
  let input := ReplEvaluationInput uuidInput name in
  let result := ReplEvaluationResult_evaluateExpression uuidResult outcome in
  let w1 := addReplExpression_begin uuidInput name w in
  let w2 :=
    addReplExpression session stackFrame name uuidInput uuidResult outcome
      during w in
  (∃ before, flattenAll (getReplElements w1) = before ++ [input])
  ∧ changeFired w1 = S (changeFired w)
  ∧ w2 = addReplElement result (during w1)
  ∧ result = ReplEvaluationResult uuidResult (shownValue outcome)
               (succeeded outcome) None None
  ∧ available result = succeeded outcome
  ∧ (∃ before, flattenAll (getReplElements w2) = before ++ [result])
  ∧ (input ∈ flattenAll (getReplElements w2) →
       ∃ before between,
         flattenAll (getReplElements w2)
         = before ++ [input] ++ between ++ [result])
  ∧ (input ∈ flattenAll (getReplElements (during w1)) →
       length (replElements (during w1)) < MAX_REPL_LENGTH
       ∨ lastIsOpenGroup (replElements (during w1)) = true →
       input ∈ flattenAll (getReplElements w2))
  ∧ (during w1 = w1 →
       (∃ before,
          flattenAll (getReplElements w2) = before ++ [input; result])
       ∧ (lastIsOpenGroup (replElements w) = false →
            ∃ kept, getReplElements w2 = kept ++ [input; result])
       ∧ changeFired w2 = S (S (changeFired w))).
Proof.
  cbv zeta. unfold getReplElements, addReplExpression,
    addReplExpression_resume, addReplExpression_begin.
  set (input := ReplEvaluationInput uuidInput name).
  set (result := ReplEvaluationResult_evaluateExpression uuidResult outcome).
  assert (Hresult : isGroup result = false) by done.
  split; [apply (flattenAll_addReplElement input)|].
  split; [done|]. split; [done|]. split; [done|]. split; [done|].
  pose proof (flattenAll_addReplElement result
                (during (addReplElement input w))) as [before Hlast].
  rewrite (flatten_leaf result Hresult) in Hlast.
  split; [by exists before|]. split; [|split].
  - intros Hin. rewrite Hlast in Hin |- *.
    apply elem_of_app in Hin as [Hin|Hin].
    + apply list_elem_of_split in Hin as (l1 & l2 & ->).
      exists l1, l2. by rewrite <- !app_assoc.
    + apply list_elem_of_singleton in Hin. discriminate Hin.
  - intros Hin Hroom. by apply leaf_kept_addReplElement.
  - intros ->. split; [|split; [|done]].
    + by apply (flattenAll_addReplElement_twice input).
    + intros Hopen. by apply addReplElement_twice_top.
Qed.

Lemma evaluation_input_then_result_witness :
  ReplEvaluationInput "uuid-1" "1+1"
  ∈ flattenAll
      (getReplElements
         (addReplExpression 0 None "1+1" "uuid-1" "uuid-2"
            {| succeeded := false; shownValue := "not available" |}
            (appendToRepl 0 (Text "meanwhile") Info None true)
            (newModel 0 0))).
Proof.
  destruct (evaluation_input_then_result 0 None "1+1" "uuid-1" "uuid-2"
              {| succeeded := false; shownValue := "not available" |}
              (appendToRepl 0 (Text "meanwhile") Info None true)
              (newModel 0 0))
    as (_ & _ & _ & _ & _ & _ & _ & H & _).
  apply H.
  - vm_compute. left.
  - left. vm_compute. pose proof MAX_REPL_LENGTH_ge_2. lia.
Defined.

(** C7 as stated fails when the model is cleared while the evaluation is
    pending: the input is gone by the time the result arrives, and the
    result alone is on display. *)
Lemma evaluation_input_lost_to_clear :
  let input := ReplEvaluationInput "uuid-1" "1+1" in
  let result := ReplEvaluationResult "uuid-2" "2" true None None in
  let w2 :=
    addReplExpression 0 None "1+1" "uuid-1" "uuid-2"
      {| succeeded := true; shownValue := "2" |}
      removeReplExpressions (newModel 0 0) in
  getReplElements w2 = [result]
  ∧ (input ∉ flattenAll (getReplElements w2))
  ∧ ¬ (∃ before, flattenAll (getReplElements w2)
                 = before ++ [input; result]).
Proof.
  cbv zeta.
  assert (E : getReplElements
                (addReplExpression 0 None "1+1" "uuid-1" "uuid-2"
                   {| succeeded := true; shownValue := "2" |}
                   removeReplExpressions (newModel 0 0))
              = [ReplEvaluationResult "uuid-2" "2" true None None])
    by (vm_compute; reflexivity).
  rewrite E. split; [done|]. split.
  - rewrite flattenAll_singleton, flatten_leaf by done.
    intros H%list_elem_of_singleton. discriminate H.
  - intros [before H].
    rewrite flattenAll_singleton, flatten_leaf in H by done.
    destruct before as [|b [|b' before]]; discriminate H.
Qed.

(** An evaluation overtaken by other operations stays within the
    reachable states. *)
Lemma reachable_addReplExpression session stackFrame name uuidInput uuidResult
    outcome (during : World → World) w :
  (∀ w', reachable w' → reachable (during w')) →
  reachable w →
  reachable (addReplExpression session stackFrame name uuidInput uuidResult
               outcome during w).
Proof.
  intros Hduring Hw. unfold addReplExpression.
  apply (reachable_step
           (OpAddReplElement
              (ReplEvaluationResult_evaluateExpression uuidResult outcome)));
    [|by destruct outcome].
  apply Hduring.
  by apply (reachable_step (OpAddReplElement (ReplEvaluationInput _ _))).
Qed.

(** ** endGroup *)

Lemma innermostPath_nil n a s i e : innermostPath (ReplGroup n a s [] i e) = [].
Proof. reflexivity. Qed.

Lemma innermostPath_snoc n a s l0 x i e :
  innermostPath (ReplGroup n a s (l0 ++ [x]) i e)
  = if isOpenGroup x then length l0 :: innermostPath x else [].
Proof.
  simpl.
  change (length l0) with (0 + length l0). generalize 0 as k.
  induction l0 as [|y l0 IH]; intros k; simpl.
  - by rewrite Nat.add_0_r.
  - destruct (l0 ++ [x]) eqn:E; [by destruct l0|].
    rewrite IH. by replace (S k + length l0) with (k + S (length l0)) by lia.
Qed.

Global Arguments innermostPath : simpl never.

Lemma setLast_same x l : last l = Some x → setLast x l = l.
Proof. intros [l0 ->]%last_Some. apply setLast_snoc. Qed.

Lemma closeAt_cons_snoc path n a s l0 x i e :
  closeAt (length l0 :: path) (ReplGroup n a s (l0 ++ [x]) i e)
  = ReplGroup n a s (l0 ++ [closeAt path x]) i e.
Proof.
  simpl. f_equal.
  replace (length l0) with (length l0 + 0) by lia.
  by rewrite alter_app_r.
Qed.

(** [end] sets the flag at the end of the chain and changes nothing else. *)
Lemma end_closeAt g :
  isGroup g = true → ReplGroup_end g = closeAt (innermostPath g) g.
Proof.
  induction g as [e He|n a s ch id en IH] using IReplElement_tree_ind;
    intros Hg; [congruence|].
  destruct (snoc_cases ch) as [->|(l0 & x & ->)]; [done|].
  rewrite end_snoc, innermostPath_snoc.
  rewrite Forall_app, Forall_singleton in IH. destruct IH as [_ IHx].
  destruct (isOpenGroup x) eqn:Hx; [|done].
  rewrite closeAt_cons_snoc, IHx; [done|by apply isOpenGroup_isGroup].
Qed.

Lemma openChain_innermostPath g : openChain g (innermostPath g).
Proof.
  induction g as [e He|n a s ch id en IH] using IReplElement_tree_ind.
  { destruct e; try done; by constructor. }
  destruct (snoc_cases ch) as [->|(l0 & x & ->)]; [by constructor|].
  rewrite innermostPath_snoc.
  rewrite Forall_app, Forall_singleton in IH. destruct IH as [_ IHx].
  destruct (isOpenGroup x) eqn:Hx.
  - replace (length l0)
      with (length (getChildren (ReplGroup n a s (l0 ++ [x]) id en)) - 1)
      by (simpl; rewrite length_app; simpl; lia).
    apply openChain_down with x; [apply last_snoc|done|done].
  - constructor. simpl. by rewrite lastIsOpenGroup_snoc.
Qed.

(** The chain below a group is unique: [innermostPath] is the only path
    [openChain] accepts. *)
Lemma openChain_unique g path : openChain g path → path = innermostPath g.
Proof.
  induction 1 as [g Hlast|g x path Hlast Hx Hchain IH].
  - destruct g as [| | | |n a s ch id en]; try done.
    destruct (snoc_cases ch) as [->|(l0 & y & ->)]; [done|].
    rewrite innermostPath_snoc. simpl in Hlast.
    rewrite lastIsOpenGroup_snoc in Hlast. by rewrite Hlast.
  - destruct g as [| | | |n a s ch id en]; try done.
    simpl in *. apply last_Some in Hlast as [l0 ->].
    rewrite innermostPath_snoc, Hx, IH, length_app. simpl.
    f_equal. lia.
Qed.

Lemma nodeAt_innermostPath g : ∃ target,
  nodeAt (innermostPath g) g = Some target
  ∧ lastIsOpenGroup (getChildren target) = false
  ∧ (innermostPath g ≠ [] → isOpenGroup target = true).
Proof.
  induction g as [e He|n a s ch id en IH] using IReplElement_tree_ind.
  { exists e. by destruct e. }
  destruct (snoc_cases ch) as [->|(l0 & x & ->)].
  { eexists. by rewrite innermostPath_nil. }
  rewrite innermostPath_snoc.
  rewrite Forall_app, Forall_singleton in IH.
  destruct IH as [_ (target & Ht & Hlast & Hopen)].
  destruct (isOpenGroup x) eqn:Hx.
  - exists target. simpl.
    rewrite lookup_app_r, Nat.sub_diag by lia. simpl.
    split; [done|]. split; [done|]. intros _.
    destruct (innermostPath x); [|by apply Hopen].
    by injection Ht as <-.
  - exists (ReplGroup n a s (l0 ++ [x]) id en). simpl.
    by rewrite lastIsOpenGroup_snoc.
Qed.

Lemma closeAt_ended path : ∀ g target,
  nodeAt path g = Some target → hasEnded target = true → closeAt path g = g.
Proof.
  induction path as [|i path IH]; intros g target; simpl.
  - intros [= <-] He. by destruct g as [| | | |? ? ? ? ? []].
  - destruct (getChildren g !! i) as [c|] eqn:Hc; [|done]. simpl.
    intros Ht He. destruct g as [| | | |n a s ch id en]; try done.
    simpl in *. f_equal.
    rewrite <- list_insert_id with (x := c) (i := i) (l := ch) at 2 by done.
    apply list_eq. intros j. destruct (decide (i = j)) as [<-|Hne].
    + rewrite list_lookup_alter_eq, Hc. simpl.
      rewrite (IH _ _ Ht He), list_lookup_insert_eq; [done|].
      by eapply lookup_lt_Some.
    + by rewrite list_lookup_alter_ne, list_lookup_insert_ne.
Qed.

(** C10.  [endGroup] never fires the model's change event and touches no
    counter.  When the last top-level element is not a group (or there is
    none) the model is left as it is.  When it is a group [g], the only
    change is the [ended] flag of one group, set to [true]: the one at the
    end of the chain that leads from [g] down through last children that
    are open groups (an open group whenever it lies below [g]); and when
    that group is already closed the model is left as it is. *)
Theorem endGroup_closes_innermost_group (w : World) :
  changeFired (endGroup w) = changeFired w
  ∧ topReplElementCounter (endGroup w) = topReplElementCounter w
  ∧ COUNTER (endGroup w) = COUNTER w
  ∧ ((∀ e, last (replElements w) = Some e → isGroup e = false) →
       endGroup w = w)
  ∧ (∀ g, last (replElements w) = Some g → isGroup g = true →
       ∃ path target,
         openChain g path
         ∧ (∀ path', openChain g path' → path' = path)
         ∧ nodeAt path g = Some target
         ∧ lastIsOpenGroup (getChildren target) = false
         ∧ (path ≠ [] → isOpenGroup target = true)
         ∧ replElements (endGroup w)
           = setLast (closeAt path g) (replElements w)
         ∧ (hasEnded target = true → endGroup w = w)).
Proof.
  assert (Hframe : changeFired (endGroup w) = changeFired w
                   ∧ topReplElementCounter (endGroup w)
                     = topReplElementCounter w
                   ∧ COUNTER (endGroup w) = COUNTER w).
  { unfold endGroup. destruct (last (replElements w)) as [g|]; [|done].
    by destruct (isGroup g). }
  destruct Hframe as (H1 & H2 & H3).
  split; [done|]. split; [done|]. split; [done|].
  split; [apply endGroup_other|].
  intros g Hlast Hg.
  destruct (nodeAt_innermostPath g) as (target & Ht & Hinner & Hopen).
  exists (innermostPath g), target.
  split; [apply openChain_innermostPath|].
  split.
  { intros path' H'. by apply openChain_unique. }
  split; [done|]. split; [done|]. split; [done|].
  assert (E : replElements (endGroup w)
              = setLast (closeAt (innermostPath g) g) (replElements w)).
  { unfold endGroup. rewrite Hlast, Hg. simpl. by rewrite end_closeAt. }
  split; [done|].
  intros He. rewrite (closeAt_ended _ _ _ Ht He), (setLast_same _ _ Hlast) in E.
  by apply World_eq.
Qed.

Lemma endGroup_closes_innermost_group_witness :
  let inner := ReplGroup "B" false None [] (groupIdOf 1) in
  let outer child := ReplGroup "A" true None [child] (groupIdOf 0) false in
  replElements
    (endGroup (startGroup "B" false None
                 (startGroup "A" true None (newModel 0 0))))
  = [outer (inner true)]
  ∧ endGroup (appendToRepl 0 (Text "plain") Info None true (newModel 0 0))
    = appendToRepl 0 (Text "plain") Info None true (newModel 0 0).
Proof.
  intros inner outer. split.
  - destruct (endGroup_closes_innermost_group
                (startGroup "B" false None
                   (startGroup "A" true None (newModel 0 0))))
      as (_ & _ & _ & _ & H).
    destruct (H (outer (inner false)))
      as (path & target & Hp & _ & _ & _ & _ & E & _);
      [reflexivity|reflexivity|].
    apply openChain_unique in Hp. rewrite E, Hp. reflexivity.
  - apply (endGroup_closes_innermost_group
             (appendToRepl 0 (Text "plain") Info None true (newModel 0 0))).
    intros e He. vm_compute in He. by injection He as <-.
Defined.

(** ** Groups: closed means closed *)

Lemma groupsIn_group n a s ch i e :
  groupsIn (ReplGroup n a s ch i e) = ReplGroup n a s ch i e :: allGroups ch.
Proof.
  unfold groupsIn, allGroups. rewrite flatten_group.
  by rewrite filter_cons_True.
Qed.

Lemma groupsIn_leaf e : isGroup e = false → groupsIn e = [].
Proof.
  intros H. unfold groupsIn. rewrite flatten_leaf by done.
  rewrite filter_cons_False; [done|congruence].
Qed.

Lemma allGroups_nil : allGroups [] = [].
Proof. reflexivity. Qed.

Lemma allGroups_app l k : allGroups (l ++ k) = allGroups l ++ allGroups k.
Proof. unfold allGroups. by rewrite flattenAll_app, filter_app. Qed.

Lemma allGroups_cons x l : allGroups (x :: l) = groupsIn x ++ allGroups l.
Proof. unfold allGroups, groupsIn. by rewrite flattenAll_cons, filter_app. Qed.

Lemma allGroups_singleton x : allGroups [x] = groupsIn x.
Proof. by rewrite allGroups_cons, allGroups_nil, app_nil_r. Qed.

Lemma allGroups_drop k : ∀ l, ∃ m, allGroups (drop k l) = drop m (allGroups l).
Proof.
  induction k as [|k IH]; intros l; [by exists 0|].
  destruct l as [|x l]; [by exists 0|]. simpl.
  destruct (IH l) as [m ->]. exists (length (groupsIn x) + m).
  rewrite allGroups_cons. by rewrite drop_app_add.
Qed.

Lemma evolves_refl a : evolves a a.
Proof. by left. Qed.

Lemma evolves_all_refl l : Forall2 evolves l l.
Proof. induction l; constructor; [apply evolves_refl|done]. Qed.

Lemma evolves_id a b : evolves a b → getId a = getId b.
Proof. by intros [->|(_ & ? & _)]. Qed.

Lemma evolves_trans a b c : evolves a b → evolves b c → evolves a c.
Proof.
  intros [->|(Ha & Hab & Hb)]; [done|].
  intros [<-|(_ & Hbc & Hc)]; right; [done|].
  split; [done|]. split; [congruence|done].
Qed.

Lemma evolves_ids l k : Forall2 evolves l k → getId <$> k = getId <$> l.
Proof.
  induction 1 as [|a b l k Hab _ IH]; [done|].
  by rewrite !fmap_cons, IH, (evolves_id _ _ Hab).
Qed.

Lemma closedForGood_open g : hasEnded g = false → closedForGood g.
Proof. intros H He. congruence. Qed.

Lemma isOpenGroup_not_ended g : isOpenGroup g = true → hasEnded g = false.
Proof. by destruct g as [| | | |? ? ? ? ? []]. Qed.

(** [addChild] on an open group: the groups below evolve, and the groups
    of the child come last. *)
Lemma addChild_groups g : ∀ c,
  isOpenGroup g = true →
  ∃ kept,
    groupsIn (ReplGroup_addChild c g) = kept ++ groupsIn c
    ∧ Forall2 evolves (groupsIn g) kept.
Proof.
  induction g as [e He|n a s ch id en IH] using IReplElement_tree_ind;
    intros c Hg.
  { by destruct e. }
  assert (Hen : en = false) by (by destruct en). subst en.
  assert (Hself : ∀ ch', evolves (ReplGroup n a s ch id false)
                           (ReplGroup n a s ch' id false)).
  { intros ch'. right. split; [done|]. split; [done|].
    by apply closedForGood_open. }
  destruct (snoc_cases ch) as [->|(l0 & x & ->)].
  - rewrite addChild_nil, !groupsIn_group, allGroups_singleton, allGroups_nil.
    eexists [_]. split; [done|]. constructor; [apply Hself|constructor].
  - rewrite addChild_snoc, !groupsIn_group.
    rewrite Forall_app, Forall_singleton in IH. destruct IH as [_ IHx].
    rewrite !allGroups_app, allGroups_singleton.
    destruct (isOpenGroup x) eqn:Hx.
    + destruct (IHx c eq_refl) as (kept & Hk & Hev).
      rewrite allGroups_singleton, Hk.
      eexists (_ :: allGroups l0 ++ kept). split.
      * simpl. by rewrite <- app_assoc.
      * constructor; [apply Hself|].
        apply Forall2_app; [apply evolves_all_refl|done].
    + rewrite allGroups_cons, allGroups_singleton.
      eexists (_ :: allGroups l0 ++ groupsIn x). split.
      * simpl. by rewrite <- app_assoc.
      * constructor; [apply Hself|]. apply evolves_all_refl.
Qed.

(** [end] on a group that is open, or closed for good: every group below
    evolves. *)
Lemma end_groups g :
  isGroup g = true → closedForGood g →
  Forall2 evolves (groupsIn g) (groupsIn (ReplGroup_end g)).
Proof.
  induction g as [e He|n a s ch id en IH] using IReplElement_tree_ind;
    intros Hg Hok; [congruence|].
  destruct (snoc_cases ch) as [->|(l0 & x & ->)].
  - rewrite end_nil, !groupsIn_group, allGroups_nil.
    constructor; [|constructor].
    destruct en; [by left|]. right. by repeat split.
  - rewrite end_snoc.
    rewrite Forall_app, Forall_singleton in IH. destruct IH as [_ IHx].
    destruct (isOpenGroup x) eqn:Hx.
    + assert (Hen : en = false).
      { destruct en; [|done]. specialize (Hok eq_refl). simpl in Hok.
        rewrite lastIsOpenGroup_snoc in Hok. congruence. }
      subst en. rewrite !groupsIn_group, !allGroups_app, !allGroups_singleton.
      constructor.
      * right. split; [done|]. split; [done|]. by apply closedForGood_open.
      * apply Forall2_app; [apply evolves_all_refl|].
        apply IHx; [by apply isOpenGroup_isGroup|].
        by apply closedForGood_open, isOpenGroup_not_ended.
    + rewrite !groupsIn_group. constructor; [|apply evolves_all_refl].
      destruct en; [by left|]. right. split; [done|]. split; [done|].
      intros _. simpl. by rewrite lastIsOpenGroup_snoc.
Qed.

Lemma evolved_from old kept g' :
  Forall2 evolves old kept → g' ∈ kept → ∃ g, g ∈ old ∧ evolves g g'.
Proof.
  intros Hev [i Hi]%list_elem_of_lookup.
  destruct (Forall2_lookup_r _ _ _ _ _ Hev Hi) as (g & Hg & Hgg').
  exists g. split; [|done]. by eapply list_elem_of_lookup_2.
Qed.

Lemma same_id_same_group (l : list IReplElement) a b :
  NoDup (getId <$> l) → a ∈ l → b ∈ l → getId a = getId b → a = b.
Proof.
  intros Hnd [i Hi]%list_elem_of_lookup [j Hj]%list_elem_of_lookup Hid.
  assert (i = j) as ->.
  { eapply (NoDup_lookup _ _ _ (getId a) Hnd).
    - by rewrite list_lookup_fmap, Hi.
    - by rewrite list_lookup_fmap, Hj, Hid. }
  congruence.
Qed.

(** A step of that shape keeps the invariant, and relates the groups. *)
Lemma groupsStep_preserves w w' :
  (groupsWellFormed w →
   groupsStep (COUNTER w) (allGroups (replElements w))
     (allGroups (replElements w')) (COUNTER w')) →
  preserves w w'.
Proof.
  intros Hstep Hinv.
  destruct (Hstep Hinv) as (kept & extra & m & Hnew & Hev & Hc & Hextra).
  destruct Hinv as (Hnd & Hb & Hok).
  set (old := allGroups (replElements w)) in *.
  assert (Hids : NoDup (getId <$> kept ++ extra)).
  { rewrite fmap_app, (evolves_ids _ _ Hev). apply NoDup_app.
    split; [done|]. split.
    - intros x [g [-> Hg]]%list_elem_of_fmap.
      destruct Hextra as [->|(g0 & -> & Hid & _)]; [apply not_elem_of_nil|].
      simpl. intros Hx%list_elem_of_singleton.
      rewrite Forall_forall in Hb. destruct (Hb g Hg) as (k & Hk & Hgk).
      rewrite Hgk, Hid in Hx. apply groupIdOf_inj in Hx. lia.
    - destruct Hextra as [->|(g0 & -> & _)];
        [constructor|apply NoDup_singleton]. }
  assert (Hbound : Forall (λ g, ∃ k, k < COUNTER w' ∧ getId g = groupIdOf k)
                     (kept ++ extra)).
  { apply Forall_app. split.
    - apply Forall_forall. intros g' Hg'.
      destruct (evolved_from _ _ _ Hev Hg') as (g & Hg & Hgg').
      rewrite Forall_forall in Hb. destruct (Hb g Hg) as (k & Hk & Hgk).
      exists k. split; [lia|]. by rewrite <- (evolves_id _ _ Hgg').
    - destruct Hextra as [->|(g0 & -> & Hid & _ & Hlt)]; [constructor|].
      apply Forall_singleton. by exists (COUNTER w). }
  assert (Hclosed : Forall closedForGood (kept ++ extra)).
  { apply Forall_app. split.
    - apply Forall_forall. intros g' Hg'.
      destruct (evolved_from _ _ _ Hev Hg') as (g & Hg & [->|(_ & _ & ?)]);
        [|done].
      rewrite Forall_forall in Hok. by apply Hok.
    - destruct Hextra as [->|(g0 & -> & _ & ? & _)]; [constructor|].
      by apply Forall_singleton. }
  split; [split; [|split]|split; [done|]]; rewrite Hnew.
  - rewrite fmap_drop. eapply sublist_NoDup; [exact Hids|apply sublist_drop].
  - by apply Forall_drop.
  - by apply Forall_drop.
  - intros g' Hg'%subseteq_drop. apply elem_of_app in Hg' as [Hg'|Hg'].
    + right. by eapply evolved_from.
    + left. destruct Hextra as [->|(g0 & -> & Hid & _)];
        [by apply elem_of_nil in Hg'|].
      apply list_elem_of_singleton in Hg' as ->. by exists (COUNTER w).
Qed.

Lemma groupsFrom_trans w1 w2 w3 :
  groupsFrom w1 w2 → groupsFrom w2 w3 → groupsFrom w1 w3.
Proof.
  intros [Hc12 H12] [Hc23 H23]. split; [lia|].
  intros g3 Hg3. destruct (H23 g3 Hg3) as [(k & Hk & Hid)|(g2 & Hg2 & Hev23)].
  - left. exists k. split; [lia|done].
  - destruct (H12 g2 Hg2) as [(k & Hk & Hid)|(g1 & Hg1 & Hev12)].
    + left. exists k. split; [done|]. by rewrite <- (evolves_id _ _ Hev23).
    + right. exists g1. split; [done|]. by eapply evolves_trans.
Qed.

Lemma preserves_trans w1 w2 w3 :
  preserves w1 w2 → preserves w2 w3 → preserves w1 w3.
Proof.
  intros H12 H23 H1. destruct (H12 H1) as [H2 R12].
  destruct (H23 H2) as [H3 R23]. split; [done|].
  by eapply groupsFrom_trans.
Qed.

(** A step that leaves the list of groups and the group counter alone. *)
Lemma preserves_same_groups w w' :
  allGroups (replElements w') = allGroups (replElements w) →
  COUNTER w' = COUNTER w →
  preserves w w'.
Proof.
  intros Hg Hc. apply groupsStep_preserves. intros _.
  exists (allGroups (replElements w)), [], 0.
  rewrite Hg, Hc, app_nil_r. simpl.
  split; [done|]. split; [apply evolves_all_refl|]. split; [lia|by left].
Qed.

Lemma addReplElement_groups e w :
  ∃ kept m,
    allGroups (replElements (addReplElement e w))
    = drop m (kept ++ groupsIn e)
    ∧ Forall2 evolves (allGroups (replElements w)) kept.
Proof.
  destruct (lastIsOpenGroup (replElements w)) eqn:Hlast.
  - unfold lastIsOpenGroup in Hlast.
    destruct (last (replElements w)) as [g|] eqn:E; [|done].
    apply last_Some in E as [l0 E].
    rewrite (addReplElement_nested e w l0 g E Hlast), E. simpl.
    destruct (addChild_groups g e Hlast) as (kept & Hk & Hev).
    exists (allGroups l0 ++ kept), 0.
    rewrite !allGroups_app, !allGroups_singleton, Hk. simpl.
    split; [by rewrite app_assoc|].
    apply Forall2_app; [apply evolves_all_refl|done].
  - rewrite (addReplElement_top e w Hlast). simpl. rewrite trim_drop.
    destruct (allGroups_drop
                (length (replElements w ++ [e]) - MAX_REPL_LENGTH)
                (replElements w ++ [e])) as [m ->].
    exists (allGroups (replElements w)), m.
    rewrite allGroups_app, allGroups_singleton.
    split; [done|apply evolves_all_refl].
Qed.

Lemma preserves_addReplElement e w :
  isGroup e = false → preserves w (addReplElement e w).
Proof.
  intros He. apply groupsStep_preserves. intros _.
  destruct (addReplElement_groups e w) as (kept & m & Hnew & Hev).
  exists kept, [], m. rewrite Hnew, (groupsIn_leaf e He).
  split; [done|]. split; [done|]. split; [done|by left].
Qed.

Lemma preserves_startGroup name autoExpand sourceData w :
  preserves w (startGroup name autoExpand sourceData w).
Proof.
  apply groupsStep_preserves. intros _. unfold startGroup.
  set (group := ReplGroup name autoExpand sourceData []
                  (groupIdOf (COUNTER w)) false).
  set (w0 := Build_World _ _ _ _).
  destruct (addReplElement_groups group w0) as (kept & m & Hnew & Hev).
  exists kept, [group], m. rewrite Hnew.
  unfold group at 1. rewrite groupsIn_group, allGroups_nil.
  split; [done|]. split; [done|]. simpl. split; [lia|].
  right. exists group. split; [done|]. split; [done|].
  split; [by apply closedForGood_open|lia].
Qed.

Lemma last_group_in_allGroups l g :
  last l = Some g → isGroup g = true → g ∈ allGroups l.
Proof.
  intros [l0 ->]%last_Some Hg.
  rewrite allGroups_app, allGroups_singleton.
  apply elem_of_app. right.
  destruct g; try done. rewrite groupsIn_group. apply list_elem_of_here.
Qed.

Lemma preserves_endGroup w : preserves w (endGroup w).
Proof.
  apply groupsStep_preserves. intros (_ & _ & Hok).
  unfold endGroup.
  destruct (last (replElements w)) as [g|] eqn:E;
    [destruct (isGroup g) eqn:Hg|].
  - pose proof (last_group_in_allGroups _ _ E Hg) as Hin.
    rewrite Forall_forall in Hok. specialize (Hok g Hin).
    apply last_Some in E as [l0 E]. simpl. rewrite E, setLast_snoc.
    exists (allGroups l0 ++ groupsIn (ReplGroup_end g)), [], 0.
    rewrite !allGroups_app, !allGroups_singleton, app_nil_r. simpl.
    split; [done|]. split; [|split; [done|by left]].
    apply Forall2_app; [apply evolves_all_refl|by apply end_groups].
  - exists (allGroups (replElements w)), [], 0. rewrite app_nil_r.
    split; [done|]. split; [apply evolves_all_refl|]. split; [done|by left].
  - exists (allGroups (replElements w)), [], 0. rewrite app_nil_r.
    split; [done|]. split; [apply evolves_all_refl|]. split; [done|by left].
Qed.

Lemma preserves_removeReplExpressions w :
  preserves w (removeReplExpressions w).
Proof.
  apply groupsStep_preserves. intros _.
  exists (allGroups (replElements w)), [],
    (length (allGroups (replElements w))).
  rewrite removeReplExpressions_elements, app_nil_r, drop_all.
  destruct (removeReplExpressions_counters w) as [_ ->].
  split; [done|]. split; [apply evolves_all_refl|]. split; [done|by left].
Qed.

Lemma preserves_pushText session data sev source w :
  preserves w (pushText session data sev source w).
Proof.
  unfold pushText, getUniqueId.
  eapply preserves_trans; [|by apply preserves_addReplElement].
  by apply preserves_same_groups.
Qed.

Lemma allGroups_setLast_leaf l x y :
  last l = Some x → isGroup x = false → isGroup y = false →
  allGroups (setLast y l) = allGroups l.
Proof.
  intros [l0 ->]%last_Some Hx Hy.
  rewrite setLast_snoc, !allGroups_app, !allGroups_singleton.
  by rewrite !groupsIn_leaf.
Qed.

Lemma preserves_appendData session data sev source collapse w :
  preserves w (appendData session data sev source collapse w).
Proof.
  destruct data as [str|e]; simpl.
  - destruct (last (replElements w))
      as [[ps pid pv psev psrc pc pf| | | |]|] eqn:E;
      try apply preserves_pushText.
    case_bool_decide; [|apply preserves_pushText].
    destruct (_ && _ && collapse).
    { apply preserves_same_groups; [|done]. simpl.
      by apply (allGroups_setLast_leaf _ _ _ E). }
    destruct (_ && _ && _); [|apply preserves_pushText].
    apply preserves_same_groups; [|done]. simpl.
    by apply (allGroups_setLast_leaf _ _ _ E).
  - apply preserves_addReplElement. by destruct e.
Qed.

Lemma isExpressionElement_not_group e :
  isExpressionElement e = true → isGroup e = false.
Proof. by destruct e. Qed.

Lemma preserves_step op w : validOp op = true → preserves w (step op w).
Proof.
  intros Hop.
  destruct op as [session data sev source collapse|name auto src|
                  |session frame name u1 u2 outcome| |e]; unfold step.
  - destruct data as [str|e].
    + destruct (lastIndexOf clearAnsiSequence str) as [i|] eqn:Hi.
      * rewrite (appendToRepl_clear _ _ _ _ _ _ _ Hi).
        eapply preserves_trans; [apply preserves_removeReplExpressions|].
        eapply preserves_trans; [apply preserves_pushText|].
        apply preserves_appendData.
      * apply lastIndexOf_None in Hi. rewrite appendToRepl_plain by done.
        apply preserves_appendData.
    + rewrite appendToRepl_expression. apply preserves_addReplElement.
      by destruct e.
  - apply preserves_startGroup.
  - apply preserves_endGroup.
  - unfold addReplExpression, addReplExpression_resume,
      addReplExpression_begin.
    apply (preserves_trans _ (addReplElement (ReplEvaluationInput u1 name) w));
      [by apply preserves_addReplElement|].
    apply preserves_addReplElement. by destruct outcome.
  - apply preserves_removeReplExpressions.
  - apply preserves_addReplElement.
    by apply isExpressionElement_not_group.
Qed.

Lemma reachable_groupsWellFormed w : reachable w → groupsWellFormed w.
Proof.
  induction 1 as [top groups|op w Hw IH Hop].
  - split; [constructor|split; constructor].
  - by apply (preserves_step op w Hop).
Qed.

Lemma end_closed_group g :
  hasEnded g = true → closedForGood g → ReplGroup_end g = g.
Proof.
  intros He Hok. destruct g as [| | | |n a s ch id []]; try done.
  specialize (Hok eq_refl). simpl in Hok.
  destruct (snoc_cases ch) as [->|(l0 & x & ->)]; [done|].
  rewrite lastIsOpenGroup_snoc in Hok. by rewrite end_snoc, Hok.
Qed.

(** C8.  In every state the API reaches (from a fresh model by
    [appendToRepl], [startGroup], [endGroup], [addReplExpression],
    [removeReplExpressions] and inserts of expression elements) and for
    every further operation: a group whose children differ afterwards was
    open before; a closed group is found unchanged afterwards, still
    closed and with the same children, whenever a group with its id is
    still in the model; and [end] on a closed group returns it as it is,
    so that [endGroup] on a model whose last element is a closed group
    changes nothing. *)
Theorem closed_groups_stay_closed (w : World) (op : Op) (g : IReplElement) :
  reachable w → validOp op = true →
  g ∈ allGroups (replElements w) →
  (∀ g', g' ∈ allGroups (replElements (step op w)) → getId g' = getId g →
     (getChildren g' ≠ getChildren g → hasEnded g = false)
     ∧ (hasEnded g = true → g' = g))
  ∧ (hasEnded g = true → ReplGroup_end g = g)
  ∧ (hasEnded g = true → last (replElements w) = Some g → endGroup w = w).
Proof.
  intros Hw Hop Hg.
  pose proof (reachable_groupsWellFormed w Hw) as Hinv.
  destruct (preserves_step op w Hop Hinv) as [_ [_ Hfrom]].
  destruct Hinv as (Hnd & Hb & Hok).
  assert (Hkeep : ∀ g', g' ∈ allGroups (replElements (step op w)) →
                    getId g' = getId g → hasEnded g = true → g' = g).
  { intros g' Hg' Hid He.
    destruct (Hfrom g' Hg') as [(k & Hk & Hgk)|(g0 & Hg0 & Hev)].
    - rewrite Forall_forall in Hb. destruct (Hb g Hg) as (k0 & Hk0 & Hgk0).
      rewrite Hid, Hgk0 in Hgk. apply groupIdOf_inj in Hgk. lia.
    - assert (g0 = g) as ->.
      { apply (same_id_same_group _ _ _ Hnd Hg0 Hg).
        by rewrite (evolves_id _ _ Hev). }
      destruct Hev as [->|(Hopen & _)]; [done|congruence]. }
  assert (Hend : hasEnded g = true → ReplGroup_end g = g).
  { intros He. apply end_closed_group; [done|].
    rewrite Forall_forall in Hok. by apply Hok. }
  split; [|split; [done|]].
  - intros g' Hg' Hid. split; [|by apply Hkeep].
    intros Hch. destruct (hasEnded g) eqn:He; [|done].
    destruct Hch. by rewrite (Hkeep g' Hg' Hid eq_refl).
  - intros He Hlast. apply last_Some in Hlast as [l0 E].
    rewrite (endGroup_group w l0 g E) by (by destruct g).
    rewrite (Hend He). apply World_eq; simpl; by rewrite ?E.
Qed.

Lemma closed_groups_stay_closed_witness :
  ReplGroup_end sampleClosedGroup = sampleClosedGroup
  ∧ ∀ g',
      g' ∈ allGroups (replElements (step (OpStartGroup "C" true None)
                                      sampleNesting)) →
      getId g' = getId sampleClosedGroup →
      g' = sampleClosedGroup.
Proof.
  destruct (closed_groups_stay_closed sampleNesting
              (OpStartGroup "C" true None) sampleClosedGroup)
    as (H1 & H2 & _).
  - repeat (apply reachable_step; [|reflexivity]). apply reachable_new.
  - reflexivity.
  - vm_compute. apply list_elem_of_In. simpl. right. left. reflexivity.
  - split; [by apply H2|].
    intros g' Hg' Hid. by apply (H1 g' Hg' Hid).
Defined.

(** * Further properties of the model *)

(** ** The retention bound as an invariant *)

Lemma setLast_length x l : length (setLast x l) = length l.
Proof. apply length_insert. Qed.

Lemma addReplElement_bounded e w :
  length (replElements w) ≤ MAX_REPL_LENGTH →
  length (replElements (addReplElement e w)) ≤ MAX_REPL_LENGTH.
Proof.
  intros H. unfold addReplElement. simpl.
  assert (Ht : length (trim (replElements w ++ [e])) ≤ MAX_REPL_LENGTH)
    by (rewrite trim_length; lia).
  destruct (last (replElements w)) as [g|]; [|done].
  destruct (isOpenGroup g); [|done]. by rewrite setLast_length.
Qed.

Lemma pushText_bounded session data sev source w :
  length (replElements w) ≤ MAX_REPL_LENGTH →
  length (replElements (pushText session data sev source w))
  ≤ MAX_REPL_LENGTH.
Proof. intros H. unfold pushText, getUniqueId. by apply addReplElement_bounded. Qed.

Lemma appendData_bounded session data sev source collapse w :
  length (replElements w) ≤ MAX_REPL_LENGTH →
  length (replElements (appendData session data sev source collapse w))
  ≤ MAX_REPL_LENGTH.
Proof.
  intros H. destruct data as [str|e]; simpl;
    [|by apply addReplElement_bounded].
  destruct (last (replElements w)) as [[ps pid pv psev psrc pc pf| | | |]|];
    try by apply pushText_bounded.
  case_bool_decide; [|by apply pushText_bounded].
  destruct (_ && _ && collapse); [simpl; by rewrite setLast_length|].
  destruct (_ && _ && _); [|by apply pushText_bounded].
  simpl. by rewrite setLast_length.
Qed.

(** X1.  No sequence of operations ever leaves more than 10,000 elements
    at top level. *)
Theorem retention_bound_is_invariant (w : World) :
  reachable w → length (replElements w) ≤ MAX_REPL_LENGTH.
Proof.
  induction 1 as [top groups|op w Hw IH Hop]; [simpl; lia|].
  destruct op as [session data sev source collapse|name auto src|
                  |session frame name u1 u2 outcome| |e]; unfold step.
  - destruct data as [str|e].
    + destruct (lastIndexOf clearAnsiSequence str) as [i|] eqn:Hi.
      * rewrite (appendToRepl_clear _ _ _ _ _ _ _ Hi).
        apply appendData_bounded, pushText_bounded.
        rewrite removeReplExpressions_elements. simpl. lia.
      * apply lastIndexOf_None in Hi. rewrite appendToRepl_plain by done.
        by apply appendData_bounded.
    + rewrite appendToRepl_expression. by apply addReplElement_bounded.
  - unfold startGroup. by apply addReplElement_bounded.
  - unfold endGroup. destruct (last (replElements w)) as [g|]; [|done].
    destruct (isGroup g); [|done]. simpl. by rewrite setLast_length.
  - unfold addReplExpression, addReplExpression_resume,
      addReplExpression_begin.
    by do 2 apply addReplElement_bounded.
  - rewrite removeReplExpressions_elements. simpl. lia.
  - by apply addReplElement_bounded.
Qed.

Lemma retention_bound_is_invariant_witness :
  length (replElements (insertAll sampleInputs (newModel 0 0)))
  ≤ MAX_REPL_LENGTH.
Proof.
  apply retention_bound_is_invariant.
  unfold insertAll.
  assert (H : ∀ xs w, reachable w →
                Forall (λ e, isExpressionElement e = true) xs →
                reachable (foldl (λ acc e, addReplElement e acc) w xs)).
  { induction xs as [|x xs IH]; intros w Hw Hxs; [done|].
    apply Forall_cons in Hxs as [Hx Hxs]. simpl. apply IH; [|done].
    by apply (reachable_step (OpAddReplElement x)). }
  apply H; [constructor|].
  unfold sampleInputs. apply Forall_fmap, Forall_forall. by intros i _.
Defined.

(** ** Group identities *)

(** X2.  In every reachable state the groups of the store, at any depth,
    have pairwise distinct ids, each of them "replGroup:" followed by a
    number below [ReplGroup.COUNTER]. *)
Theorem group_ids_are_distinct (w : World) :
  reachable w →
  NoDup (getId <$> allGroups (replElements w))
  ∧ ∀ g, g ∈ allGroups (replElements w) →
      ∃ k, k < COUNTER w ∧ getId g = groupIdOf k.
Proof.
  intros Hw. destruct (reachable_groupsWellFormed w Hw) as (Hnd & Hb & _).
  split; [done|]. intros g Hg. rewrite Forall_forall in Hb. by apply Hb.
Qed.

Lemma group_ids_are_distinct_witness :
  NoDup (getId <$> allGroups (replElements sampleNesting)).
Proof.
  apply group_ids_are_distinct.
  repeat (apply reachable_step; [|reflexivity]). apply reachable_new.
Defined.

(** ** Operations decompose into primitive updates *)

Lemma isExpressionElement_assign sev source e :
  isExpressionElement (assignOutputFields sev source e) = true.
Proof. by destruct e. Qed.

Lemma appendData_prim session data sev source collapse w :
  prim w (appendData session data sev source collapse w).
Proof.
  destruct data as [str|e]; simpl.
  - destruct (last (replElements w))
      as [[ps pid pv psev psrc pc pf| | | |]|] eqn:E;
      try apply prim_text.
    apply last_Some in E as [l0 E].
    case_bool_decide; [|apply prim_text].
    destruct (_ && _ && collapse).
    { rewrite E, setLast_snoc. by apply prim_bump. }
    destruct (negb _ && negb _ && bool_decide (pc = 1)) eqn:Hc;
      [|apply prim_text].
    apply andb_prop in Hc as [_ Hc]. apply bool_decide_eq_true in Hc.
    simpl. rewrite E, setLast_snoc.
    apply (prim_glue w l0 (SimpleReplElement ps pid pv psev psrc pc pf));
      done.
  - apply prim_insert, isExpressionElement_assign.
Qed.

Lemma step_prims op w : validOp op = true → rtc prim w (step op w).
Proof.
  intros Hop.
  destruct op as [session data sev source collapse|name auto src|
                  |session frame name u1 u2 outcome| |e]; unfold step.
  - destruct data as [str|e].
    + destruct (lastIndexOf clearAnsiSequence str) as [i|] eqn:Hi.
      * rewrite (appendToRepl_clear _ _ _ _ _ _ _ Hi).
        eapply rtc_l; [apply prim_clear|].
        eapply rtc_l; [apply prim_text|].
        apply rtc_once, appendData_prim.
      * apply lastIndexOf_None in Hi. rewrite appendToRepl_plain by done.
        apply rtc_once, appendData_prim.
    + apply rtc_once.
      apply (appendData_prim session (Expression e) sev source collapse).
  - apply rtc_once, prim_group.
  - apply rtc_once, prim_end.
  - unfold addReplExpression, addReplExpression_resume,
      addReplExpression_begin.
    eapply rtc_l; [by apply (prim_insert (ReplEvaluationInput u1 name))|].
    apply rtc_once, prim_insert. by destruct outcome.
  - apply rtc_once, prim_clear.
  - apply rtc_once. by apply prim_insert.
Qed.

(** What holds for a fresh model and survives every primitive update holds
    in every reachable state. *)
Lemma reachable_invariant (I : World → Prop) :
  (∀ top groups, I (newModel top groups)) →
  (∀ w w', prim w w' → I w → I w') →
  ∀ w, reachable w → I w.
Proof.
  intros Hnew Hprim w Hw.
  induction Hw as [top groups|op w Hw IH Hop]; [apply Hnew|].
  pose proof (step_prims op w Hop) as Hsteps. clear Hw Hop.
  revert IH. induction Hsteps as [w|w1 w2 w3 H12 _ IH']; [done|].
  intros H1. apply IH'. by eapply Hprim.
Qed.

(** ** Text elements at any depth *)

Lemma textsIn_group n a s ch i e :
  textsIn (ReplGroup n a s ch i e) = allTexts ch.
Proof.
  unfold textsIn, allTexts. rewrite flatten_group.
  by rewrite filter_cons_False.
Qed.

Lemma textsIn_simple e : isSimple e = true → textsIn e = [e].
Proof.
  intros H. unfold textsIn. rewrite flatten_leaf by (by destruct e).
  by rewrite filter_cons_True.
Qed.

Lemma textsIn_plain e :
  isGroup e = false → isSimple e = false → textsIn e = [].
Proof.
  intros Hg Hs. unfold textsIn. rewrite flatten_leaf by done.
  rewrite filter_cons_False; [done|congruence].
Qed.

Lemma allTexts_nil : allTexts [] = [].
Proof. reflexivity. Qed.

Lemma allTexts_app l k : allTexts (l ++ k) = allTexts l ++ allTexts k.
Proof. unfold allTexts. by rewrite flattenAll_app, filter_app. Qed.

Lemma allTexts_cons x l : allTexts (x :: l) = textsIn x ++ allTexts l.
Proof. unfold allTexts, textsIn. by rewrite flattenAll_cons, filter_app. Qed.

Lemma allTexts_singleton x : allTexts [x] = textsIn x.
Proof. by rewrite allTexts_cons, allTexts_nil, app_nil_r. Qed.

Lemma allTexts_drop k : ∀ l, ∃ m, allTexts (drop k l) = drop m (allTexts l).
Proof.
  induction k as [|k IH]; intros l; [by exists 0|].
  destruct l as [|x l]; [by exists 0|]. simpl.
  destruct (IH l) as [m ->]. exists (length (textsIn x) + m).
  rewrite allTexts_cons. by rewrite drop_app_add.
Qed.

(** Groups are not text: [addChild] only adds the texts of the child. *)
Lemma textsIn_addChild g : ∀ c,
  isOpenGroup g = true →
  textsIn (ReplGroup_addChild c g) = textsIn g ++ textsIn c.
Proof.
  induction g as [e He|n a s ch id en IH] using IReplElement_tree_ind;
    intros c Hg.
  { by destruct e. }
  destruct (snoc_cases ch) as [->|(l0 & x & ->)].
  - by rewrite addChild_nil, !textsIn_group, allTexts_singleton.
  - rewrite addChild_snoc, !textsIn_group.
    rewrite Forall_app, Forall_singleton in IH. destruct IH as [_ IHx].
    rewrite !allTexts_app, allTexts_singleton.
    destruct (isOpenGroup x) eqn:Hx.
    + by rewrite allTexts_singleton, (IHx c eq_refl), app_assoc.
    + by rewrite allTexts_cons, allTexts_singleton, app_assoc.
Qed.

Lemma textsIn_end g : textsIn (ReplGroup_end g) = textsIn g.
Proof.
  induction g as [e He|n a s ch id en IH] using IReplElement_tree_ind.
  { by destruct e. }
  destruct (snoc_cases ch) as [->|(l0 & x & ->)].
  - by rewrite end_nil, !textsIn_group.
  - rewrite end_snoc.
    rewrite Forall_app, Forall_singleton in IH. destruct IH as [_ IHx].
    destruct (isOpenGroup x); [|by rewrite !textsIn_group].
    by rewrite !textsIn_group, !allTexts_app, !allTexts_singleton, IHx.
Qed.

Lemma allTexts_addReplElement e w :
  ∃ m,
    allTexts (replElements (addReplElement e w))
    = drop m (allTexts (replElements w) ++ textsIn e).
Proof.
  destruct (lastIsOpenGroup (replElements w)) eqn:Hlast.
  - unfold lastIsOpenGroup in Hlast.
    destruct (last (replElements w)) as [g|] eqn:E; [|done].
    apply last_Some in E as [l0 E].
    rewrite (addReplElement_nested e w l0 g E Hlast), E. simpl.
    exists 0. simpl.
    rewrite !allTexts_app, !allTexts_singleton, textsIn_addChild by done.
    by rewrite app_assoc.
  - rewrite (addReplElement_top e w Hlast). simpl. rewrite trim_drop.
    destruct (allTexts_drop
                (length (replElements w ++ [e]) - MAX_REPL_LENGTH)
                (replElements w ++ [e])) as [m ->].
    exists m. by rewrite allTexts_app, allTexts_singleton.
Qed.

Lemma allTexts_endGroup w :
  allTexts (replElements (endGroup w)) = allTexts (replElements w).
Proof.
  unfold endGroup. destruct (last (replElements w)) as [g|] eqn:E; [|done].
  destruct (isGroup g); [|done]. simpl.
  apply last_Some in E as [l0 E]. rewrite E, setLast_snoc.
  by rewrite !allTexts_app, !allTexts_singleton, textsIn_end.
Qed.

Lemma allTexts_snoc_simple l0 p :
  isSimple p = true → allTexts (l0 ++ [p]) = allTexts l0 ++ [p].
Proof. intros H. by rewrite allTexts_app, allTexts_singleton, textsIn_simple. Qed.

Lemma uniqueId_not_groupId a b : uniqueIdOf a ≠ groupIdOf b.
Proof. discriminate. Qed.

Lemma textIds_grow c c' (old extra : list IReplElement) m :
  NoDup (getId <$> old) →
  Forall (λ t, ∃ k, k < c ∧ getId t = uniqueIdOf k) old →
  c ≤ c' →
  (extra = [] ∨ ∃ t, extra = [t] ∧ getId t = uniqueIdOf c ∧ c < c') →
  NoDup (getId <$> drop m (old ++ extra))
  ∧ Forall (λ t, ∃ k, k < c' ∧ getId t = uniqueIdOf k)
      (drop m (old ++ extra)).
Proof.
  intros Hnd Hb Hc Hextra.
  assert (Hb' : Forall (λ t, ∃ k, k < c' ∧ getId t = uniqueIdOf k) old).
  { eapply Forall_impl; [exact Hb|]. intros t (k & ? & ?). exists k.
    split; [lia|done]. }
  split.
  - rewrite fmap_drop. eapply sublist_NoDup; [|apply sublist_drop].
    rewrite fmap_app. apply NoDup_app. split; [done|]. split.
    + intros x [t [-> Ht]]%list_elem_of_fmap.
      destruct Hextra as [->|(t0 & -> & Hid & _)]; [apply not_elem_of_nil|].
      simpl. intros Hx%list_elem_of_singleton.
      rewrite Forall_forall in Hb. destruct (Hb t Ht) as (k & Hk & Htk).
      rewrite Htk, Hid in Hx. apply uniqueIdOf_inj in Hx. lia.
    + destruct Hextra as [->|(t0 & -> & _)];
        [constructor|apply NoDup_singleton].
  - apply Forall_drop, Forall_app. split; [done|].
    destruct Hextra as [->|(t0 & -> & Hid & Hlt)]; [constructor|].
    apply Forall_singleton. by exists c.
Qed.

Lemma textsIn_expression e : isExpressionElement e = true → textsIn e = [].
Proof. intros H. apply textsIn_plain; by destruct e. Qed.

Lemma prim_textIdsWellFormed w w' :
  prim w w' → textIdsWellFormed w → textIdsWellFormed w'.
Proof.
  intros Hprim [Hnd Hb]. unfold textIdsWellFormed.
  destruct Hprim as [e w He|session data sev source w|name auto src w|w|w
                    |w l0 ps pid pv psev psrc pc pf E
                    |w l0 p session text sev source E Hp Hc].
  - destruct (allTexts_addReplElement e w) as [m ->].
    apply (textIds_grow _ _ _ _ _ Hnd Hb); [done|left].
    by apply textsIn_expression.
  - unfold pushText, getUniqueId.
    set (t := SimpleReplElement _ _ _ _ _ _ _).
    set (w1 := Build_World _ _ _ _).
    destruct (allTexts_addReplElement t w1) as [m ->].
    rewrite (textsIn_simple t eq_refl).
    apply (textIds_grow _ _ _ _ _ Hnd Hb); simpl; [lia|right].
    exists t. split; [done|]. split; [done|lia].
  - unfold startGroup.
    set (g := ReplGroup _ _ _ _ _ _). set (w0 := Build_World _ _ _ _).
    destruct (allTexts_addReplElement g w0) as [m ->].
    apply (textIds_grow _ _ _ _ _ Hnd Hb); [done|left].
    unfold g. by rewrite textsIn_group.
  - rewrite allTexts_endGroup.
    assert (topReplElementCounter (endGroup w) = topReplElementCounter w)
      as ->; [|done].
    unfold endGroup. destruct (last (replElements w)) as [g|]; [|done].
    by destruct (isGroup g).
  - rewrite removeReplExpressions_elements. split; constructor.
  - simpl. rewrite E in Hnd, Hb.
    rewrite allTexts_snoc_simple in Hnd, Hb |- * by done.
    rewrite fmap_app in Hnd |- *. split; [done|].
    rewrite Forall_app, Forall_singleton in Hb |- *. done.
  - simpl. rewrite E in Hnd, Hb.
    rewrite allTexts_snoc_simple in Hnd, Hb by done.
    rewrite allTexts_snoc_simple by done.
    rewrite fmap_app, NoDup_app in Hnd. destruct Hnd as (Hnd & _ & _).
    rewrite Forall_app in Hb. destruct Hb as [Hb _].
    rewrite <- (app_nil_r (_ ++ [_])), <- (drop_0 (_ ++ _)).
    rewrite app_nil_r.
    apply (textIds_grow _ _ _ _ 0 Hnd Hb); [lia|right].
    eexists. split; [done|]. split; [done|lia].
Qed.

(** X3.  In every reachable state the text elements of the store, inside
    groups as well, have pairwise distinct ids, each "topReplElement:"
    followed by a number below the counter, and none of them is the id of
    a group. *)
Theorem text_ids_are_distinct (w : World) :
  reachable w →
  NoDup (getId <$> allTexts (replElements w))
  ∧ (∀ t, t ∈ allTexts (replElements w) →
       ∃ k, k < topReplElementCounter w ∧ getId t = uniqueIdOf k)
  ∧ (∀ t g, t ∈ allTexts (replElements w) →
       g ∈ allGroups (replElements w) → getId t ≠ getId g).
Proof.
  intros Hw.
  assert (Hinv : textIdsWellFormed w).
  { revert w Hw. apply reachable_invariant.
    - intros top groups. split; constructor.
    - apply prim_textIdsWellFormed. }
  destruct Hinv as [Hnd Hb]. rewrite Forall_forall in Hb.
  split; [done|]. split; [done|].
  intros t g Ht Hg Hid.
  destruct (Hb t Ht) as (k & _ & Hk).
  destruct (reachable_groupsWellFormed w Hw) as (_ & Hgroups & _).
  rewrite Forall_forall in Hgroups.
  destruct (Hgroups g Hg) as (k' & _ & Hk').
  rewrite Hk, Hk' in Hid. by apply uniqueId_not_groupId in Hid.
Qed.

Lemma sampleConsole_reachable : reachable sampleConsole.
Proof.
  unfold sampleConsole.
  repeat (apply reachable_step; [|reflexivity]). apply reachable_new.
Qed.

Lemma text_ids_are_distinct_witness :
  NoDup (getId <$> allTexts (replElements sampleConsole)).
Proof. apply text_ids_are_distinct, sampleConsole_reachable. Defined.

(** ** Repeat counts *)

Lemma counts_addReplElement e w :
  Forall (λ t, getCount t = 1 ∧ getCountFired t = 0) (textsIn e) →
  countsWellFormed w → countsWellFormed (addReplElement e w).
Proof.
  intros He [Hc Hq]. split.
  - destruct (allTexts_addReplElement e w) as [m ->].
    apply Forall_drop, Forall_app. split; [done|].
    eapply Forall_impl; [exact He|]. intros t [-> ->]. lia.
  - assert (He1 : Forall (λ t, getCount t = 1) (textsIn e)).
    { eapply Forall_impl; [exact He|]. by intros t [? _]. }
    unfold addReplElement. simpl.
    assert (Ht : Forall (λ e, isGroup e = true →
                              Forall (λ t, getCount t = 1) (textsIn e))
                   (trim (replElements w ++ [e]))).
    { rewrite trim_drop. apply Forall_drop, Forall_app. split; [done|].
      by apply Forall_singleton. }
    destruct (last (replElements w)) as [g|] eqn:E; [|done].
    destruct (isOpenGroup g) eqn:Hg; [|done].
    apply Forall_insert; [done|]. intros _.
    rewrite textsIn_addChild by done. apply Forall_app. split; [|done].
    apply last_Some_elem_of in E. rewrite Forall_forall in Hq.
    apply (Hq g E). by apply isOpenGroup_isGroup.
Qed.

Lemma prim_countsWellFormed w w' :
  prim w w' → countsWellFormed w → countsWellFormed w'.
Proof.
  intros Hprim Hinv.
  destruct Hprim as [e w He|session data sev source w|name auto src w|w|w
                    |w l0 ps pid pv psev psrc pc pf E
                    |w l0 p session text sev source E Hp Hc].
  - apply counts_addReplElement; [|done].
    rewrite textsIn_expression by done. constructor.
  - unfold pushText, getUniqueId. apply counts_addReplElement; [|done].
    rewrite textsIn_simple by done. by apply Forall_singleton.
  - unfold startGroup. apply counts_addReplElement; [|done].
    rewrite textsIn_group. constructor.
  - destruct Hinv as [Hc Hq]. split; [by rewrite allTexts_endGroup|].
    unfold endGroup. destruct (last (replElements w)) as [g|] eqn:E; [|done].
    destruct (isGroup g) eqn:Hg; [|done]. simpl.
    apply Forall_insert; [done|]. intros _. rewrite textsIn_end.
    apply last_Some_elem_of in E. rewrite Forall_forall in Hq.
    by apply (Hq g E).
  - unfold countsWellFormed.
    rewrite removeReplExpressions_elements. split; constructor.
  - destruct Hinv as [Hc Hq]. unfold countsWellFormed. simpl.
    rewrite E in Hc, Hq.
    rewrite allTexts_snoc_simple, Forall_app, Forall_singleton in Hc |- *
      by done.
    rewrite Forall_app, Forall_singleton in Hq |- *.
    destruct Hc as [Hc [Hp1 Hp2]], Hq as [Hq _]. simpl in *.
    split; [split; [done|lia]|by split].
  - destruct Hinv as [Hcs Hq]. unfold countsWellFormed. simpl.
    rewrite E in Hcs, Hq.
    rewrite allTexts_snoc_simple, Forall_app, Forall_singleton in Hcs
      by done.
    rewrite allTexts_snoc_simple, Forall_app, Forall_singleton by done.
    rewrite Forall_app, Forall_singleton in Hq |- *.
    destruct Hcs as [Hcs _], Hq as [Hq _]. simpl.
    split; [split; [done|lia]|by split].
Qed.

(** X4.  In every reachable state each text element, at any depth, has a
    count of at least 1 and has fired its count event exactly [count - 1]
    times; and a text element inside a group always has count 1: the
    merging of identical lines never reaches into a group. *)
Theorem counts_follow_the_count_events (w : World) :
  reachable w →
  (∀ t, t ∈ allTexts (replElements w) →
     1 ≤ getCount t ∧ getCountFired t = getCount t - 1)
  ∧ (∀ g t, g ∈ replElements w → isGroup g = true → t ∈ textsIn g →
       getCount t = 1).
Proof.
  intros Hw.
  assert (Hinv : countsWellFormed w).
  { revert w Hw. apply reachable_invariant.
    - intros top groups. split; constructor.
    - apply prim_countsWellFormed. }
  destruct Hinv as [Hc Hq]. rewrite Forall_forall in Hc, Hq. split.
  - intros t Ht. destruct (Hc t Ht). lia.
  - intros g t Hg Hgroup Ht. specialize (Hq g Hg Hgroup).
    rewrite Forall_forall in Hq. by apply Hq.
Qed.

Lemma counts_follow_the_count_events_witness :
  Forall (λ t, 1 ≤ getCount t ∧ getCountFired t = getCount t - 1)
    (allTexts (replElements sampleConsole)).
Proof.
  apply Forall_forall.
  apply (counts_follow_the_count_events sampleConsole).
  apply sampleConsole_reachable.
Defined.

(** ** Opening and closing groups *)

Lemma end_addChild_new_group g : ∀ n a s i,
  isOpenGroup g = true →
  ReplGroup_end (ReplGroup_addChild (ReplGroup n a s [] i false) g)
  = ReplGroup_addChild (ReplGroup n a s [] i true) g.
Proof.
  induction g as [e He|gn ga gs ch id en IH] using IReplElement_tree_ind;
    intros n a s i Hg.
  { by destruct e. }
  destruct (snoc_cases ch) as [->|(l0 & x & ->)].
  - rewrite !addChild_nil.
    exact (end_snoc gn ga gs [] (ReplGroup n a s [] i false) id en).
  - rewrite !addChild_snoc.
    rewrite Forall_app, Forall_singleton in IH. destruct IH as [_ IHx].
    destruct (isOpenGroup x) eqn:Hx.
    + rewrite end_snoc, isOpenGroup_addChild, Hx. by rewrite IHx.
    + replace (l0 ++ [x; ReplGroup n a s [] i false])
        with ((l0 ++ [x]) ++ [ReplGroup n a s [] i false])
        by (by rewrite <- app_assoc).
      rewrite end_snoc. simpl. rewrite end_nil. by rewrite <- app_assoc.
Qed.

(** X5.  A group opened and ended at once: whatever the store holds,
    [startGroup] followed by [endGroup] leaves the elements that the
    insert of an empty, already closed group would leave, after one
    change event. *)
Theorem group_opened_then_ended (name : string) (autoExpand : bool)
    (sourceData : option IReplElementSource) (w : World) :
  let closed :=
    ReplGroup name autoExpand sourceData [] (groupIdOf (COUNTER w)) true in
  let w' := endGroup (startGroup name autoExpand sourceData w) in
  replElements w' = replElements (addReplElement closed w)
  ∧ changeFired w' = S (changeFired w)
  ∧ COUNTER w' = S (COUNTER w).
Proof.
  cbv zeta. unfold startGroup.
  set (g0 := ReplGroup name autoExpand sourceData [] _ false).
  set (w0 := Build_World _ _ _ _).
  assert (E0 : replElements w0 = replElements w) by done.
  destruct (lastIsOpenGroup (replElements w)) eqn:Hlast.
  - unfold lastIsOpenGroup in Hlast.
    destruct (last (replElements w)) as [g|] eqn:E; [|done].
    apply last_Some in E as [l0 E].
    rewrite (addReplElement_nested g0 w0 l0 g) by done.
    rewrite (addReplElement_nested _ w l0 g) by done.
    erewrite endGroup_group;
      [|reflexivity|by rewrite isGroup_addChild; apply isOpenGroup_isGroup].
    simpl. unfold g0. by rewrite end_addChild_new_group.
  - rewrite (addReplElement_top g0 w0) by done.
    rewrite (addReplElement_top _ w) by done.
    erewrite endGroup_group; [|simpl; apply trim_snoc|done].
    simpl. by rewrite trim_snoc.
Qed.

Lemma addChild_flat c n a s ch i e :
  lastIsOpenGroup ch = false →
  ReplGroup_addChild c (ReplGroup n a s ch i e)
  = ReplGroup n a s (ch ++ [c]) i e.
Proof.
  intros H. destruct (snoc_cases ch) as [->|(l0 & x & ->)]; [done|].
  rewrite lastIsOpenGroup_snoc in H.
  by rewrite addChild_snoc, H, <- app_assoc.
Qed.

Lemma insertAll_into_group xs : ∀ w l0 n a s ch i,
  replElements w = l0 ++ [ReplGroup n a s ch i false] →
  lastIsOpenGroup ch = false →
  Forall (λ e, isOpenGroup e = false) xs →
  replElements (insertAll xs w)
  = l0 ++ [ReplGroup n a s (ch ++ xs) i false]
  ∧ changeFired (insertAll xs w) = changeFired w + length xs
  ∧ COUNTER (insertAll xs w) = COUNTER w.
Proof.
  induction xs as [|x xs IH]; intros w l0 n a s ch i E Hch Hxs.
  - simpl. rewrite app_nil_r. split; [done|]. split; [lia|done].
  - apply Forall_cons in Hxs as [Hx Hxs].
    change (insertAll (x :: xs) w) with (insertAll xs (addReplElement x w)).
    rewrite (addReplElement_nested x w l0 _ E) by done.
    rewrite addChild_flat by done.
    destruct (IH (fire (setElements
                          (l0 ++ [ReplGroup n a s (ch ++ [x]) i false]) w))
                l0 n a s (ch ++ [x]) i) as (H1 & H2 & H3);
      [done|by rewrite lastIsOpenGroup_snoc|done|].
    rewrite H1, H2, H3, <- app_assoc. simpl. split; [done|]. split; [lia|done].
Qed.

(** X6.  Between [startGroup] and [endGroup] at top level everything goes
    into the group: the elements inserted (none of them an open group)
    become its children, all of them and in order, however many they are,
    while the top level grows by the one slot of the group; the change
    event fires once for the group and once per element. *)
Theorem group_collects_its_elements (name : string) (autoExpand : bool)
    (sourceData : option IReplElementSource) (xs : list IReplElement)
    (w : World) :
  lastIsOpenGroup (replElements w) = false →
  forallb (λ e, negb (isOpenGroup e)) xs = true →
  let w' :=
    endGroup (insertAll xs (startGroup name autoExpand sourceData w)) in
  replElements w'
  = drop (S (length (replElements w)) - MAX_REPL_LENGTH) (replElements w)
    ++ [ReplGroup name autoExpand sourceData xs (groupIdOf (COUNTER w))
          true]
  ∧ changeFired w' = changeFired w + S (length xs).
Proof.
  intros Hlast Hall. cbv zeta.
  assert (Hxs : Forall (λ e, isOpenGroup e = false) xs).
  { apply Forall_forall. intros e He. apply list_elem_of_In in He.
    rewrite forallb_forall in Hall. specialize (Hall e He).
    by destruct (isOpenGroup e). }
  set (w1 := startGroup name autoExpand sourceData w).
  assert (E1 : replElements w1
               = drop (S (length (replElements w)) - MAX_REPL_LENGTH)
                   (replElements w)
                 ++ [ReplGroup name autoExpand sourceData []
                       (groupIdOf (COUNTER w)) false]).
  { unfold w1, startGroup. rewrite addReplElement_top by done.
    simpl. apply trim_snoc. }
  destruct (insertAll_into_group xs w1 _ _ _ _ _ _ E1 eq_refl Hxs)
    as (H1 & H2 & _).
  simpl in H1. erewrite endGroup_group; [|exact H1|done].
  simpl. rewrite H2. split; [|unfold w1; simpl; lia].
  f_equal. f_equal.
  destruct (snoc_cases xs) as [->|(l & x & ->)]; [done|].
  rewrite Forall_app, Forall_singleton in Hxs. destruct Hxs as [_ Hx].
  by rewrite end_snoc, Hx.
Qed.

Lemma group_collects_its_elements_witness :
  length (getChildren
            (default (ReplEvaluationInput "" "")
               (last (replElements
                        (endGroup (insertAll sampleInputs
                                     (startGroup "A" true None
                                        (newModel 0 0))))))))
  = 10001.
Proof.
  destruct (group_collects_its_elements "A" true None sampleInputs
              (newModel 0 0)) as [E _].
  - reflexivity.
  - vm_compute. reflexivity.
  - rewrite E, last_snoc. vm_compute. reflexivity.
Defined.

(** ** Nesting depth *)

Lemma depthOf_group_snoc n a s l0 x i :
  depthOf (ReplGroup n a s (l0 ++ [x]) i false) = S (depthOf x).
Proof.
  unfold depthOf. simpl. rewrite innermostPath_snoc.
  by destruct (isOpenGroup x).
Qed.

Lemma depthOf_closed g : isOpenGroup g = false → depthOf g = 0.
Proof. unfold depthOf. by intros ->. Qed.

Lemma depthOf_end g : depthOf (ReplGroup_end g) = depthOf g - 1.
Proof.
  induction g as [e He|n a s ch id en IH] using IReplElement_tree_ind.
  { by destruct e. }
  destruct (snoc_cases ch) as [->|(l0 & x & ->)].
  - rewrite end_nil. by destruct en.
  - rewrite end_snoc.
    rewrite Forall_app, Forall_singleton in IH. destruct IH as [_ IHx].
    destruct en.
    { rewrite (depthOf_closed (ReplGroup n a s (l0 ++ [x]) id true)) by done.
      by destruct (isOpenGroup x). }
    rewrite depthOf_group_snoc.
    destruct (isOpenGroup x) eqn:Hx.
    + rewrite depthOf_group_snoc, IHx. unfold depthOf. rewrite Hx. lia.
    + rewrite (depthOf_closed x Hx). done.
Qed.

Lemma depthOf_addChild g : ∀ c,
  isOpenGroup g = true →
  depthOf (ReplGroup_addChild c g) = depthOf g + depthOf c.
Proof.
  induction g as [e He|n a s ch id en IH] using IReplElement_tree_ind;
    intros c Hg.
  { by destruct e. }
  assert (en = false) as -> by (by destruct en).
  destruct (snoc_cases ch) as [->|(l0 & x & ->)].
  - rewrite addChild_nil. change [c] with ([] ++ [c]).
    by rewrite depthOf_group_snoc.
  - rewrite addChild_snoc, depthOf_group_snoc.
    rewrite Forall_app, Forall_singleton in IH. destruct IH as [_ IHx].
    destruct (isOpenGroup x) eqn:Hx.
    + by rewrite depthOf_group_snoc, IHx.
    + replace (l0 ++ [x; c]) with ((l0 ++ [x]) ++ [c])
        by (by rewrite <- app_assoc).
      by rewrite depthOf_group_snoc, (depthOf_closed x Hx).
Qed.

Lemma openDepth_snoc l x : openDepth (l ++ [x]) = depthOf x.
Proof. unfold openDepth. by rewrite last_snoc. Qed.

Lemma openDepth_closed l : lastIsOpenGroup l = false → openDepth l = 0.
Proof.
  unfold openDepth, lastIsOpenGroup. destruct (last l); [|done].
  by intros ->.
Qed.

Lemma openDepth_addReplElement c w :
  openDepth (replElements (addReplElement c w))
  = openDepth (replElements w) + depthOf c.
Proof.
  destruct (lastIsOpenGroup (replElements w)) eqn:Hlast.
  - unfold lastIsOpenGroup in Hlast.
    destruct (last (replElements w)) as [g|] eqn:E; [|done].
    apply last_Some in E as [l0 E].
    rewrite (addReplElement_nested c w l0 g E Hlast), E. simpl.
    by rewrite !openDepth_snoc, depthOf_addChild.
  - rewrite (addReplElement_top c w Hlast). simpl.
    by rewrite trim_snoc, openDepth_snoc, (openDepth_closed _ Hlast).
Qed.

Lemma openDepth_endGroup w :
  openDepth (replElements (endGroup w)) = openDepth (replElements w) - 1.
Proof.
  unfold endGroup. destruct (last (replElements w)) as [g|] eqn:E.
  - apply last_Some in E as [l0 E].
    destruct (isGroup g) eqn:Hg.
    + simpl. rewrite E, setLast_snoc, !openDepth_snoc. apply depthOf_end.
    + rewrite E, openDepth_snoc, depthOf_closed; [done|]. by destruct g.
  - apply last_None in E. by rewrite E.
Qed.

Lemma openDepth_endGroups m w :
  openDepth (replElements (Nat.iter m endGroup w))
  = openDepth (replElements w) - m.
Proof.
  induction m as [|m IH]; [simpl; lia|].
  simpl. rewrite openDepth_endGroup, IH. lia.
Qed.

(** X7.  Each [endGroup] closes exactly one level of nesting: after [m]
    calls the number of groups still open one inside the other is what it
    was, less [m], and 0 once there is nothing left to close. *)
Theorem endGroup_closes_one_level (m : nat) (w : World) :
  openDepth (replElements (Nat.iter m endGroup w))
  = openDepth (replElements w) - m
  ∧ changeFired (Nat.iter m endGroup w) = changeFired w.
Proof.
  split; [apply openDepth_endGroups|].
  induction m as [|m IH]; [done|].
  simpl. rewrite <- IH. unfold endGroup.
  destruct (last _) as [g|]; [|done]. by destruct (isGroup g).
Qed.

(** X8.  [startGroup] opens one more level, whatever the store holds; an
    inserted element that is not an open group leaves the depth as it is;
    the next insert lands at top level exactly when the depth is 0; and
    [n] groups opened one after the other are all closed again by [n]
    [endGroup] calls. *)
Theorem nesting_is_balanced (w : World) :
  (∀ name autoExpand sourceData,
     openDepth (replElements (startGroup name autoExpand sourceData w))
     = S (openDepth (replElements w)))
  ∧ (∀ e, isOpenGroup e = false →
       openDepth (replElements (addReplElement e w))
       = openDepth (replElements w))
  ∧ (openDepth (replElements w) = 0 ↔
     lastIsOpenGroup (replElements w) = false)
  ∧ (∀ n name autoExpand sourceData,
       openDepth
         (replElements
            (Nat.iter n endGroup
               (Nat.iter n (startGroup name autoExpand sourceData) w)))
       = openDepth (replElements w)).
Proof.
  assert (Hstart : ∀ name autoExpand sourceData w0,
            openDepth (replElements (startGroup name autoExpand sourceData w0))
            = S (openDepth (replElements w0))).
  { intros name autoExpand sourceData w0. unfold startGroup.
    rewrite openDepth_addReplElement. simpl.
    change (depthOf _) with 1. lia. }
  split; [intros; apply Hstart|]. split; [|split].
  - intros e He. rewrite openDepth_addReplElement, depthOf_closed by done.
    lia.
  - unfold openDepth, lastIsOpenGroup.
    destruct (last (replElements w)) as [g|]; [|done].
    by destruct (isOpenGroup g).
  - intros n name autoExpand sourceData.
    rewrite openDepth_endGroups.
    assert (openDepth (replElements
                         (Nat.iter n (startGroup name autoExpand sourceData) w))
            = n + openDepth (replElements w)) as ->; [|lia].
    induction n as [|n IH]; [done|].
    by rewrite Nat.iter_succ, Hstart, IH.
Qed.

Lemma nesting_is_balanced_witness :
  openDepth (replElements
               (addReplElement (ReplEvaluationInput "u" "1+1") sampleConsole))
  = openDepth (replElements sampleConsole).
Proof.
  destruct (nesting_is_balanced sampleConsole) as (_ & Hkeep & _).
  exact (Hkeep (ReplEvaluationInput "u" "1+1") eq_refl).
Defined.

(** ** Raw objects: expanding *)

Lemma RawObject_child_id e index child :
  RawObject.getChildren e !! index = Some child →
  getId child = getId e +:+ ":" +:+ pretty index.
Proof.
  destruct e as [|id name v sd an sv| | |]; try done.
  destruct v; simpl; try done;
    rewrite list_lookup_imap;
    (destruct (_ !! index); simpl; [|done]);
    by intros [= <-].
Qed.

(** X9.  A raw object says it has children exactly when expanding it
    yields some; expanding yields one child per array element or own
    property, up to 1000. *)
Theorem raw_object_expands_iff_hasChildren (e : IReplElement) :
  (RawObject.hasChildren e = true ↔ RawObject.getChildren e ≠ [])
  ∧ ∀ id name v sd an sv,
      e = RawObjectReplElement id name v sd an sv →
      length (RawObject.getChildren e)
      = min RawObject.MAX_CHILDREN
          (length (RawObject.arrayItems v)
           + length (RawObject.getOwnPropertyNames v)).
Proof.
  split.
  - destruct e as [|id name v sd an sv| | |]; try done.
    destruct v as [|items|props| |]; simpl; try done.
    + rewrite orb_false_r, bool_decide_eq_true.
      destruct items; simpl; [split; [lia|done]|split; [done|lia]].
    + rewrite bool_decide_eq_true.
      destruct props; simpl; [split; [lia|done]|split; [done|lia]].
  - intros id name v sd an sv ->.
    destruct v; cbn -[Nat.min RawObject.MAX_CHILDREN];
      rewrite ?length_imap, ?length_take; lia.
Qed.

Lemma string_length_app (a b : string) :
  String.length (a +:+ b) = String.length a + String.length b.
Proof. induction a as [|c a IH]; simpl; [done|by rewrite IH]. Qed.

(** X10.  The children of a raw object have pairwise distinct ids, none of
    them the id of the parent. *)
Theorem raw_object_child_ids_distinct (e : IReplElement) :
  NoDup (getId <$> RawObject.getChildren e)
  ∧ ∀ child, child ∈ RawObject.getChildren e → getId child ≠ getId e.
Proof.
  split.
  - apply NoDup_alt. intros i j x.
    rewrite !list_lookup_fmap.
    destruct (RawObject.getChildren e !! i) as [ci|] eqn:Ei; [|done].
    destruct (RawObject.getChildren e !! j) as [cj|] eqn:Ej; [|done].
    simpl. intros [= <-] [= Hj].
    rewrite (RawObject_child_id _ _ _ Ei), (RawObject_child_id _ _ _ Ej) in Hj.
    apply String.app_inj, String.app_inj in Hj.
    symmetry. by apply pretty_nat_inj in Hj.
  - intros child [index Hc]%list_elem_of_lookup Hid.
    rewrite (RawObject_child_id _ _ _ Hc) in Hid.
    apply (f_equal String.length) in Hid.
    rewrite !string_length_app in Hid. simpl in Hid. lia.
Qed.

Lemma raw_object_expands_iff_hasChildren_witness :
  length (RawObject.getChildren sampleArray) = 3.
Proof.
  destruct (raw_object_expands_iff_hasChildren sampleArray) as [_ H].
  by rewrite (H _ _ _ _ _ _ eq_refl).
Defined.

Lemma raw_object_child_ids_distinct_witness :
  RawObjectReplElement "root:1" "1" (JsString "x") None None None
  ∈ RawObject.getChildren sampleArray
  ∧ "root:1" ≠ getId sampleArray.
Proof.
  assert (H : RawObjectReplElement "root:1" "1" (JsString "x") None None None
              ∈ RawObject.getChildren sampleArray).
  { apply list_elem_of_In. vm_compute. right. left. reflexivity. }
  split; [exact H|].
  apply (proj2 (raw_object_child_ids_distinct sampleArray) _ H).
Defined.

(** ** Text elements rendered *)

Lemma endsWith_cons c s :
  s ≠ "" → endsWith (String c s) LF = endsWith s LF.
Proof.
  intros Hs. destruct s as [|d s]; [done|]. unfold endsWith. simpl.
  by rewrite Nat.sub_0_r.
Qed.

Lemma string_app_not_empty (a b : string) : b ≠ "" → a +:+ b ≠ "".
Proof. intros Hb. destruct a; [done|discriminate]. Qed.

Lemma endsWith_app a b : b ≠ "" → endsWith (a +:+ b) LF = endsWith b LF.
Proof.
  intros Hb. induction a as [|c a IH]; [done|]. simpl.
  rewrite endsWith_cons; [done|]. by apply string_app_not_empty.
Qed.

Lemma string_app_empty_r (a : string) : a +:+ "" = a.
Proof. induction a as [|c a IH]; simpl; [done|by rewrite IH]. Qed.

Lemma string_app_assoc (a b c : string) : (a +:+ b) +:+ c = a +:+ (b +:+ c).
Proof. induction a as [|x a IH]; simpl; [done|by rewrite IH]. Qed.

Lemma copies_S n sep s :
  1 ≤ n → copies (S n) sep s = copies n sep s +:+ (sep +:+ s).
Proof. intros Hn. destruct n; [lia|done]. Qed.

Lemma copies_endsWith n sep s :
  1 ≤ n → s ≠ "" → endsWith (copies n sep s) LF = endsWith s LF.
Proof.
  intros Hn Hs. destruct n as [|[|n]]; [lia|done|].
  rewrite copies_S by lia. rewrite <- string_app_assoc.
  by apply endsWith_app.
Qed.

Lemma repeatValue_copies n : ∀ k value,
  1 ≤ k → value ≠ "" →
  repeatValue n value
    (copies k (if endsWith value LF then "" else LF) value)
  = copies (k + n) (if endsWith value LF then "" else LF) value.
Proof.
  induction n as [|n IH]; intros k value Hk Hv; simpl.
  - by rewrite Nat.add_0_r.
  - rewrite copies_endsWith by done.
    rewrite <- copies_S by done. rewrite IH by (done || lia).
    f_equal. lia.
Qed.

Lemma repeatValue_empty n : repeatValue n "" LF = LF.
Proof. induction n as [|n IH]; [done|]. exact IH. Qed.

(** X11.  A text element repeated [count] times renders as [count] copies
    of its text, one per line: joined by newlines when the text does not
    end in one, and put end to end when it does; an empty text repeated
    twice or more renders as a single newline.  With [includeSource] the
    name of the source, when there is one, follows after a space. *)
Theorem repeated_text_renders_one_per_line (session : IDebugSession)
    (id value : string) (sev : severity)
    (sourceData : option IReplElementSource) (count fired : nat)
    (includeSource : bool) :
  1 ≤ count →
  let e := SimpleReplElement session id value sev sourceData count fired in
  (value ≠ "" →
     toString includeSource e
     = copies count (if endsWith value LF then "" else LF) value
       +:+ sourceSuffix includeSource sourceData)
  ∧ (value = "" →
       toString includeSource e
       = (if bool_decide (2 ≤ count) then LF else "")
         +:+ sourceSuffix includeSource sourceData).
Proof.
  intros Hc e. subst e. cbn [toString]. split.
  - intros Hv. f_equal.
    etrans; [exact (repeatValue_copies (count - 1) 1 value (le_n 1) Hv)|].
    f_equal. lia.
  - intros ->. f_equal. destruct count as [|[|n]]; [lia|done|].
    rewrite bool_decide_true by lia.
    replace (S (S n) - 1) with (S n) by lia. apply repeatValue_empty.
Qed.

Lemma repeated_text_renders_one_per_line_witness :
  toString true
    (SimpleReplElement 0 "topReplElement:0" "ping" Info
       (Some {| source_name := "app.js"; source_uri := "file:///app.js";
                lineNumber := 3; column := 1 |}) 3 2)
  = "ping" +:+ LF +:+ "ping" +:+ LF +:+ "ping" +:+ " app.js".
Proof.
  destruct (repeated_text_renders_one_per_line 0 "topReplElement:0" "ping"
              Info (Some {| source_name := "app.js";
                            source_uri := "file:///app.js";
                            lineNumber := 3; column := 1 |}) 3 2 true)
    as [H _]; [lia|].
  rewrite H by discriminate. vm_compute. reflexivity.
Defined.

(** ** What the clear-screen sequence leaves behind *)

Lemma appendToRepl_clear_elements session data sev source collapse w i :
  lastIndexOf clearAnsiSequence data = Some i →
  replElements (appendToRepl session (Text data) sev source collapse w)
  = clearedElements session (substringFrom (i + 4) data) sev source collapse
      (topReplElementCounter w).
Proof.
  intros Hi. pose proof MAX_REPL_LENGTH_ge_2 as HM.
  rewrite (appendToRepl_clear _ _ _ _ _ _ _ Hi).
  destruct (cleared_console session w) as (He & Ht & _).
  set (cleared := pushText _ _ _ _ _) in *. clearbody cleared.
  set (rest := substringFrom (i + 4) data).
  unfold appendData, clearedElements. rewrite He. cbn [last clearedNotice].
  destruct (decide (sev = Ignore)) as [->|Hsev].
  - rewrite !bool_decide_true by done.
    destruct (_ && _ && collapse); [done|]. simpl. by rewrite He, Ht.
  - rewrite (bool_decide_false (Ignore = sev)) by done.
    rewrite (bool_decide_false (sev = Ignore)) by done.
    destruct (pushText_top session rest sev source cleared) as (H1 & _).
    + by rewrite He.
    + rewrite He. simpl. lia.
    + by rewrite H1, He, Ht.
Qed.

(** X12.  A text carrying the clear-screen sequence wipes the slate: what
    the store holds afterwards depends on the store before only through
    the id counter; it is one or two text elements; no group is left,
    open or closed, so a later [endGroup] changes nothing and the next
    insert lands at top level. *)
Theorem clear_sequence_discards_everything (session : IDebugSession)
    (data : string) (sev : severity) (source : option IReplElementSource)
    (collapse : bool) (w : World) :
  indexOf clearAnsiSequence data ≠ None →
  let w' := appendToRepl session (Text data) sev source collapse w in
  (∀ w2, topReplElementCounter w2 = topReplElementCounter w →
     replElements (appendToRepl session (Text data) sev source collapse w2)
     = replElements w')
  ∧ 1 ≤ length (replElements w') ≤ 2
  ∧ Forall (λ e, isSimple e = true) (replElements w')
  ∧ allGroups (replElements w') = []
  ∧ openDepth (replElements w') = 0
  ∧ endGroup w' = w'.
Proof.
  intros Hc. cbv zeta.
  destruct (lastIndexOf clearAnsiSequence data) as [i|] eqn:Hi;
    [|by apply lastIndexOf_None in Hi].
  assert (Hshape : ∀ c,
            let l := clearedElements session (substringFrom (i + 4) data)
                       sev source collapse c in
            1 ≤ length l ≤ 2 ∧ Forall (λ e, isSimple e = true) l).
  { intros c. unfold clearedElements.
    destruct (bool_decide (sev = Ignore)); [destruct (_ && _ && collapse)|];
      simpl; (split; [lia|]); repeat constructor. }
  destruct (Hshape (topReplElementCounter w)) as [Hlen Hall].
  rewrite <- (appendToRepl_clear_elements _ _ _ _ _ w _ Hi) in Hlen, Hall.
  set (w' := appendToRepl session (Text data) sev source collapse w) in *.
  assert (Hlast : ∀ e, last (replElements w') = Some e → isGroup e = false).
  { intros e He%last_Some_elem_of. rewrite Forall_forall in Hall.
    specialize (Hall e He). by destruct e. }
  split.
  { intros w2 Hw2. unfold w'.
    by rewrite !(appendToRepl_clear_elements _ _ _ _ _ _ _ Hi), Hw2. }
  split; [done|]. split; [done|]. split; [|split].
  - unfold allGroups. clear Hlen Hlast.
    induction Hall as [|e l He _ IH]; [done|].
    rewrite flattenAll_cons, filter_app, IH, app_nil_r.
    rewrite flatten_leaf by (by destruct e).
    rewrite filter_cons_False; [done|]. by destruct e.
  - apply openDepth_closed. unfold lastIsOpenGroup.
    destruct (last (replElements w')) as [e|] eqn:E; [|done].
    specialize (Hlast e eq_refl). by destruct e.
  - by apply endGroup_other.
Qed.

Lemma clear_sequence_discards_everything_witness :
  allGroups
    (replElements
       (appendToRepl 0 (Text ("bye" +:+ clearAnsiSequence +:+ "hello"))
          Info None true sampleConsole))
  = [].
Proof.
  apply (clear_sequence_discards_everything 0
           ("bye" +:+ clearAnsiSequence +:+ "hello") Info None true
           sampleConsole).
  vm_compute. discriminate.
Defined.

(** ** When a text starts a new element *)

(** X13.  A text free of the clear-screen sequence is never merged into an
    element that is not a text element of the same severity: with such an
    element (or none) last at top level, the call appends a new text
    element with count 1 and a fresh id, evicting from the front as any
    insert does, and fires the change event once. *)
Theorem text_after_other_output_starts_new_element (session : IDebugSession)
    (data : string) (sev : severity) (source : option IReplElementSource)
    (collapse : bool) (w : World) :
  indexOf clearAnsiSequence data = None →
  lastIsOpenGroup (replElements w) = false →
  (∀ prev, last (replElements w) = Some prev → textSeverity prev ≠ Some sev) →
  let w' := appendToRepl session (Text data) sev source collapse w in
  replElements w'
  = drop (S (length (replElements w)) - MAX_REPL_LENGTH) (replElements w)
    ++ [SimpleReplElement session (uniqueIdOf (topReplElementCounter w))
          data sev source 1 0]
  ∧ changeFired w' = S (changeFired w).
Proof.
  intros Hplain Hlast Hprev. cbv zeta.
  rewrite appendToRepl_plain by done.
  rewrite appendData_fresh.
  2:{ intros ps pid pv psev psrc pc pf E Hs. destruct (Hprev _ E).
      simpl. by rewrite Hs. }
  unfold pushText, getUniqueId. rewrite addReplElement_top by done.
  simpl. by rewrite trim_snoc.
Qed.

Lemma text_after_other_output_starts_new_element_witness :
  replElements
    (appendToRepl 0 (Text "to stdout") Info None true
       (appendToRepl 0 (Text "to stderr") Error None true (newModel 0 0)))
  = replElements
      (appendToRepl 0 (Text "to stderr") Error None true (newModel 0 0))
    ++ [SimpleReplElement 0 (uniqueIdOf 1) "to stdout" Info None 1 0].
Proof.
  set (w := appendToRepl 0 (Text "to stderr") Error None true (newModel 0 0)).
  destruct (text_after_other_output_starts_new_element 0 "to stdout" Info
              None true w) as [H _].
  - vm_compute. reflexivity.
  - reflexivity.
  - intros prev E. vm_compute in E. injection E as <-. discriminate.
  - rewrite H. vm_compute. reflexivity.
Defined.

(** X14.  A raw object handed to [appendToRepl] is inserted with the
    severity and the source of the call in place of whatever severity and
    source it carried, its id, name, value and annotation being kept; the
    change event fires once; and no text merges into it: at top level, a
    text that follows it becomes the next element. *)
Theorem expression_output_stays_apart (session : IDebugSession)
    (id name : string) (valueObj : JsValue)
    (oldSource : option IReplElementSource) (annotation : option string)
    (oldSev : option severity) (sevE : severity)
    (sourceE : option IReplElementSource) (collapseE : bool)
    (data : string) (sev : severity) (source : option IReplElementSource)
    (collapse : bool) (w : World) :
  indexOf clearAnsiSequence data = None →
  lastIsOpenGroup (replElements w) = false →
  let e :=
    RawObjectExpression id name valueObj oldSource annotation oldSev in
  let stored :=
    RawObjectReplElement id name valueObj sourceE annotation (Some sevE) in
  let w1 := appendToRepl session (Expression e) sevE sourceE collapseE w in
  let w2 := appendToRepl session (Text data) sev source collapse w1 in
  replElements w1
  = drop (S (length (replElements w)) - MAX_REPL_LENGTH) (replElements w)
    ++ [stored]
  ∧ changeFired w1 = S (changeFired w)
  ∧ ∃ kept,
      replElements w2
      = kept ++ [stored;
                 SimpleReplElement session
                   (uniqueIdOf (topReplElementCounter w)) data sev source
                   1 0].
Proof.
  intros Hplain Hlast. cbv zeta.
  rewrite appendToRepl_expression.
  cbn [assignOutputFields].
  set (e' := RawObjectReplElement id name valueObj sourceE annotation
               (Some sevE)).
  assert (E0 : replElements (addReplElement e' w)
               = drop (S (length (replElements w)) - MAX_REPL_LENGTH)
                   (replElements w) ++ [e']).
  { rewrite addReplElement_top by done. simpl.
    rewrite trim_drop, length_app. simpl.
    replace (length (replElements w) + 1) with (S (length (replElements w)))
      by lia.
    pose proof MAX_REPL_LENGTH_ge_2.
    rewrite drop_app_le by lia. done. }
  split; [done|]. split; [by rewrite addReplElement_fires|].
  assert (E1 : last (replElements (addReplElement e' w)) = Some e')
    by (by rewrite E0, last_snoc).
  rewrite appendToRepl_plain by done.
  rewrite appendData_fresh.
  2:{ intros ps pid pv psev psrc pc pf E _. rewrite E1 in E. done. }
  unfold pushText, getUniqueId.
  set (t := SimpleReplElement _ _ _ _ _ _ _).
  change (Build_World _ _ _ _)
    with (addReplElement e' (getUniqueId w).2).
  by apply (addReplElement_twice_top e' t (getUniqueId w).2).
Qed.

Lemma expression_output_stays_apart_witness :
  replElements
    (appendToRepl 0
       (Expression
          (RawObjectExpression "root" "value" (JsArray [JsNull; JsString "x"])
             None (Some "note") (Some Info)))
       Warning None true (endGroup sampleNesting))
  = drop (S (length (replElements (endGroup sampleNesting)))
          - MAX_REPL_LENGTH) (replElements (endGroup sampleNesting))
    ++ [RawObjectReplElement "root" "value" (JsArray [JsNull; JsString "x"])
          None (Some "note") (Some Warning)].
Proof.
  destruct (expression_output_stays_apart 0 "root" "value"
              (JsArray [JsNull; JsString "x"]) None (Some "note")
              (Some Info) Warning None true "after" Info None true
              (endGroup sampleNesting)) as (H & _ & _).
  - vm_compute. reflexivity.
  - vm_compute. reflexivity.
  - exact H.
Defined.

(** ** Streamed text *)

Lemma endsWith_app_false a b :
  endsWith a LF = false → endsWith b LF = false →
  endsWith (a +:+ b) LF = false.
Proof.
  intros Ha Hb. destruct b as [|c b]; [by rewrite string_app_empty_r|].
  by rewrite endsWith_app.
Qed.

Lemma appendChunks_cons session x xs sev source collapse w :
  appendChunks session (x :: xs) sev source collapse w
  = appendChunks session xs sev source collapse
      (appendToRepl session (Text x) sev source collapse w).
Proof. reflexivity. Qed.

Lemma appendChunks_glue session sev source xs : ∀ x w l0 ps pid acc psrc pf,
  replElements w = l0 ++ [SimpleReplElement ps pid acc sev psrc 1 pf] →
  endsWith acc LF = false →
  Forall (λ s, indexOf clearAnsiSequence s = None ∧ endsWith s LF = false)
    (x :: xs) →
  appendChunks session (x :: xs) sev source false w
  = {| topReplElementCounter := topReplElementCounter w + S (length xs);
       COUNTER := COUNTER w;
       replElements :=
         l0 ++ [SimpleReplElement session
                  (uniqueIdOf (topReplElementCounter w + length xs))
                  (acc +:+ concatStrings (x :: xs)) sev source 1 0];
       changeFired := changeFired w + S (length xs) |}.
Proof.
  induction xs as [|y xs IH]; intros x w l0 ps pid acc psrc pf E Hacc Hall;
    apply Forall_cons in Hall as [[Hx1 Hx2] Hall];
    rewrite appendChunks_cons, (appendToRepl_plain _ x) by done;
    (rewrite (appendData_glue _ _ _ _ _ _ _ _ _ _ _ _ E);
       [|by intros (_ & _ & ?)|done]).
  - simpl. rewrite string_app_empty_r, !Nat.add_0_r.
    f_equal; lia.
  - erewrite IH; [|reflexivity|by apply endsWith_app_false|done].
    simpl. rewrite string_app_assoc.
    f_equal; [lia| |lia].
    do 3 f_equal. f_equal. lia.
Qed.

(** X15.  Text streamed in chunks is put back together: with "collapse
    identical lines" off, chunks of one severity that carry neither a
    trailing newline nor the clear-screen sequence, appended where the
    first one starts a new element, leave one text element holding their
    concatenation, with count 1; every chunk fires the change event and
    draws a new id. *)
Theorem streamed_chunks_concatenate (session : IDebugSession)
    (chunk : string) (chunks : list string) (sev : severity)
    (source : option IReplElementSource) (w : World) :
  Forall (λ s, indexOf clearAnsiSequence s = None ∧ endsWith s LF = false)
    (chunk :: chunks) →
  lastIsOpenGroup (replElements w) = false →
  (∀ ps pid pv psrc pc pf,
     last (replElements w) = Some (SimpleReplElement ps pid pv sev psrc pc pf) →
     endsWith pv LF = true ∨ pc ≠ 1) →
  length (replElements w) < MAX_REPL_LENGTH →
  let w' := appendChunks session (chunk :: chunks) sev source false w in
  replElements w'
  = replElements w
    ++ [SimpleReplElement session
          (uniqueIdOf (topReplElementCounter w + length chunks))
          (concatStrings (chunk :: chunks)) sev source 1 0]
  ∧ changeFired w' = changeFired w + S (length chunks)
  ∧ topReplElementCounter w' = topReplElementCounter w + S (length chunks).
Proof.
  intros Hall Hlast Hprev Hlen. cbv zeta.
  pose proof Hall as Hall'. apply Forall_cons in Hall' as [[Hc1 Hc2] Hrest].
  assert (E1 : appendToRepl session (Text chunk) sev source false w
               = pushText session chunk sev source w).
  { rewrite appendToRepl_plain by done. apply appendData_fresh.
    intros ps pid pv psev psrc pc pf E ->. split; [auto|].
    by apply (Hprev _ _ _ _ _ _ E). }
  destruct (pushText_top session chunk sev source w Hlast Hlen)
    as (H1 & H2 & H3 & H4).
  destruct chunks as [|y chunks].
  - rewrite appendChunks_cons, E1. unfold appendChunks. cbn [foldl].
    rewrite H1, H2, H3. simpl.
    rewrite string_app_empty_r, Nat.add_0_r. split; [done|]. lia.
  - rewrite appendChunks_cons, E1.
    erewrite appendChunks_glue; [|exact H1|done|done].
    simpl. split; [|lia].
    by replace (S (topReplElementCounter w + length chunks))
      with (topReplElementCounter w + S (length chunks)) by lia.
Qed.

Lemma streamed_chunks_concatenate_witness :
  replElements
    (appendChunks 0 ["Down"; "load"; "ing"; "..."] Info None false
       (newModel 0 0))
  = [SimpleReplElement 0 (uniqueIdOf 3) "Downloading..." Info None 1 0].
Proof.
  apply (streamed_chunks_concatenate 0 "Down" ["load"; "ing"; "..."] Info
           None (newModel 0 0)).
  - repeat constructor.
  - reflexivity.
  - intros ps pid pv psrc pc pf E. discriminate E.
  - simpl. pose proof MAX_REPL_LENGTH_ge_2. lia.
Defined.

(** ** The working directory of a terminal *)

Lemma poll_snoc answers answer c :
  NaiveCwd.poll (answers ++ [answer]) c
  = (NaiveCwd.getCwd (Some answer) (NaiveCwd.poll answers c)).2.
Proof. unfold NaiveCwd.poll. by rewrite foldl_app. Qed.

Lemma changesOnly_snoc l a b :
  NaiveCwd.changesOnly (l ++ [a]) -> a ≠ b ->
  NaiveCwd.changesOnly ((l ++ [a]) ++ [b]).
Proof.
  induction l as [|x [|y l] IH]; simpl; intros H Hab.
  - by split.
  - destruct H as [Hxa _]. by split_and!.
  - destruct H as [Hxy H]. split; [done|]. by apply IH.
Qed.

(** X16.  Whatever the process answers over time, the capability holds the
    last answer; the last change event carries the directory held; no
    two change events in a row carry the same directory, and the first
    one is not the empty initial directory; the events are answers of the
    process, in their order; and a capability without a process answers
    the empty string and changes nothing. *)
Theorem change_events_track_the_directory (answers : list string) :
  let c := NaiveCwd.poll answers NaiveCwd.create in
  NaiveCwd.cwd c = default "" (last answers)
  ∧ last ("" :: NaiveCwd.changeEvents c) = Some (NaiveCwd.cwd c)
  ∧ NaiveCwd.changesOnly ("" :: NaiveCwd.changeEvents c)
  ∧ NaiveCwd.changeEvents c `sublist_of` answers
  ∧ NaiveCwd.getCwd None c = ("", c).
Proof.
  cbv zeta. split_and!; [| | | |done].
  - induction answers as [|a l _] using rev_ind; [done|].
    rewrite poll_snoc, last_snoc. done.
  - induction answers as [|a l IH] using rev_ind; [done|].
    rewrite poll_snoc.
    cbn [NaiveCwd.getCwd snd NaiveCwd.changeEvents NaiveCwd.cwd].
    case_bool_decide as Hd.
    + by rewrite app_comm_cons, last_snoc.
    + by rewrite Hd.
  - induction answers as [|a l IH] using rev_ind; [done|].
    rewrite poll_snoc.
    cbn [NaiveCwd.getCwd snd NaiveCwd.changeEvents].
    case_bool_decide as Hd; [|done].
    assert (Hl : last ("" :: NaiveCwd.changeEvents (NaiveCwd.poll l NaiveCwd.create))
                 = Some (NaiveCwd.cwd (NaiveCwd.poll l NaiveCwd.create))).
    { clear. induction l as [|a l IH] using rev_ind; [done|].
      rewrite poll_snoc.
      cbn [NaiveCwd.getCwd snd NaiveCwd.changeEvents NaiveCwd.cwd].
      case_bool_decide as Hd.
      + by rewrite app_comm_cons, last_snoc.
      + by rewrite Hd. }
    destruct (NaiveCwd.changeEvents (NaiveCwd.poll l NaiveCwd.create))
      as [|e es _] using rev_ind.
    + simpl in *. split; [|done]. intros Heq. apply Hd. congruence.
    + change ("" :: (es ++ [e]) ++ [a]) with ((("" :: es) ++ [e]) ++ [a]).
      apply changesOnly_snoc; [exact IH|].
      rewrite app_comm_cons, last_snoc in Hl. intros ->. apply Hd. congruence.
  - induction answers as [|a l IH] using rev_ind; [done|].
    rewrite poll_snoc.
    cbn [NaiveCwd.getCwd snd NaiveCwd.changeEvents].
    case_bool_decide.
    + by apply sublist_app.
    + by apply sublist_inserts_r.
Qed.

(** ** The context keys of a dashboard *)

Lemma lowerChar_idemp c :
  ContextProvider.lowerChar (ContextProvider.lowerChar c)
  = ContextProvider.lowerChar c.
Proof.
  destruct c as [[] [] [] [] [] [] [] []]; vm_compute; reflexivity.
Qed.

Lemma toLowerCase_idemp s :
  ContextProvider.toLowerCase (ContextProvider.toLowerCase s)
  = ContextProvider.toLowerCase s.
Proof.
  induction s as [|c s IH]; [done|].
  simpl. by rewrite lowerChar_idemp, IH.
Qed.

(** X17.  Opening a dashboard sets context keys only for a provider named
    "mssql" in any letter case whose server info carries an engine
    edition: then the cloud flag and the edition are set together, the
    flag being true exactly for the cloud editions, followed by the major
    version if there is one.  In every other case no key is set, so the
    keys of an earlier dashboard stay as they were. *)
Theorem dashboard_context_needs_an_edition (cloudEditions : list Z)
    (providerName : string) (serverInfo : option ContextProvider.ServerInfo) :
  let commands :=
    ContextProvider.onDashboardOpen cloudEditions providerName serverInfo in
  let edition := serverInfo ≫= ContextProvider.engineEditionId in
  let version := serverInfo ≫= ContextProvider.serverMajorVersion in
  ContextProvider.onDashboardOpen cloudEditions
    (ContextProvider.toLowerCase providerName) serverInfo = commands
  ∧ match edition with
    | Some n =>
        if String.eqb (ContextProvider.toLowerCase providerName) "mssql"
        then commands
             = [(ContextProvider.ISCLOUD,
                 ContextProvider.ContextBool (bool_decide (n ∈ cloudEditions)));
                (ContextProvider.EDITIONID, ContextProvider.ContextNumber n)]
               ++ match version with
                  | Some v => [(ContextProvider.SERVERMAJORVERSION,
                                ContextProvider.ContextNumber v)]
                  | None => []
                  end
        else commands = []
    | None => commands = []
    end.
Proof.
  cbv zeta. split.
  - unfold ContextProvider.onDashboardOpen.
    by rewrite toLowerCase_idemp.
  - unfold ContextProvider.onDashboardOpen.
    destruct serverInfo as [[[ed|] [v|]]|]; simpl;
      destruct (String.eqb _ "mssql"); done.
Qed.

(** ** The find widget of a webview *)

Lemma nonEmpty_spec v : FindWidget.nonEmpty v = true -> v ≠ "".
Proof.
  unfold FindWidget.nonEmpty. intros H ->. done.
Qed.

(** X18.  After [dispose], no action on the widget reaches the webview any
    more, and the widget stays detached. *)
Theorem disposed_widget_is_silent (actions : list FindWidget.Action)
    (w : FindWidget.Widget) :
  let w' := foldl (λ acc a, FindWidget.act a acc) (FindWidget.dispose w) actions in
  FindWidget.calls w' = FindWidget.calls w
  ∧ FindWidget.attached w' = false.
Proof.
  cbv zeta.
  induction actions as [|a l IH] using rev_ind; [done|].
  rewrite foldl_app. cbn [foldl].
  destruct IH as [IHc IHa].
  destruct a; simpl;
    unfold FindWidget.find, FindWidget.hide, FindWidget.onInputChanged;
    rewrite ?IHa; simpl; done.
Qed.

(** X19.  Whatever is done with the widget, the calls already made on the
    webview stay as they are, and no call issued asks it to search for
    the empty string. *)
Theorem webview_never_searches_empty_text (actions : list FindWidget.Action)
    (w : FindWidget.Widget) :
  let w' := foldl (λ acc a, FindWidget.act a acc) w actions in
  exists issued,
    FindWidget.calls w' = FindWidget.calls w ++ issued
    ∧ Forall searchesText issued.
Proof.
  cbv zeta.
  induction actions as [|a l IH] using rev_ind.
  { exists []. by rewrite app_nil_r. }
  rewrite foldl_app. cbn [foldl].
  destruct IH as (issued & Hc & Hall).
  set (w1 := foldl _ w l) in *. clearbody w1.
  destruct a as [v p| |v|]; simpl;
    unfold FindWidget.find, FindWidget.hide, FindWidget.onInputChanged.
  - destruct (FindWidget.attached w1); simpl; [|by exists issued].
    destruct (FindWidget.nonEmpty v) eqn:Hv; [|by exists issued].
    exists (issued ++ [FindWidget.Find v p]). simpl.
    rewrite Hc, <- app_assoc. split; [done|].
    apply Forall_app. split; [done|].
    apply Forall_singleton. by apply nonEmpty_spec.
  - destruct (FindWidget.attached w1); simpl; [|by exists issued].
    exists (issued ++ [FindWidget.StopFind true; FindWidget.Focus]).
    rewrite Hc, <- !app_assoc. split; [done|].
    apply Forall_app. split; [done|]. by repeat constructor.
  - destruct (FindWidget.attached w1); simpl; [|by exists issued].
    destruct (FindWidget.nonEmpty v) eqn:Hv.
    + exists (issued ++ [FindWidget.StartFind v]). simpl.
      rewrite Hc, <- app_assoc. split; [done|].
      apply Forall_app. split; [done|].
      apply Forall_singleton. by apply nonEmpty_spec.
    + exists (issued ++ [FindWidget.StopFind false]). simpl.
      rewrite Hc, <- app_assoc. split; [done|].
      apply Forall_app. split; [done|]. by repeat constructor.
  - by exists issued.
Qed.

(** ** The memento of an extension *)

Lemma get_ready m values key d :
  Memento._value m = Some values ->
  Memento.get key d m = Memento.Ok (read values key d).
Proof.
  unfold Memento.get, read. intros ->.
  by destruct (Memento.property values key).
Qed.

Lemma act_ready asPrototype a m :
  is_Some (Memento._value m) ->
  is_Some (Memento._value (Memento.act asPrototype a m)).
Proof.
  intros [vs Hvs].
  destruct a as [k v|s k v|keys|]; simpl.
  - unfold Memento.update. rewrite Hvs. simpl. by eexists.
  - unfold Memento.onDidChangeStorage.
    destruct (Memento.listening m); [|by eexists].
    destruct (_ && _); simpl; by eexists.
  - by eexists.
  - by eexists.
Qed.

Lemma assign_own asPrototype values key value :
  Memento.storesOwnProperty values key = true ->
  Memento.assign asPrototype values key value
  = {| Memento.own := <[key := value]> (Memento.own values);
       Memento.prototype := Memento.prototype values |}.
Proof.
  unfold Memento.storesOwnProperty, Memento.assign. intros H.
  destruct (Memento.own values !! key) as [v|] eqn:E; [done|].
  rewrite bool_decide_false in H by (by intros [? ?]).
  simpl in H. apply negb_true_iff in H. by rewrite H.
Qed.

Lemma assign_accessor asPrototype values key value :
  Memento.storesOwnProperty values key = false ->
  key = "__proto__"
  ∧ Memento.own (Memento.assign asPrototype values key value)
    = Memento.own values
  ∧ (value ≫= asPrototype = None ->
     Memento.assign asPrototype values key value = values).
Proof.
  unfold Memento.storesOwnProperty, Memento.assign. intros H.
  apply orb_false_elim in H as [Hown H].
  apply negb_false_iff in H. rewrite H.
  apply andb_prop in H as [Hkey _]. apply String.eqb_eq in Hkey.
  destruct (Memento.own values !! key) as [v|] eqn:E.
  { rewrite bool_decide_true in Hown by (by eexists). done. }
  split; [done|].
  destruct (value ≫= asPrototype) as [chain|]; by split.
Qed.

(** X20.  On a memento that is ready, [update] succeeds and hands the
    storage the whole object, as the assignment left it, under the
    memento's scope and id.  When the assignment stores an own property
    (always, except for the key [__proto__] on an object that inherits the
    accessor of that name and has no own property so named), a following
    [get] of the key yields the value written, or the default when
    [undefined] was written, and every other key reads as before.  In the
    remaining case the own properties stay as they are, and a value that
    is neither an object nor [null] is dropped: every key reads as
    before. *)
Theorem memento_update_then_get
    (asPrototype : JsValue -> option Memento.Prototype)
    (m : Memento.ExtensionMemento) (values : Memento.Values)
    (key : string) (value : Memento.Any) :
  Memento._value m = Some values ->
  exists m' values',
    Memento.update asPrototype key value m = Memento.Ok m'
    ∧ Memento._value m' = Some values'
    ∧ Memento.storageCalls m'
      = Memento.storageCalls m
        ++ [Memento.SetValue (Memento._shared m) (Memento._id m) values']
    ∧ (Memento.storesOwnProperty values key = true ->
         Memento.own values' = <[key := value]> (Memento.own values)
         ∧ Memento.prototype values' = Memento.prototype values
         ∧ (forall d,
              Memento.get key d m'
              = Memento.Ok (match value with Some v => Some v | None => d end))
         ∧ (forall other d, other ≠ key ->
              Memento.get other d m' = Memento.get other d m))
    ∧ (Memento.storesOwnProperty values key = false ->
         key = "__proto__"
         ∧ Memento.own values' = Memento.own values
         ∧ (value ≫= asPrototype = None ->
              values' = values
              ∧ forall k d, Memento.get k d m' = Memento.get k d m)).
Proof.
  intros Hv. unfold Memento.update. rewrite Hv. cbv zeta.
  eexists _, _. split; [reflexivity|]. split; [reflexivity|].
  split; [reflexivity|]. split.
  - intros Hown. rewrite (assign_own _ _ _ _ Hown).
    split; [done|]. split; [done|]. split.
    + intros d. unfold Memento.get, Memento.property.
      cbn [Memento._value Memento.callStorage Memento.setValues
           Memento.own Memento.prototype].
      rewrite lookup_insert_eq. by destruct value.
    + intros other d Hne. unfold Memento.get, Memento.property.
      cbn [Memento._value Memento.callStorage Memento.setValues
           Memento.own Memento.prototype].
      rewrite Hv. by rewrite lookup_insert_ne.
  - intros Hacc.
    destruct (assign_accessor asPrototype values key value Hacc)
      as (Hkey & Hsame & Hdrop).
    split; [done|]. split; [done|].
    intros Hnone. specialize (Hdrop Hnone). split; [done|].
    intros k d. unfold Memento.get.
    cbn [Memento._value Memento.callStorage Memento.setValues].
    by rewrite Hdrop, Hv.
Qed.

Lemma memento_update_then_get_witness :
  exists m',
    Memento.update (λ _, None) "theme" (Some (JsString "dark"))
      (Memento.initResolved
         {| Memento.own := ∅; Memento.prototype := Memento.objectPrototype |}
         (Memento.create "vendor.extension" "1.0" true))
    = Memento.Ok m'
    ∧ Memento.get "theme" None m' = Memento.Ok (Some (JsString "dark"))
    ∧ Memento.get "toString" None m'
      = Memento.Ok
          (Some (JsOther "function toString() { [native code] }")).
Proof.
  destruct (memento_update_then_get (λ _, None)
              (Memento.initResolved
                 {| Memento.own := ∅;
                    Memento.prototype := Memento.objectPrototype |}
                 (Memento.create "vendor.extension" "1.0" true))
              {| Memento.own := ∅;
                 Memento.prototype := Memento.objectPrototype |}
              "theme" (Some (JsString "dark")) eq_refl)
    as (m' & values' & Hupdate & _ & _ & Hown & _).
  destruct (Hown eq_refl) as (_ & _ & Hget & Hother).
  exists m'. split; [exact Hupdate|]. split; [exact (Hget None)|].
  by rewrite Hother.
Defined.

(** On a parsed object a name of [Object.prototype] reads as the inherited
    function, not as the default, and a string written to [__proto__] is
    not read back. *)
Example memento_inherited_names :
  let stored :=
    Memento.initResolved
      {| Memento.own := ∅; Memento.prototype := Memento.objectPrototype |}
      (Memento.create "vendor.extension" "1.0" true) in
  Memento.get "toString" (Some (JsString "default")) stored
  = Memento.Ok (Some (JsOther "function toString() { [native code] }"))
  ∧ Memento.act (λ _, None)
      (Memento.DoUpdate "__proto__" (Some (JsString "x"))) stored
    = Memento.callStorage
        (Memento.SetValue true "vendor.extension"
           {| Memento.own := ∅;
              Memento.prototype := Memento.objectPrototype |})
        stored.
Proof. split; reflexivity. Qed.

(** X21.  [get] and [update] throw on a memento whose initial value has
    not arrived; once it has, neither throws again, whatever updates,
    storage events, key registrations or disposal happen in between. *)
Theorem memento_throws_only_before_ready
    (asPrototype : JsValue -> option Memento.Prototype)
    (id version : string) (global : bool)
    (values : Memento.Values) (actions : list Memento.Action)
    (key : string) (d value : Memento.Any) :
  let fresh := Memento.create id version global in
  let ready :=
    foldl (λ acc a, Memento.act asPrototype a acc)
      (Memento.initResolved values fresh) actions in
  Memento.get key d fresh = Memento.TypeError
  ∧ Memento.update asPrototype key value fresh = Memento.TypeError
  ∧ Memento.get key d ready ≠ Memento.TypeError
  ∧ Memento.update asPrototype key value ready ≠ Memento.TypeError.
Proof.
  cbv zeta. split; [done|]. split; [done|].
  assert (H : is_Some (Memento._value
            (foldl (λ acc a, Memento.act asPrototype a acc)
               (Memento.initResolved values (Memento.create id version global))
               actions))).
  { induction actions as [|a l IH] using rev_ind; [by eexists|].
    rewrite foldl_app. cbn [foldl]. by apply act_ready. }
  destruct H as [vs Hvs]. split.
  - by rewrite (get_ready _ vs).
  - unfold Memento.update. by rewrite Hvs.
Qed.

(** X22.  A storage event for the memento's own scope and id replaces its
    values as a whole: what [get] yields afterwards depends on the event
    alone, and nothing is written back.  An event for another scope or
    another extension changes nothing, and neither does any event after
    [dispose]. *)
Theorem memento_follows_its_own_storage (m : Memento.ExtensionMemento)
    (shared : bool) (key : string) (value : Memento.Values) :
  Memento.listening m = true ->
  shared ≠ Memento._shared m ∨ key ≠ Memento._id m ->
  (forall k d,
     Memento.get k d
       (Memento.onDidChangeStorage (Memento._shared m) (Memento._id m) value m)
     = Memento.Ok (read value k d))
  ∧ Memento.onDidChangeStorage shared key value m = m
  ∧ (forall s k, Memento.onDidChangeStorage s k value (Memento.dispose m)
                 = Memento.dispose m)
  ∧ Memento.storageCalls
      (Memento.onDidChangeStorage (Memento._shared m) (Memento._id m) value m)
    = Memento.storageCalls m.
Proof.
  intros Hl Hforeign.
  assert (Hown : Memento.onDidChangeStorage (Memento._shared m) (Memento._id m)
                   value m = Memento.setValues (Some value) m).
  { unfold Memento.onDidChangeStorage.
    by rewrite Hl, Bool.eqb_reflx, String.eqb_refl. }
  split_and!.
  - intros k d. rewrite Hown. by apply get_ready.
  - unfold Memento.onDidChangeStorage. rewrite Hl.
    destruct Hforeign as [Hs|Hk].
    + destruct (Bool.eqb shared (Memento._shared m)) eqn:He; [|done].
      by apply Bool.eqb_prop in He.
    + destruct (String.eqb key (Memento._id m)) eqn:He.
      * by apply String.eqb_eq in He.
      * by rewrite andb_false_r.
  - done.
  - by rewrite Hown.
Qed.

Lemma memento_follows_its_own_storage_witness :
  Memento.get "theme" None
    (Memento.onDidChangeStorage true "vendor.extension"
       {| Memento.own := ∅; Memento.prototype := Memento.objectPrototype |}
       (Memento.initResolved
          {| Memento.own := <["theme" := Some (JsString "dark")]> ∅;
             Memento.prototype := Memento.objectPrototype |}
          (Memento.create "vendor.extension" "1.0" true)))
  = Memento.Ok None
  ∧ Memento.onDidChangeStorage false "vendor.extension"
      {| Memento.own := ∅; Memento.prototype := Memento.objectPrototype |}
      (Memento.initResolved
         {| Memento.own := <["theme" := Some (JsString "dark")]> ∅;
            Memento.prototype := Memento.objectPrototype |}
         (Memento.create "vendor.extension" "1.0" true))
    = Memento.initResolved
        {| Memento.own := <["theme" := Some (JsString "dark")]> ∅;
           Memento.prototype := Memento.objectPrototype |}
        (Memento.create "vendor.extension" "1.0" true).
Proof.
  destruct (memento_follows_its_own_storage
              (Memento.initResolved
                 {| Memento.own := <["theme" := Some (JsString "dark")]> ∅;
                    Memento.prototype := Memento.objectPrototype |}
                 (Memento.create "vendor.extension" "1.0" true))
              false "vendor.extension"
              {| Memento.own := ∅;
                 Memento.prototype := Memento.objectPrototype |}
              eq_refl
              (or_introl (λ H : false = true, Bool.diff_false_true H)))
    as (Hget & Hsame & _).
  split; [|exact Hsame].
  exact (Hget "theme" None).
Defined.
